(** * eFuse fields of the ESP32-C2 ([espefuse/efuse/esp32c2/fields.py])

    A shallow embedding of the block codec, the programming controller,
    the error accounting pass and the typed field decoders, followed by
    the properties checked against them. *)

From Stdlib Require Import String Ascii DecimalString.
From Stdlib Require Import ZArith List Bool Lia.
From Stdlib Require Import Floats.
Import ListNotations.

Local Open Scope Z_scope.

(* ===================================================================== *)
(** * Python values and exceptions *)
(* ===================================================================== *)

(** The exceptions the modelled code can raise. *)
Inductive PyError : Type :=
| FatalError (msg : string)      (* esptool.FatalError *)
| StructError                    (* struct.error *)
| IndexError
| ValueError (msg : string)
| BinasciiError                  (* binascii.Error *)
| CreationError                  (* bitstring.CreationError *)
| InterpretError                 (* bitstring.InterpretError *)
| OverflowError
| TypeError.

Inductive result (A : Type) : Type :=
| Ok (a : A)
| Raise (e : PyError).
Arguments Ok {A} a.
Arguments Raise {A} e.

Definition rbind {A B} (r : result A) (k : A -> result B) : result B :=
  match r with
  | Ok a => k a
  | Raise e => Raise e
  end.

Declare Scope res_scope.
Delimit Scope res_scope with res.
Notation "'let?' x ':=' r 'in' k" := (rbind r (fun x => k))
  (at level 10, x name, r at level 100, k at level 200) : res_scope.

(** A byte is a [Z] in [0, 256); a [bytes] object is a list of them. *)
Definition is_byte (b : Z) : Prop := 0 <= b < 256.
Definition bytes := list Z.

(** [b"\x00" * n] *)
Definition zero_bytes (n : nat) : bytes := repeat 0 n.

(* --------------------------------------------------------------------- *)
(** ** [struct.unpack("<" + "I" * n, data)] *)

(** One little-endian unsigned 32-bit word from four bytes. *)
Definition le_word (b0 b1 b2 b3 : Z) : Z :=
  b0 + Z.shiftl b1 8 + Z.shiftl b2 16 + Z.shiftl b3 24.

(** All complete 4-byte groups of [data], in order; [None] when a
    group is incomplete. *)
Fixpoint le_words (data : bytes) : option (list Z) :=
  match data with
  | [] => Some []
  | b0 :: b1 :: b2 :: b3 :: rest =>
      match le_words rest with
      | Some ws => Some (le_word b0 b1 b2 b3 :: ws)
      | None => None
      end
  | _ => None
  end.

(** [struct.unpack] raises [struct.error] unless the buffer holds
    exactly [4 * n] bytes. *)
Definition struct_unpack_I (n : nat) (data : bytes) : result (list Z) :=
  if Nat.eqb (length data) (4 * n) then
    match le_words data with
    | Some ws => Ok ws
    | None => Raise StructError
    end
  else Raise StructError.

(** The four bytes of a 32-bit word, least significant first. *)
Definition word_le_bytes (w : Z) : bytes :=
  [Z.land w 255; Z.land (Z.shiftr w 8) 255;
   Z.land (Z.shiftr w 16) 255; Z.land (Z.shiftr w 24) 255].

(** The little-endian concatenation of a word list. *)
Definition words_le_concat (ws : list Z) : bytes :=
  flat_map word_le_bytes ws.

(* ===================================================================== *)
(** * The [reedsolo] codec used by [apply_coding_scheme]

    [reedsolo.RSCodec(12)] works over GF(2^8) with the primitive
    polynomial 0x11d, generator 2 and first consecutive root 0.  The
    definitions follow the library's functions of the same names. *)
(* ===================================================================== *)

Module reedsolo.

Definition prim : Z := 0x11d.
Definition field_charac : Z := 255.
Definition nsize : nat := 255.

(** [gf_mult_noLUT(x, 2, prim, 256)]: multiply by the generator. *)
Definition gf_times_generator (x : Z) : Z :=
  let y := Z.shiftl x 1 in
  if Z.testbit y 8 then Z.lxor y prim else y.

(** The successive powers of the generator, [count] of them from [x]. *)
Fixpoint gf_powers (count : nat) (x : Z) : list Z :=
  match count with
  | O => []
  | S c => x :: gf_powers c (gf_times_generator x)
  end.

(** [gf_exp]: 255 powers, stored twice so that two logarithms can be
    added without a reduction. *)
Definition gf_exp_table : list Z :=
  Eval vm_compute in (gf_powers 255 1 ++ gf_powers 255 1).

Fixpoint list_set (l : list Z) (i : nat) (v : Z) : list Z :=
  match l, i with
  | [], _ => []
  | _ :: t, O => v :: t
  | h :: t, S j => h :: list_set t j v
  end.

(** [gf_log[gf_exp[i]] = i] for [i < 255]; entry 0 is never set. *)
Definition gf_log_table : list Z :=
  Eval vm_compute in
    (fst (fold_left
            (fun '(tbl, i) x => (list_set tbl (Z.to_nat x) i, i + 1))
            (gf_powers 255 1) (repeat 0 256%nat, 0))).

Definition gf_exp (i : Z) : Z := nth (Z.to_nat i) gf_exp_table 0.
Definition gf_log (x : Z) : Z := nth (Z.to_nat x) gf_log_table 0.

Definition gf_mul (x y : Z) : Z :=
  if (x =? 0) || (y =? 0) then 0
  else gf_exp ((gf_log x + gf_log y) mod field_charac).

Definition gf_pow (x power : Z) : Z :=
  gf_exp ((gf_log x * power) mod field_charac).

(** [zip]-wise xor of [vs] into the front of [l]; what is left of [l]
    is kept. *)
Fixpoint xor_into (vs l : list Z) : list Z :=
  match vs, l with
  | v :: vs', x :: l' => Z.lxor x v :: xor_into vs' l'
  | _, _ => l
  end.

(** [gf_poly_mul(p, q)]: for each nonzero [q[j]], xor the products
    with the nonzero [p[i]] into [r[i + j]]. *)
Definition gf_poly_mul_row (p : list Z) (qj : Z) : list Z :=
  map (fun pi => if pi =? 0 then 0 else gf_exp (gf_log pi + gf_log qj)) p.

Fixpoint gf_poly_mul_from (p q r : list Z) : list Z :=
  match q with
  | [] => r
  | qj :: q' =>
      let r1 := if qj =? 0 then r else xor_into (gf_poly_mul_row p qj) r in
      match r1 with
      | [] => []
      | r0 :: rt => r0 :: gf_poly_mul_from p q' rt
      end
  end.

Definition gf_poly_mul (p q : list Z) : list Z :=
  gf_poly_mul_from p q (repeat 0 (length p + length q - 1)%nat).

(** [rs_generator_poly(nsym)] with [fcr = 0], [generator = 2]. *)
Fixpoint rs_generator_poly_from (g : list Z) (i : Z) (count : nat) : list Z :=
  match count with
  | O => g
  | S c => rs_generator_poly_from (gf_poly_mul g [1; gf_pow 2 i]) (i + 1) c
  end.

Definition rs_generator_poly (nsym : nat) : list Z :=
  rs_generator_poly_from [1] 0 nsym.

(** [gf_poly_eval(poly, x)]: Horner's scheme from [poly[0]].  The
    callers never pass an empty polynomial, for which Python raises. *)
Definition gf_poly_eval (poly : list Z) (x : Z) : Z :=
  match poly with
  | [] => 0
  | y0 :: rest => fold_left (fun y c => Z.lxor (gf_mul y x) c) rest y0
  end.

(** The division loop of [rs_encode_msg]: position [i] holds [coef];
    when it is nonzero, [gf_exp[lcoef + lgen[j]]] is xored into
    position [i + j] for [j = 1 .. len(gen) - 1].  The loop visits the
    first [count] positions from left to right and never writes at or
    before the position it is visiting, so it is a recursion on the
    remaining suffix. *)
Fixpoint rs_divide (lgen_tail : list Z) (count : nat) (msg_out : list Z)
  : list Z :=
  match count, msg_out with
  | S c, coef :: rest =>
      let rest' :=
        if coef =? 0 then rest
        else xor_into (map (fun lg => gf_exp (gf_log coef + lg)) lgen_tail)
                      rest in
      coef :: rs_divide lgen_tail c rest'
  | _, _ => msg_out
  end.

(** [rs_encode_msg(msg_in, nsym, gen=gen)] *)
Definition rs_encode_msg (msg_in : bytes) (gen : list Z) : bytes :=
  let msg_out := msg_in ++ repeat 0 (length gen - 1)%nat in
  let lgen := map gf_log gen in
  let divided := rs_divide (tl lgen) (length msg_in) msg_out in
  msg_in ++ skipn (length msg_in) divided.

(** [RSCodec.chunk(data, chunksize)] *)
Fixpoint chunk (fuel : nat) (data : bytes) (chunksize : nat) : list bytes :=
  match fuel, data with
  | S f, _ :: _ => firstn chunksize data :: chunk f (skipn chunksize data) chunksize
  | _, _ => []
  end.

(** [RSCodec(nsym).encode(data)]: each chunk of [nsize - nsym] bytes
    is encoded on its own. *)
Definition RSCodec_encode (nsym : nat) (data : bytes) : bytes :=
  flat_map (fun c => rs_encode_msg c (rs_generator_poly nsym))
           (chunk (length data) data (nsize - nsym)).

(** [rs_calc_syndromes(msg, nsym)] *)
Definition rs_calc_syndromes (msg : bytes) (nsym : nat) : list Z :=
  0 :: map (fun i => gf_poly_eval msg (gf_pow 2 (Z.of_nat i))) (seq 0 nsym).

(** The outcome of [rs_correct_msg]: with an all-zero syndrome the
    message part is returned as it is; any other syndrome enters the
    error locator, which this development does not follow. *)
Inductive decoded : Type :=
| Clean (msg : bytes)
| Corrupted (synd : list Z).

Definition rs_correct_msg (msg_in : bytes) (nsym : nat) : result decoded :=
  if (255 <? length msg_in)%nat then Raise (ValueError "message too long")
  else
    let synd := rs_calc_syndromes msg_in nsym in
    if fold_left Z.max synd 0 =? 0
    then Ok (Clean (firstn (length msg_in - nsym) msg_in))
    else Ok (Corrupted synd).

End reedsolo.

(* ===================================================================== *)
(** * [EfuseBlock]: the burn unit and the coding scheme *)
(* ===================================================================== *)

(** [EfuseBlock.len_of_burn_unit]: the writing window is 8 registers. *)
Definition len_of_burn_unit : nat := 8 * 4.

(** [EfuseBlock.apply_coding_scheme], on the two values it reads from
    the block: [raw] is [self.get_raw(from_read=False)] and
    [coding_scheme] is [self.get_coding_scheme()]; [CODING_SCHEME_RS]
    is the register table's constant. *)
Definition apply_coding_scheme_of
    (CODING_SCHEME_RS : Z) (raw : bytes) (coding_scheme : Z)
  : result (list Z) :=
  let data := rev raw in
  let data :=
    if (length data <? len_of_burn_unit)%nat
    then data ++ zero_bytes (len_of_burn_unit - length data)
    else data in
  if coding_scheme =? CODING_SCHEME_RS then
    let encoded_data := reedsolo.RSCodec_encode 12 data in
    struct_unpack_I 11 encoded_data
  else
    struct_unpack_I (length data / 4) data.


(* ===================================================================== *)
(** * The device session: register interface, clock and console

    The code talks to the chip through [read_reg], [write_reg],
    [update_reg] and [get_crystal_freq], reads the wall clock with
    [time.time()] and prints reports.  The environment answers each
    call that returns a value; the answer may depend on everything that
    happened before, so a [Device] gives it as a function of the number
    of answers already given.  Time is counted in clock ticks. *)
(* ===================================================================== *)

Record Device : Type := {
  clock : nat -> Z;            (* answer of [time.time()] *)
  reg : nat -> Z -> Z;         (* answer of [read_reg(addr)] *)
  xtal : nat -> Z              (* answer of [get_crystal_freq()] *)
}.

Inductive Printed : Type :=
| PBlank                                             (* [print("")] *)
| PBlockErrors (id num_errors : Z) (failed : bool)   (* "Error(s) in BLOCK.." *)
| PErrRegs (bits : list bool)                        (* [print_block(.., "err__regs")] *)
| PStatusReg (value : Z).                            (* "EFUSE_RD_RS_ERR_REG 0x.." *)

Inductive Event : Type :=
| EvRead (addr value : Z)
| EvWrite (addr value delay_after_us : Z)
| EvUpdate (addr mask new_val : Z)
| EvGetCrystalFreq (freq : Z)
| EvPrint (p : Printed).

(** What a run has consumed and done so far. *)
Record IO : Type := {
  calls : nat;                 (* answers received from the device *)
  log : list Event             (* register traffic and prints, oldest first *)
}.

(** A command either returns, raises, or is still polling when its
    step budget ends ([None]). *)
Definition M (A : Type) : Type := IO -> option (result A * IO).

Definition ret {A} (a : A) : M A := fun s => Some (Ok a, s).

Definition raise {A} (e : PyError) : M A := fun s => Some (Raise e, s).

Definition lift {A} (r : result A) : M A := fun s => Some (r, s).

Definition unfinished {A} : M A := fun _ => None.

Definition bind {A B} (m : M A) (k : A -> M B) : M B :=
  fun s =>
    match m s with
    | Some (Ok a, s') => k a s'
    | Some (Raise e, s') => Some (Raise e, s')
    | None => None
    end.

Declare Scope io_scope.
Delimit Scope io_scope with io.
Notation "x <- m ;; k" := (bind m (fun x => k))
  (at level 61, m at next level, right associativity) : io_scope.
Notation "m ;;; k" := (bind m (fun _ => k))
  (at level 61, right associativity) : io_scope.

Definition emit (e : Event) (s : IO) : IO :=
  {| calls := calls s; log := log s ++ [e] |}.

Definition answered (e : option Event) (s : IO) : IO :=
  {| calls := S (calls s);
     log := match e with Some ev => log s ++ [ev] | None => log s end |}.

(** Python's [l[i]] with its negative indices. *)
Definition py_index {A} (l : list A) (i : Z) : result A :=
  let n := Z.of_nat (length l) in
  let j := if i <? 0 then i + n else i in
  if (0 <=? j) && (j <? n) then
    match nth_error l (Z.to_nat j) with
    | Some x => Ok x
    | None => Raise IndexError
    end
  else Raise IndexError.

(** [a << n] and [a >> n]; a negative count is a [ValueError]. *)
Definition py_lshift (a n : Z) : result Z :=
  if n <? 0 then Raise (ValueError "negative shift count")
  else Ok (Z.shiftl a n).

Definition py_rshift (a n : Z) : result Z :=
  if n <? 0 then Raise (ValueError "negative shift count")
  else Ok (Z.shiftr a n).

(** ["%d" % n] *)
Definition decimal (n : Z) : string :=
  DecimalString.NilZero.string_of_int (Z.to_int n).

(* --------------------------------------------------------------------- *)
(** ** [bitstring.BitArray], most significant bit first *)

Definition BitArray := list bool.

(** [BitArray("uint:n=v")] *)
Definition uint_bits (n : nat) (v : Z) : result BitArray :=
  if (0 <=? v) && (v <? 2 ^ Z.of_nat n)
  then Ok (map (fun i => Z.testbit v (Z.of_nat i)) (rev (seq 0 n)))
  else Raise CreationError.

(** [self.overwrite(bs, pos=pos)] for [pos >= 0] *)
Definition overwrite (self bs : BitArray) (pos : nat) : result BitArray :=
  match bs with
  | [] => Ok self
  | _ =>
      if (length self <? pos + length bs)%nat
      then Raise (ValueError "Overwrite exceeds boundary of bitstring.")
      else Ok (firstn pos self ++ bs ++ skipn (pos + length bs) self)
  end.

(** [self.count(True)] *)
Definition count_true (self : BitArray) : Z :=
  Z.of_nat (length (filter (fun b => b) self)).

(** [self.uint] *)
Definition uint (self : BitArray) : result Z :=
  match self with
  | [] => Raise InterpretError
  | _ => Ok (fold_left (fun acc (b : bool) => 2 * acc + (if b then 1 else 0))
                       self 0)
  end.

(* --------------------------------------------------------------------- *)
(** ** The register table and the blocks *)

(** [EfuseDefineRegisters]: the constants of [mem_definition] that
    this file reads.  [EFUSE_BURN_TIMEOUT] is in clock ticks. *)
Record EfuseDefineRegisters : Type := {
  EFUSE_PGM_DATA0_REG : Z;
  EFUSE_CONF_REG : Z;
  EFUSE_WRITE_OP_CODE : Z;
  EFUSE_READ_OP_CODE : Z;
  EFUSE_CMD_REG : Z;
  EFUSE_PGM_CMD : Z;
  EFUSE_READ_CMD : Z;
  EFUSE_STATUS_REG : Z;
  EFUSE_BURN_TIMEOUT : Z;
  EFUSE_WR_TIM_CONF2_REG : Z;
  EFUSE_PWR_OFF_NUM_M : Z;
  EFUSE_RD_REPEAT_ERR_REG : Z;
  EFUSE_RD_RS_ERR_REG : Z;
  BLOCK_ERRORS : list (Z * option Z * option Z * option Z);
  CODING_SCHEME_NONE : Z;
  CODING_SCHEME_RS : Z
}.

(** The state of one block.  [codingScheme] and [wr_raw] stand for the
    storage of the base class. *)
Record EfuseBlock : Type := {
  id : Z;
  codingScheme : Z;
  wr_raw : bytes;
  err_bitarray : BitArray;
  num_errors : Z;
  fail : bool
}.

Definition set_errors (b : EfuseBlock) (n : Z) (f : bool) : EfuseBlock :=
  {| id := id b; codingScheme := codingScheme b; wr_raw := wr_raw b;
     err_bitarray := err_bitarray b; num_errors := n; fail := f |}.

Definition set_fail (b : EfuseBlock) (f : bool) : EfuseBlock :=
  set_errors b (num_errors b) f.

Definition set_num_errors (b : EfuseBlock) (n : Z) : EfuseBlock :=
  set_errors b n (fail b).

Definition set_err_bitarray (b : EfuseBlock) (e : BitArray) : EfuseBlock :=
  {| id := id b; codingScheme := codingScheme b; wr_raw := wr_raw b;
     err_bitarray := e; num_errors := num_errors b; fail := fail b |}.

(** Modelled from the spec: [EfuseBlockBase.get_raw] is in
    [base_fields], which is not part of the sources at hand; the block
    store hands out the raw bytes of the block's write buffer. *)
Definition get_raw (b : EfuseBlock) : bytes := wr_raw b.

(** Modelled from the spec: [EfuseBlockBase.get_coding_scheme] is in
    [base_fields], which is not part of the sources at hand; the data
    model gives every block a [codingScheme] of its own, NONE or
    REED_SOLOMON, taken from the static per-block configuration. *)
Definition get_coding_scheme (b : EfuseBlock) : Z := codingScheme b.

(** The per-block static configuration handed to the constructor. *)
Record BlockParam : Type := {
  param_id : Z;
  param_codingScheme : Z;
  param_len : nat              (* payload length in bytes *)
}.

(** Modelled from the spec: [EfuseBlockBase.__init__] is in
    [base_fields], which is not part of the sources at hand; a block
    is built from its static configuration with a zeroed payload and
    with [numErrors] and [fail] reset. *)
Definition EfuseBlockBase_init (param : BlockParam) : EfuseBlock :=
  {| id := param_id param;
     codingScheme := param_codingScheme param;
     wr_raw := zero_bytes (param_len param);
     err_bitarray := repeat false (8 * param_len param);
     num_errors := 0;
     fail := false |}.

(** The part of the [EspEfuses] object that the constructors touch. *)
Record EspEfuses : Type := {
  coding_scheme : Z;
  debug : bool
}.

Section Session.

Variable REGS : EfuseDefineRegisters.
Variable dev : Device.

Local Open Scope io_scope.

(** [EfuseBlock.apply_coding_scheme] *)
Definition apply_coding_scheme (self : EfuseBlock) : result (list Z) :=
  apply_coding_scheme_of (CODING_SCHEME_RS REGS)
                         (get_raw self) (get_coding_scheme self).

(** [EspEfuses.read_coding_scheme] *)
Definition read_coding_scheme (self : EspEfuses) : EspEfuses :=
  {| coding_scheme := CODING_SCHEME_RS REGS; debug := debug self |}.

(** [EfuseBlock.__init__]: the parent's coding scheme is read first,
    then the base class builds the block. *)
Definition EfuseBlock_init (parent : EspEfuses) (param : BlockParam)
  : EspEfuses * EfuseBlock :=
  let parent := read_coding_scheme parent in
  (parent, EfuseBlockBase_init param).

(** The blocks of a session, [self.blocks = [EfuseBlock(self, ..) for ..]]. *)
Fixpoint make_blocks (parent : EspEfuses) (params : list BlockParam)
  : EspEfuses * list EfuseBlock :=
  match params with
  | [] => (parent, [])
  | p :: ps =>
      let '(parent1, b) := EfuseBlock_init parent p in
      let '(parent2, bs) := make_blocks parent1 ps in
      (parent2, b :: bs)
  end.

(* ------------------------------------------------------------------- *)
(** ** The calls into the environment *)

Definition time_time : M Z :=
  fun s => Some (Ok (clock dev (calls s)), answered None s).

Definition read_reg (addr : Z) : M Z :=
  fun s => let v := reg dev (calls s) addr in
           Some (Ok v, answered (Some (EvRead addr v)) s).

Definition write_reg (addr value delay_after_us : Z) : M unit :=
  fun s => Some (Ok tt, emit (EvWrite addr value delay_after_us) s).

Definition update_reg (addr mask new_val : Z) : M unit :=
  fun s => Some (Ok tt, emit (EvUpdate addr mask new_val) s).

Definition get_crystal_freq : M Z :=
  fun s => let f := xtal dev (calls s) in
           Some (Ok f, answered (Some (EvGetCrystalFreq f)) s).

Definition print (p : Printed) : M unit :=
  fun s => Some (Ok tt, emit (EvPrint p) s).

(* ------------------------------------------------------------------- *)
(** ** The programming controller *)

Definition timeout_message : string :=
  "Timed out waiting for Efuse controller command to complete"%string.

(** The [while time.time() < deadline] loop of [wait_efuse_idle];
    [budget] bounds the number of polls followed. *)
Fixpoint wait_loop (budget : nat) (deadline : Z) : M unit :=
  match budget with
  | O => unfinished
  | S b =>
      now <- time_time ;;
      if now <? deadline then
        status <- read_reg (EFUSE_STATUS_REG REGS) ;;
        if Z.land status 7 =? 1 then ret tt
        else wait_loop b deadline
      else raise (FatalError timeout_message)
  end.

(** [EspEfuses.wait_efuse_idle] *)
Definition wait_efuse_idle (budget : nat) : M unit :=
  start <- time_time ;;
  wait_loop budget (start + EFUSE_BURN_TIMEOUT REGS).

(** [for r in range(start, stop, 4): self.write_reg(r, 0)] *)
Fixpoint write_zeros (addrs : list Z) : M unit :=
  match addrs with
  | [] => ret tt
  | r :: rest => write_reg r 0 0 ;;; write_zeros rest
  end.

(** [range(EFUSE_PGM_DATA0_REG, EFUSE_PGM_DATA0_REG + 32, 4)] *)
Definition pgm_data_regs : list Z :=
  map (fun k => EFUSE_PGM_DATA0_REG REGS + 4 * Z.of_nat k) (seq 0 8).

(** [EspEfuses.clear_pgm_registers] *)
Definition clear_pgm_registers (budget : nat) : M unit :=
  wait_efuse_idle budget ;;;
  write_zeros pgm_data_regs.

(** [EspEfuses.efuse_read] *)
Definition efuse_read (budget : nat) : M unit :=
  wait_efuse_idle budget ;;;
  write_reg (EFUSE_CONF_REG REGS) (EFUSE_READ_OP_CODE REGS) 0 ;;;
  write_reg (EFUSE_CMD_REG REGS) (EFUSE_READ_CMD REGS) 1000 ;;;
  wait_efuse_idle budget.

(** [EspEfuses.efuse_program] *)
Definition efuse_program (budget : nat) (block : Z) : M unit :=
  wait_efuse_idle budget ;;;
  write_reg (EFUSE_CONF_REG REGS) (EFUSE_WRITE_OP_CODE REGS) 0 ;;;
  write_reg (EFUSE_CMD_REG REGS)
            (Z.lor (EFUSE_PGM_CMD REGS) (Z.shiftl block 2)) 0 ;;;
  wait_efuse_idle budget ;;;
  clear_pgm_registers budget ;;;
  efuse_read budget.

Definition xtal_message (apb_freq : Z) : string :=
  ("The eFuse supports only xtal=40M (xtal was " ++ decimal apb_freq ++ ")")%string.

(** [EspEfuses.set_efuse_timing] *)
Definition set_efuse_timing : M unit :=
  apb_freq <- get_crystal_freq ;;
  if negb (apb_freq =? 40) then raise (FatalError (xtal_message apb_freq))
  else update_reg (EFUSE_WR_TIM_CONF2_REG REGS) (EFUSE_PWR_OFF_NUM_M REGS) 0x190.

(** [EspEfuses.efuse_controller_setup] *)
Definition efuse_controller_setup (budget : nat) : M unit :=
  set_efuse_timing ;;;
  clear_pgm_registers budget ;;;
  wait_efuse_idle budget.

(* ------------------------------------------------------------------- *)
(** ** The error accounting pass *)

(** The local variables of [get_coding_scheme_warnings]. *)
Record Pass : Type := {
  old_addr_reg : Z;
  reg_value : Z;
  ret_fail : bool
}.

Definition pass_start : Pass :=
  {| old_addr_reg := 0; reg_value := 0; ret_fail := false |}.

(** The end of the loop body: [ret_fail |= block.fail] and the
    report line. *)
Definition report (silent : bool) (st : Pass) (block : EfuseBlock)
  : M (Pass * EfuseBlock) :=
  let st' := {| old_addr_reg := old_addr_reg st;
                reg_value := reg_value st;
                ret_fail := ret_fail st || fail block |} in
  (if negb silent && (fail block || negb (num_errors block =? 0))
   then print (PBlockErrors (id block) (num_errors block) (fail block))
   else ret tt) ;;;
  ret (st', block).

(** The branch for block 0. *)
Definition account_block0 (silent : bool) (st : Pass) (block : EfuseBlock)
  : M (Pass * EfuseBlock) :=
  word <- read_reg (EFUSE_RD_REPEAT_ERR_REG REGS + 0 * 4) ;;
  data <- lift (uint_bits 32 word) ;;
  err <- lift (overwrite (err_bitarray block) data 32) ;;
  let block := set_err_bitarray block err in
  let block := set_num_errors block (count_true (err_bitarray block)) in
  let block := set_fail block (negb (num_errors block =? 0)) in
  report silent st block.

(** The branch for the other blocks. *)
Definition account_blockN (silent : bool) (st : Pass) (block : EfuseBlock)
  : M (Pass * EfuseBlock) :=
  entry <- lift (py_index (BLOCK_ERRORS REGS) (id block)) ;;
  let '(addr_reg, err_num_mask, err_num_offs, fail_bit) := entry in
  match err_num_mask, err_num_offs, fail_bit with
  | Some err_num_mask, Some err_num_offs, Some fail_bit =>
      st <- (if negb (addr_reg =? old_addr_reg st)
             then value <- read_reg addr_reg ;;
                  ret {| old_addr_reg := addr_reg;
                         reg_value := value;
                         ret_fail := ret_fail st |}
             else ret st) ;;
      bit <- lift (py_lshift 1 fail_bit) ;;
      let block := set_fail block (negb (Z.land (reg_value st) bit =? 0)) in
      shifted <- lift (py_rshift (reg_value st) err_num_offs) ;;
      let block := set_num_errors block (Z.land shifted err_num_mask) in
      report silent st block
  | _, _, _ => ret (st, block)
  end.

(** One turn of [for block in self.blocks]. *)
Definition account_block (silent : bool) (st : Pass) (block : EfuseBlock)
  : M (Pass * EfuseBlock) :=
  if id block =? 0 then account_block0 silent st block
  else account_blockN silent st block.

(** The loop over a list of blocks, from the state [st]. *)
Fixpoint account_blocks (silent : bool) (st : Pass) (blocks : list EfuseBlock)
  : M (Pass * list EfuseBlock) :=
  match blocks with
  | [] => ret (st, [])
  | block :: rest =>
      r <- account_block silent st block ;;
      let '(st1, block1) := r in
      r' <- account_blocks silent st1 rest ;;
      let '(st2, rest1) := r' in
      ret (st2, block1 :: rest1)
  end.

(** [EspEfuses.print_status_regs] *)
Definition print_status_regs (blocks : list EfuseBlock) : M unit :=
  print PBlank ;;;
  block0 <- lift (py_index blocks 0) ;;
  print (PErrRegs (err_bitarray block0)) ;;;
  value <- read_reg (EFUSE_RD_RS_ERR_REG REGS) ;;
  print (PStatusReg value).

(** [EspEfuses.get_coding_scheme_warnings]: the blocks are updated in
    place, so the pass returns them with [ret_fail]. *)
Definition get_coding_scheme_warnings
    (self : EspEfuses) (blocks : list EfuseBlock) (silent : bool)
  : M (bool * list EfuseBlock) :=
  r <- account_blocks silent pass_start blocks ;;
  let '(st, blocks) := r in
  (if (debug self || ret_fail st) && negb silent
   then print_status_regs blocks else ret tt) ;;;
  ret (ret_fail st, blocks).

(** [EspEfuses.write_efuses] *)
Definition write_efuses (budget : nat) (self : EspEfuses)
    (blocks : list EfuseBlock) (block : Z) : M (bool * list EfuseBlock) :=
  efuse_program budget block ;;;
  get_coding_scheme_warnings self blocks true.

End Session.

(* ===================================================================== *)
(** * Typed fields *)
(* ===================================================================== *)

(** [float(n)] for a Python [int]: the nearest double, ties to even;
    an [int] beyond the doubles is an [OverflowError]. *)
Definition float_of_int (n : Z) : result float :=
  match SpecFloat.binary_normalize FloatOps.prec FloatOps.emax n 0 false with
  | SpecFloat.S754_infinity _ => Raise OverflowError
  | sf => Ok (FloatOps.SF2Prim sf)
  end.

(** The double that Python reads for the literal [0.1]. *)
Definition float_0_1 : float := 0x1.999999999999ap-4%float.

(** [sig * magnitude * step] with a [float] step: the product of the
    two [int]s is converted, then multiplied. *)
Definition int_times_float (n : Z) (x : float) : result float :=
  match float_of_int n with
  | Ok f => Ok (PrimFloat.mul f x)
  | Raise e => Raise e
  end.

(** [EfuseTempSensor.get], on [value = self.get_bitstring(from_read)] *)
Definition EfuseTempSensor_get (value : BitArray) : result float :=
  (let? top := py_index value 0 in
   let sig := if (top : bool) then -1 else 1 in
   let? magnitude := uint (skipn 1 value) in
   int_times_float (sig * magnitude) float_0_1)%res.

(** [EfuseAdcPointCalibration.get] *)
Definition EfuseAdcPointCalibration_get (value : BitArray) : result Z :=
  let STEP_SIZE := 4 in
  (let? top := py_index value 0 in
   let sig := if (top : bool) then -1 else 1 in
   let? magnitude := uint (skipn 1 value) in
   Ok (sig * magnitude * STEP_SIZE))%res.

(* --------------------------------------------------------------------- *)
(** ** MAC addresses *)


(** [s.count(c)] for a one-character [c] *)
Fixpoint str_count (c : ascii) (s : string) : nat :=
  match s with
  | EmptyString => 0%nat
  | String a rest =>
      if Ascii.eqb a c then S (str_count c rest) else str_count c rest
  end.

(** [s.replace(c, "")] for a one-character [c] *)
Fixpoint str_remove (c : ascii) (s : string) : string :=
  match s with
  | EmptyString => EmptyString
  | String a rest =>
      if Ascii.eqb a c then str_remove c rest else String a (str_remove c rest)
  end.

Definition hex_value (c : ascii) : option Z :=
  let n := Z.of_nat (nat_of_ascii c) in
  if (48 <=? n) && (n <=? 57) then Some (n - 48)
  else if (65 <=? n) && (n <=? 70) then Some (n - 55)
  else if (97 <=? n) && (n <=? 102) then Some (n - 87)
  else None.

Fixpoint is_ascii_str (s : string) : bool :=
  match s with
  | EmptyString => true
  | String a rest => (nat_of_ascii a <? 128)%nat && is_ascii_str rest
  end.

Fixpoint unhex_pairs (s : string) : result bytes :=
  match s with
  | EmptyString => Ok []
  | String _ EmptyString => Raise BinasciiError
  | String a (String b rest) =>
      match hex_value a, hex_value b with
      | Some hi, Some lo =>
          match unhex_pairs rest with
          | Ok t => Ok (16 * hi + lo :: t)
          | Raise e => Raise e
          end
      | _, _ => Raise BinasciiError
      end
  end.

(** [binascii.unhexlify(s)] for a [str] *)
Definition unhexlify (s : string) : result bytes :=
  if negb (is_ascii_str s)
  then Raise (ValueError "string argument should contain only ASCII characters"%string)
  else if Nat.odd (String.length s) then Raise BinasciiError
  else unhex_pairs s.

Definition msg_mac_required : string :=
  "Required MAC Address in AA:CD:EF:01:02:03 format!"%string.
Definition msg_mac_colons : string :=
  "MAC Address needs to be a 6-byte hexadecimal format separated by colons (:)!"%string.
Definition msg_mac_length : string :=
  "MAC Address needs to be a 6-byte hexadecimal number (12 hexadecimal characters)!"%string.
Definition msg_mac_unicast : string :=
  "Custom MAC must be a unicast MAC!"%string.

(** [EfuseMacField.check_format]; [None] is Python's [None]. *)
Definition check_format (new_value_str : option string) : result bytes :=
  match new_value_str with
  | None => Raise (FatalError msg_mac_required)
  | Some new_value_str =>
      if negb (Nat.eqb (str_count ":"%char new_value_str) 5)
      then Raise (FatalError msg_mac_colons)
      else
        let hexad := str_remove ":"%char new_value_str in
        if negb (Nat.eqb (String.length hexad) 12)
        then Raise (FatalError msg_mac_length)
        else
          (let? bindata := unhexlify hexad in
           let? first := py_index bindata 0 in
           if negb (Z.land first 1 =? 0)
           then Raise (FatalError msg_mac_unicast)
           else Ok bindata)%res
  end.

Section MacSave.

(** What the base class of the field does is not in this file: the
    value being saved, the bit string made of it and the state the base
    class keeps are left open, with the three base-class calls
    [save] makes. *)
Variables Value Bits Store : Type.
Variable convert_to_bitstring : Value -> Store -> result Bits * Store.
Variable print_field : Bits -> Store -> Store.
Variable EfuseFieldBase_save : Value -> Store -> result unit * Store.


End MacSave.

Section MacWrite.

Variables Bits Store : Type.
Variable convert_to_bitstring : bytes -> Store -> result Bits * Store.
Variable print_field : Bits -> Store -> Store.
Variable EfuseFieldBase_save : bytes -> Store -> result unit * Store.


End MacWrite.


(* ===================================================================== *)
(** * Vocabulary of the properties *)
(* ===================================================================== *)

(** A command runs to an end and the end satisfies [Q]. *)
Definition runs {A} (m : M A) (s : IO) (Q : result A -> IO -> Prop) : Prop :=
  exists r s', m s = Some (r, s') /\ Q r s'.

(** The events that change a register. *)
Definition is_write (e : Event) : bool :=
  match e with
  | EvWrite _ _ _ | EvUpdate _ _ _ => true
  | _ => false
  end.

Definition is_read (e : Event) : bool :=
  match e with
  | EvRead _ _ => true
  | _ => false
  end.

Definition register_writes (l : list Event) : list Event := filter is_write l.
Definition register_reads (l : list Event) : list Event := filter is_read l.

(** The low three bits of the status register read binary 001. *)
Definition is_idle (status : Z) : Prop := Z.land status 7 = 1.

(** The register traffic of one successful idle wait: reads of the
    status register, the last of which, and only the last, is idle. *)
Definition idle_wait (STATUS : Z) (w : list Event) : Prop :=
  exists busy last,
    w = map (EvRead STATUS) (busy ++ [last]) /\
    Forall (fun v => ~ is_idle v) busy /\
    is_idle last.

(** The clock passes any deadline within [budget] polls: from every
    point of a run, one of the next [budget] polls reads a time at
    least [timeout] later. *)
Definition clock_live (dev : Device) (timeout : Z) (budget : nat) : Prop :=
  forall c, exists n,
    (n < budget)%nat /\ clock dev c + timeout <= clock dev (S c + 2 * n).

(** An entry of [BLOCK_ERRORS]:
    [(addr_reg, err_num_mask, err_num_offs, fail_bit)]. *)
Definition ErrorLayout : Type := (Z * option Z * option Z * option Z)%type.

(** The entry declares an error-count mask, an offset and a fail bit. *)
Definition is_tracked (e : ErrorLayout) : bool :=
  match e with
  | (_, Some _, Some _, Some _) => true
  | _ => false
  end.

Definition layout_addr (e : ErrorLayout) : Z :=
  let '(addr_reg, _, _, _) := e in addr_reg.

(** The shift counts of a declared entry are not negative. *)
Definition layout_ok (e : ErrorLayout) : Prop :=
  match e with
  | (_, Some _, Some err_num_offs, Some fail_bit) =>
      0 <= err_num_offs /\ 0 <= fail_bit
  | _ => True
  end.

(** What the pass makes of a block whose entry is [e] when the status
    register reads [value]: an undeclared entry leaves the block as it
    is; a declared one sets [fail] to the fail bit of [value] and
    [num_errors] to [value] shifted and masked. *)
Definition accounted (value : Z) (e : ErrorLayout) (b : EfuseBlock)
  : EfuseBlock :=
  match e with
  | (_, Some err_num_mask, Some err_num_offs, Some fail_bit) =>
      set_errors b (Z.land (Z.shiftr value err_num_offs) err_num_mask)
                   (negb (Z.land value (Z.shiftl 1 fail_bit) =? 0))
  | _ => b
  end.

(** The block is not block 0 and its entry, when declared, names the
    status register [A]. *)
Definition in_run (REGS : EfuseDefineRegisters) (A : Z) (b : EfuseBlock)
  : Prop :=
  id b <> 0 /\
  exists e, py_index (BLOCK_ERRORS REGS) (id b) = Ok e /\
            layout_ok e /\
            (is_tracked e = true -> layout_addr e = A).

Definition block_tracked (REGS : EfuseDefineRegisters) (b : EfuseBlock)
  : bool :=
  match py_index (BLOCK_ERRORS REGS) (id b) with
  | Ok e => is_tracked e
  | Raise _ => false
  end.

(** The 32 bits of a register word, most significant first. *)
Definition word_bits (word : Z) : BitArray :=
  map (fun i => Z.testbit word (Z.of_nat i)) (rev (seq 0 32)).

(** The number of set bits of a bit string, counted bit by bit. *)
Fixpoint set_bits (l : BitArray) : Z :=
  match l with
  | [] => 0
  | b :: rest => Z.b2z b + set_bits rest
  end.

(** The number of ones among the low 32 binary digits of a word. *)
Definition popcount32 (word : Z) : Z :=
  fold_right (fun i acc => Z.b2z (Z.testbit word (Z.of_nat i)) + acc)
             0 (seq 0 32).

(** Block 0 after the pass, from block 0 before it and the word read
    from the repeat-error register: the buffer with the word laid over
    bits 32..63, and the error count as the number of set bits of
    that buffer, which is the set bits of the write-disable place, the
    ones of the word and the set bits past bit 63. *)
Definition block0_accounted (word : Z) (b b' : EfuseBlock) : Prop :=
  0 <= word < 2 ^ 32 /\
  (64 <= length (err_bitarray b))%nat /\
  err_bitarray b'
    = firstn 32 (err_bitarray b) ++ word_bits word
      ++ skipn 64 (err_bitarray b) /\
  firstn 32 (err_bitarray b') = firstn 32 (err_bitarray b) /\
  num_errors b' = set_bits (err_bitarray b') /\
  num_errors b'
    = set_bits (firstn 32 (err_bitarray b)) + popcount32 word
      + set_bits (skipn 64 (err_bitarray b)) /\
  fail b' = negb (num_errors b' =? 0) /\
  id b' = id b.




(** [c.join(groups)] *)
Fixpoint str_join (c : ascii) (groups : list string) : string :=
  match groups with
  | [] => EmptyString
  | g :: rest =>
      match rest with
      | [] => g
      | _ :: _ => (g ++ String c (str_join c rest))%string
      end
  end.

(* --------------------------------------------------------------------- *)
(** ** Sample data *)

(** A register table laid out like the one of the ESP32-C2, with the
    timeout of 250 clock ticks. *)
Definition sample_regs : EfuseDefineRegisters :=
  let base := 0x60008800 in
  {| EFUSE_PGM_DATA0_REG := base;
     EFUSE_CONF_REG := base + 0x08C;
     EFUSE_WRITE_OP_CODE := 0x5A5A;
     EFUSE_READ_OP_CODE := 0x5AA5;
     EFUSE_CMD_REG := base + 0x094;
     EFUSE_PGM_CMD := 0x2;
     EFUSE_READ_CMD := 0x1;
     EFUSE_STATUS_REG := base + 0x090;
     EFUSE_BURN_TIMEOUT := 250;
     EFUSE_WR_TIM_CONF2_REG := base + 0x118;
     EFUSE_PWR_OFF_NUM_M := 0xFFFF;
     EFUSE_RD_REPEAT_ERR_REG := base + 0x080;
     EFUSE_RD_RS_ERR_REG := base + 0x084;
     BLOCK_ERRORS :=
       [(base + 0x080, None, None, None);
        (base + 0x084, Some 0x7, Some 0, Some 3);
        (base + 0x084, Some 0x7, Some 4, Some 7);
        (base + 0x084, Some 0x7, Some 8, Some 11)];
     CODING_SCHEME_NONE := 0;
     CODING_SCHEME_RS := 4 |}.

(** A chip whose clock advances ten ticks per reading, whose
    controller is busy for the first answers and idle afterwards, and
    whose error registers hold fixed words. *)
Definition sample_dev : Device :=
  {| clock := fun n => 10 * Z.of_nat n;
     reg := fun n addr =>
              if addr =? EFUSE_STATUS_REG sample_regs
              then (if (n <? 4)%nat then 0 else 1)
              else if addr =? EFUSE_RD_REPEAT_ERR_REG sample_regs then 5
              else if addr =? EFUSE_RD_RS_ERR_REG sample_regs then 0x0B3
              else 0;
     xtal := fun _ => 40 |}.

Definition start : IO := {| calls := 0; log := [] |}.

Definition sample_session : EspEfuses := {| coding_scheme := 0; debug := false |}.

Definition sample_params : list BlockParam :=
  [ {| param_id := 0; param_codingScheme := 0; param_len := 8 |};
    {| param_id := 1; param_codingScheme := 4; param_len := 12 |};
    {| param_id := 2; param_codingScheme := 4; param_len := 8 |};
    {| param_id := 3; param_codingScheme := 4; param_len := 32 |} ].

Definition sample_blocks : list EfuseBlock :=
  snd (make_blocks sample_regs sample_session sample_params).

Definition payload_0_to_31 : bytes := map Z.of_nat (seq 0 32).

(** The sample pass, reports on, and the loop cut after block 0. *)
Definition sample_pass : option (result (bool * list EfuseBlock) * IO) :=
  get_coding_scheme_warnings sample_regs sample_dev sample_session
                             sample_blocks false start.

Definition sample_pass_blocks : list EfuseBlock :=
  match sample_pass with
  | Some (Ok (_, blocks), _) => blocks
  | _ => []
  end.

Definition sample_pass_end : IO :=
  match sample_pass with
  | Some (_, s) => s
  | None => start
  end.

Definition sample_pre : list EfuseBlock := firstn 1 sample_blocks.
Definition sample_run : list EfuseBlock := skipn 1 sample_blocks.

Definition sample_after_pre : option (result (Pass * list EfuseBlock) * IO) :=
  account_blocks sample_regs sample_dev false pass_start sample_pre start.

Definition sample_pass_at_run : Pass :=
  match sample_after_pre with
  | Some (Ok (st, _), _) => st
  | _ => pass_start
  end.

Definition sample_pre_done : list EfuseBlock :=
  match sample_after_pre with
  | Some (Ok (_, blocks), _) => blocks
  | _ => []
  end.

Definition sample_io_at_run : IO :=
  match sample_after_pre with
  | Some (_, s) => s
  | None => start
  end.

(** ** Polynomials over the field of [reedsolo] *)

Module reedsolo_view.
Import reedsolo.

(** The twelve roots of the generator polynomial, [gf_pow(2, i)]. *)
Definition roots : list Z := map (fun i => gf_pow 2 (Z.of_nat i)) (seq 0 12).

(** Horner's scheme continued from an accumulator. *)
Definition horner (x : Z) (y : Z) (l : list Z) : Z :=
  fold_left (fun y c => Z.lxor (gf_mul y x) c) l y.

(** The xor of the images [f i] of the set bits of a byte. *)
Definition bit_sum (f : nat -> Z) (idx : list nat) (a : Z) : Z :=
  fold_right
    (fun i acc => Z.lxor (if Z.testbit a (Z.of_nat i) then f i else 0) acc)
    0 idx.

(** The logarithms of the generator's coefficients after the leading 1. *)
Definition lgen_tail12 : list Z :=
  Eval vm_compute in tl (map gf_log (rs_generator_poly 12)).

Definition gen_row (coef : Z) : list Z :=
  map (fun lg => gf_exp (gf_log coef + lg)) lgen_tail12.

End reedsolo_view.

(** ** Register traffic *)

Section Traffic.

Variable REGS : EfuseDefineRegisters.
Variable dev : Device.

(** The status read made by the poll that starts at answer [c + 2 * j]. *)
Definition status_read (c j : nat) : Event :=
  EvRead (EFUSE_STATUS_REG REGS) (reg dev (c + 2 * j + 1) (EFUSE_STATUS_REG REGS)).

(** The register traffic of a burn of [block] that goes through. *)
Definition burn_trace (block : Z) (w1 w2 w3 w4 w5 : list Event) : list Event :=
  w1
  ++ [EvWrite (EFUSE_CONF_REG REGS) (EFUSE_WRITE_OP_CODE REGS) 0;
      EvWrite (EFUSE_CMD_REG REGS)
              (Z.lor (EFUSE_PGM_CMD REGS) (Z.shiftl block 2)) 0]
  ++ w2
  ++ (w3 ++ map (fun a => EvWrite a 0 0) (pgm_data_regs REGS))
  ++ (w4
      ++ [EvWrite (EFUSE_CONF_REG REGS) (EFUSE_READ_OP_CODE REGS) 0;
          EvWrite (EFUSE_CMD_REG REGS) (EFUSE_READ_CMD REGS) 1000]
      ++ w5).

End Traffic.

(** A command only ever adds to the log. *)
Definition extends (s s' : IO) : Prop := exists new, log s' = log s ++ new.

Definition adds_to_log {A} (m : M A) : Prop :=
  forall s r s', m s = Some (r, s') -> extends s s'.


(* ===================================================================== *)
(** * Further operations and vocabulary *)
(* ===================================================================== *)

(** [EspEfuses.get_block_errors] *)
Definition get_block_errors (blocks : list EfuseBlock) (block_num : Z)
  : result (Z * bool) :=
  (let? b := py_index blocks block_num in
   Ok (num_errors b, fail b))%res.

(** [EfuseMacField.check] of a field that lives in block [block];
    ["%d" % fail] prints a [bool] as 1 or 0. *)
Definition EfuseMacField_check (blocks : list EfuseBlock) (block : Z)
  : result string :=
  match get_block_errors blocks block with
  | Raise e => Raise e
  | Ok (errs, failed) =>
      let output :=
        if negb (errs =? 0) || failed
        then ("Block" ++ decimal block ++ " has ERRORS:" ++ decimal errs
              ++ " FAIL:" ++ decimal (if failed then 1 else 0))%string
        else "OK"%string in
      Ok ("(" ++ output ++ ")")%string
  end.

Definition is_print (e : Event) : bool :=
  match e with
  | EvPrint _ => true
  | _ => false
  end.

(** Whatever a command adds to the log satisfies [P], however the
    command ends. *)
Definition emits_only {A} (P : Event -> Prop) (m : M A) : Prop :=
  forall s r s', m s = Some (r, s') ->
                 exists new, log s' = log s ++ new /\ Forall P new.

(** The command needs no polling budget: it always ends. *)
Definition finishes {A} (m : M A) : Prop := forall s, m s <> None.

(** The loop does more to the block than skip it. *)
Definition accounts (REGS : EfuseDefineRegisters) (b : EfuseBlock) : bool :=
  (id b =? 0) || block_tracked REGS b.

(** The events the pass can add: reads of an error status register
    and, unless it is silent, prints. *)
Definition pass_event (REGS : EfuseDefineRegisters) (silent : bool)
    (e : Event) : Prop :=
  match e with
  | EvRead addr _ =>
      addr = EFUSE_RD_REPEAT_ERR_REG REGS \/
      addr = EFUSE_RD_RS_ERR_REG REGS \/
      In addr (map layout_addr (BLOCK_ERRORS REGS))
  | EvPrint _ => silent = false
  | _ => False
  end.

(** The pass left everything but the error fields of a block alone. *)
Definition same_block_data (b b' : EfuseBlock) : Prop :=
  id b' = id b /\ codingScheme b' = codingScheme b /\ wr_raw b' = wr_raw b /\
  length (err_bitarray b') = length (err_bitarray b) /\
  (id b <> 0 -> err_bitarray b' = err_bitarray b).

(** Two runs end alike: the same value or exception after the same
    number of answers from the device. *)
Definition same_outcome {A} (x y : option (result A * IO)) : Prop :=
  match x, y with
  | Some (r1, s1), Some (r2, s2) => r1 = r2 /\ calls s1 = calls s2
  | None, None => True
  | _, _ => False
  end.

Definition msg_overwrite : string :=
  "Overwrite exceeds boundary of bitstring."%string.
Definition msg_shift : string := "negative shift count"%string.

(** The eight programming-data registers, written out. *)
Definition pgm_data_addresses (REGS : EfuseDefineRegisters) : list Z :=
  let base := EFUSE_PGM_DATA0_REG REGS in
  [base + 0; base + 4; base + 8; base + 12;
   base + 16; base + 20; base + 24; base + 28].

(** Reads of the status register that did not show the idle pattern. *)
Definition busy_reads (STATUS : Z) (w : list Event) : Prop :=
  exists busy, w = map (EvRead STATUS) busy /\
               Forall (fun v => ~ is_idle v) busy.

(** The controller answers in time: from every point of a run, one of
    the next [budget] polls reads the idle pattern, and that poll and
    the polls before it are made before the deadline. *)
Definition answers_in_time (dev : Device) (STATUS timeout : Z) (budget : nat)
  : Prop :=
  forall c, exists n,
    (n < budget)%nat /\
    (forall j, (j <= n)%nat -> clock dev (S c + 2 * j) < clock dev c + timeout) /\
    is_idle (reg dev (S c + 2 * n + 1) STATUS).

(** What a burn of [block] has done when one of its five waits times
    out: the steps before that wait, each earlier wait having seen the
    controller idle. *)
Definition burn_interrupted (REGS : EfuseDefineRegisters) (block : Z)
    (done : list Event) : Prop :=
  let STATUS := EFUSE_STATUS_REG REGS in
  let program :=
    [EvWrite (EFUSE_CONF_REG REGS) (EFUSE_WRITE_OP_CODE REGS) 0;
     EvWrite (EFUSE_CMD_REG REGS)
             (Z.lor (EFUSE_PGM_CMD REGS) (Z.shiftl block 2)) 0] in
  let zeros := map (fun a => EvWrite a 0 0) (pgm_data_regs REGS) in
  let read :=
    [EvWrite (EFUSE_CONF_REG REGS) (EFUSE_READ_OP_CODE REGS) 0;
     EvWrite (EFUSE_CMD_REG REGS) (EFUSE_READ_CMD REGS) 1000] in
  done = [] \/
  (exists w1, idle_wait STATUS w1 /\ done = w1 ++ program) \/
  (exists w1 w2,
      idle_wait STATUS w1 /\ idle_wait STATUS w2 /\
      done = w1 ++ program ++ w2) \/
  (exists w1 w2 w3,
      idle_wait STATUS w1 /\ idle_wait STATUS w2 /\ idle_wait STATUS w3 /\
      done = w1 ++ program ++ w2 ++ w3 ++ zeros) \/
  (exists w1 w2 w3 w4,
      idle_wait STATUS w1 /\ idle_wait STATUS w2 /\ idle_wait STATUS w3 /\
      idle_wait STATUS w4 /\
      done = w1 ++ program ++ w2 ++ w3 ++ zeros ++ w4 ++ read).


(** The usual spelling of an address: two upper-case digits a byte,
    the bytes joined by colons. *)
Definition hex_digit (n : Z) : ascii :=
  nth (Z.to_nat n)
      ["0"; "1"; "2"; "3"; "4"; "5"; "6"; "7";
       "8"; "9"; "A"; "B"; "C"; "D"; "E"; "F"]%char "0"%char.

Definition hex_pair (b : Z) : string :=
  String (hex_digit (b / 16)) (String (hex_digit (b mod 16)) EmptyString).

Definition mac_spelling (mac : bytes) : string :=
  str_join ":"%char (map hex_pair mac).

(* --------------------------------------------------------------------- *)
(** ** Looking a field up by name

    [EspEfuses.__getitem__] searches the fields made so far and makes
    the BLOCK2 calibration fields when the name is one of theirs.  The
    descriptors of [Fields] and the field objects are those of the
    base classes: [desc_name] is [Fields.get(efuse).name], [field_name]
    is [e.name] and [from_tuple] is [EfuseField.from_tuple] applied to
    the session, the descriptor and its [class_type]. *)

(** The classes [EfuseField.from_tuple] chooses from. *)
Inductive FieldClass : Type :=
| EfuseMacField
| EfuseKeyPurposeField
| EfuseTempSensor
| EfuseAdcPointCalibration
| EfuseField.

(** The dictionary lookup of [from_tuple], with its default. *)
Definition from_tuple_class (type_class : string) : FieldClass :=
  if String.eqb type_class "mac" then EfuseMacField
  else if String.eqb type_class "keypurpose" then EfuseKeyPurposeField
  else if String.eqb type_class "t_sensor" then EfuseTempSensor
  else if String.eqb type_class "adc_tp" then EfuseAdcPointCalibration
  else EfuseField.

(** What [__getitem__] does: it returns a field or raises [KeyError]. *)
Inductive lookup (F : Type) : Type :=
| Found (e : F)
| KeyError.
Arguments Found {F} e.
Arguments KeyError {F}.

Section Lookup.

Variables Desc Field : Type.
Variable desc_name : Desc -> string.
Variable field_name : Field -> string.
Variable from_tuple : Desc -> Field.
Variable BLOCK2_CALIBRATION_EFUSES : list Desc.

(** [for e in self.efuses: if efuse_name == e.name: return e] *)
Definition first_named (efuses : list Field) (efuse_name : string)
  : option Field :=
  find (fun e => String.eqb efuse_name (field_name e)) efuses.

(** The loop over [BLOCK2_CALIBRATION_EFUSES]: every descriptor with
    the name asked for appends the whole list of calibration fields. *)
Fixpoint load_calibration (pending : list Desc) (efuse_name : string)
    (efuses : list Field) (new_fields : bool) : list Field * bool :=
  match pending with
  | [] => (efuses, new_fields)
  | efuse :: rest =>
      if String.eqb (desc_name efuse) efuse_name
      then load_calibration rest efuse_name
             (efuses ++ map from_tuple BLOCK2_CALIBRATION_EFUSES) true
      else load_calibration rest efuse_name efuses new_fields
  end.

(** [EspEfuses.__getitem__], on [self.efuses]; the second component
    is [self.efuses] afterwards. *)
Definition getitem (efuses : list Field) (efuse_name : string)
  : lookup Field * list Field :=
  match first_named efuses efuse_name with
  | Some e => (Found e, efuses)
  | None =>
      let '(efuses, new_fields) :=
        load_calibration BLOCK2_CALIBRATION_EFUSES efuse_name efuses false in
      if new_fields then
        match first_named efuses efuse_name with
        | Some e => (Found e, efuses)
        | None => (KeyError, efuses)
        end
      else (KeyError, efuses)
  end.

End Lookup.

(** The number of descriptors that carry a name. *)
Definition named_count {Desc} (desc_name : Desc -> string)
    (l : list Desc) (efuse_name : string) : nat :=
  length (filter (fun d => String.eqb (desc_name d) efuse_name) l).

(** [k] copies of a list, one after the other. *)
Fixpoint copies {A} (k : nat) (l : list A) : list A :=
  match k with
  | O => []
  | S k => l ++ copies k l
  end.


(** The number a bit string spells after the bits in [acc], most
    significant bit first. *)
Definition bits_value (l : BitArray) (acc : Z) : Z :=
  fold_left (fun acc (b : bool) => 2 * acc + (if b then 1 else 0)) l acc.

(* --------------------------------------------------------------------- *)
(** ** More sample data *)

(** A chip like [sample_dev] whose error registers show three errors
    in block 1 and no failure. *)
Definition quiet_dev : Device :=
  {| clock := fun n => 10 * Z.of_nat n;
     reg := fun n addr =>
              if addr =? EFUSE_STATUS_REG sample_regs then 1
              else if addr =? EFUSE_RD_RS_ERR_REG sample_regs then 0x003
              else 0;
     xtal := fun _ => 40 |}.

Definition quiet_pass : option (result (bool * list EfuseBlock) * IO) :=
  get_coding_scheme_warnings sample_regs quiet_dev sample_session
                             sample_blocks false start.

Definition quiet_pass_blocks : list EfuseBlock :=
  match quiet_pass with
  | Some (Ok (_, blocks), _) => blocks
  | _ => []
  end.

Definition quiet_pass_end : IO :=
  match quiet_pass with
  | Some (_, s) => s
  | None => start
  end.

Definition quiet_block1 : EfuseBlock :=
  match quiet_pass with
  | Some (Ok (_, _ :: b :: _), _) => b
  | _ => EfuseBlockBase_init
           {| param_id := 1; param_codingScheme := 4; param_len := 12 |}
  end.

(** A chip whose clock jumps 300 ticks per reading. *)
Definition late_dev : Device :=
  {| clock := fun n => 300 * Z.of_nat n;
     reg := fun _ _ => 1;
     xtal := fun _ => 40 |}.

(** A block 0 with an error bit buffer of 32 bits, and a block whose
    [id] is no index of [BLOCK_ERRORS]. *)
Definition short_block0 : EfuseBlock :=
  EfuseBlockBase_init
    {| param_id := 0; param_codingScheme := 0; param_len := 4 |}.

Definition stray_block : EfuseBlock :=
  EfuseBlockBase_init
    {| param_id := 9; param_codingScheme := 4; param_len := 32 |}.

Definition sample_wait_end : IO :=
  match wait_efuse_idle sample_regs sample_dev 13 start with
  | Some (_, s) => s
  | None => start
  end.

Definition sample_burn_end : IO :=
  match efuse_program sample_regs sample_dev 13 3 start with
  | Some (_, s) => s
  | None => start
  end.

Definition payload_0_to_35 : bytes := map Z.of_nat (seq 0 36).



(** Descriptors as pairs of a name and a [class_type]; fields as pairs
    of a class and a name. *)
Definition sample_desc_name (d : string * string) : string := fst d.
Definition sample_field_name (e : FieldClass * string) : string := snd e.
Definition sample_from_tuple (d : string * string) : FieldClass * string :=
  (from_tuple_class (snd d), fst d).

Definition sample_calibration : list (string * string) :=
  [("TEMP_CALIB", "t_sensor"); ("OCODE", "int");
   ("ADC_CALIBRATION_0", "adc_tp")]%string.

Definition sample_efuses : list (FieldClass * string) :=
  map sample_from_tuple
      [("MAC", "mac"); ("CUSTOM_MAC", "mac"); ("BLOCK2_VERSION", "int")]%string.

(* ===================================================================== *)
(** * Properties *)
(* ===================================================================== *)

(** ** Bytes and words *)

Lemma is_byte_lxor a b : is_byte a -> is_byte b -> is_byte (Z.lxor a b).
Proof.
  unfold is_byte; intros Ha Hb.
  assert (Hn : 0 <= Z.lxor a b) by (apply Z.lxor_nonneg; lia).
  split; [exact Hn|].
  destruct (Z.eq_dec (Z.lxor a b) 0) as [->|Hz]; [lia|].
  change 256 with (2 ^ 8). apply Z.log2_lt_pow2; [lia|].
  assert (Hl : forall x, 0 <= x < 256 -> Z.log2 x < 8).
  { intros x Hx. destruct (Z.eq_dec x 0) as [->|]; [reflexivity|].
    apply Z.log2_lt_pow2; lia. }
  pose proof (Z.log2_lxor a b ltac:(lia) ltac:(lia)) as Hm.
  pose proof (Hl a Ha). pose proof (Hl b Hb). lia.
Qed.

Lemma is_byte_0 : is_byte 0.
Proof. unfold is_byte; lia. Qed.

Lemma Forall_is_byte_repeat0 n : Forall is_byte (repeat 0 n).
Proof. induction n; simpl; constructor; auto using is_byte_0. Qed.

Lemma byte_in_range a :
  is_byte a -> In a (map Z.of_nat (seq 0 256)).
Proof.
  intros [H0 H1]. rewrite <- (Z2Nat.id a H0).
  apply in_map, in_seq. lia.
Qed.

Lemma word_le_bytes_le_word b0 b1 b2 b3 :
  is_byte b0 -> is_byte b1 -> is_byte b2 -> is_byte b3 ->
  word_le_bytes (le_word b0 b1 b2 b3) = [b0; b1; b2; b3].
Proof.
  unfold is_byte, word_le_bytes, le_word; intros.
  change 255 with (Z.ones 8).
  rewrite !Z.land_ones, !Z.shiftr_div_pow2, !Z.shiftl_mul_pow2 by lia.
  change (2 ^ 8) with 256. change (2 ^ 16) with 65536.
  change (2 ^ 24) with 16777216.
  repeat f_equal; Z.div_mod_to_equations; lia.
Qed.

Lemma le_words_concat data ws :
  Forall is_byte data -> le_words data = Some ws ->
  words_le_concat ws = data /\ (4 * length ws = length data)%nat.
Proof.
  remember (length data) as k eqn:Hk.
  revert data ws Hk.
  induction k as [k IH] using lt_wf_ind.
  intros data ws Hk Hb H. subst k.
  destruct data as [|b0 [|b1 [|b2 [|b3 rest]]]]; simpl in H; try discriminate.
  - inversion H; subst; split; reflexivity.
  - destruct (le_words rest) as [ws'|] eqn:E; [|discriminate].
    inversion H; subst; clear H.
    inversion Hb as [|? ? H0 Hb1]; subst.
    inversion Hb1 as [|? ? H1 Hb2]; subst.
    inversion Hb2 as [|? ? H2 Hb3]; subst.
    inversion Hb3 as [|? ? H3 Hb4]; subst.
    destruct (IH (length rest) ltac:(simpl; lia) rest ws' eq_refl Hb4 E)
      as [Hc Hl].
    split.
    + unfold words_le_concat in *. cbn [flat_map].
      rewrite word_le_bytes_le_word by assumption. rewrite Hc. reflexivity.
    + simpl. lia.
Qed.

Lemma le_words_total data n :
  length data = (4 * n)%nat -> exists ws, le_words data = Some ws.
Proof.
  revert data; induction n as [|n IH]; intros data H.
  - destruct data; [eexists; reflexivity | discriminate].
  - destruct data as [|b0 [|b1 [|b2 [|b3 rest]]]]; simpl in H; try lia.
    destruct (IH rest ltac:(lia)) as [ws Hw].
    exists (le_word b0 b1 b2 b3 :: ws). simpl. rewrite Hw. reflexivity.
Qed.

Lemma struct_unpack_I_bytes n data :
  Forall is_byte data -> length data = (4 * n)%nat ->
  exists ws, struct_unpack_I n data = Ok ws /\ length ws = n /\
             words_le_concat ws = data.
Proof.
  intros Hb Hl. unfold struct_unpack_I.
  rewrite Hl, Nat.eqb_refl.
  destruct (le_words_total data n Hl) as [ws Hw]. rewrite Hw.
  destruct (le_words_concat data ws Hb Hw) as [Hc Hlen].
  exists ws; repeat split; auto. lia.
Qed.

Lemma words_le_concat_app a b :
  words_le_concat (a ++ b) = words_le_concat a ++ words_le_concat b.
Proof. unfold words_le_concat. apply flat_map_app. Qed.

Lemma words_le_concat_length ws :
  length (words_le_concat ws) = (4 * length ws)%nat.
Proof.
  unfold words_le_concat. induction ws as [|w ws IH]; [reflexivity|].
  cbn [flat_map]. rewrite length_app, IH. simpl. lia.
Qed.

(** ** The Galois field of [reedsolo] *)

Module reedsolo_facts.
Import reedsolo.
Import reedsolo_view.

Lemma gf_exp_byte i : is_byte (gf_exp i).
Proof.
  unfold gf_exp.
  assert (H : Forall is_byte gf_exp_table).
  { apply Forall_forall. intros x Hx.
    assert (Hb : forallb (fun x => (0 <=? x) && (x <? 256)) gf_exp_table = true)
      by (vm_compute; reflexivity).
    rewrite forallb_forall in Hb. specialize (Hb x Hx).
    apply andb_true_iff in Hb. unfold is_byte. lia. }
  destruct (Nat.lt_ge_cases (Z.to_nat i) (length gf_exp_table)) as [Hlt|Hge].
  - rewrite Forall_forall in H. apply H, nth_In, Hlt.
  - rewrite nth_overflow by exact Hge. apply is_byte_0.
Qed.

Lemma gf_mul_byte x y : is_byte (gf_mul x y).
Proof.
  unfold gf_mul. destruct ((x =? 0) || (y =? 0)).
  - apply is_byte_0.
  - apply gf_exp_byte.
Qed.

Lemma gf_mul_0_l y : gf_mul 0 y = 0.
Proof. reflexivity. Qed.

Lemma bit_sum_lxor f idx a b :
  bit_sum f idx (Z.lxor a b) = Z.lxor (bit_sum f idx a) (bit_sum f idx b).
Proof.
  induction idx as [|i idx IH]; simpl; [reflexivity|].
  rewrite IH, Z.lxor_spec.
  destruct (Z.testbit a (Z.of_nat i)), (Z.testbit b (Z.of_nat i)); simpl;
    apply Z.bits_inj'; intros n Hn; rewrite ?Z.lxor_spec, ?Z.bits_0;
    repeat match goal with |- context [Z.testbit ?x n] =>
             destruct (Z.testbit x n) end; reflexivity.
Qed.

(** Multiplication by a root is the xor of the images of the bits. *)
Lemma gf_mul_bit_sum a r :
  is_byte a -> In r roots ->
  gf_mul a r = bit_sum (fun i => gf_mul (2 ^ Z.of_nat i) r) (seq 0 8) a.
Proof.
  intros Ha Hr.
  assert (H : forallb (fun r => forallb (fun a =>
             gf_mul a r =? bit_sum (fun i => gf_mul (2 ^ Z.of_nat i) r) (seq 0 8) a)
             (map Z.of_nat (seq 0 256))) roots = true)
    by (vm_compute; reflexivity).
  rewrite forallb_forall in H. specialize (H r Hr).
  rewrite forallb_forall in H. specialize (H a (byte_in_range a Ha)).
  apply Z.eqb_eq. exact H.
Qed.

Lemma gf_mul_lxor_l a b r :
  is_byte a -> is_byte b -> In r roots ->
  gf_mul (Z.lxor a b) r = Z.lxor (gf_mul a r) (gf_mul b r).
Proof.
  intros Ha Hb Hr.
  rewrite (gf_mul_bit_sum (Z.lxor a b) r (is_byte_lxor a b Ha Hb) Hr).
  rewrite bit_sum_lxor.
  rewrite <- (gf_mul_bit_sum a r Ha Hr), <- (gf_mul_bit_sum b r Hb Hr).
  reflexivity.
Qed.

Lemma gf_poly_eval_horner poly x : gf_poly_eval poly x = horner x 0 poly.
Proof.
  destruct poly as [|y0 rest]; [reflexivity|].
  unfold gf_poly_eval, horner. simpl. reflexivity.
Qed.

Lemma horner_byte x y l :
  is_byte y -> Forall is_byte l -> is_byte (horner x y l).
Proof.
  intros Hy Hl. revert y Hy. induction Hl as [|c l Hc Hl IH]; intros y Hy.
  - exact Hy.
  - unfold horner in *. simpl. apply IH.
    apply is_byte_lxor; [apply gf_mul_byte | exact Hc].
Qed.

Lemma horner_cons x y c l :
  horner x y (c :: l) = horner x (Z.lxor (gf_mul y x) c) l.
Proof. reflexivity. Qed.

Lemma lxor_swap a b c d :
  Z.lxor (Z.lxor a b) (Z.lxor c d) = Z.lxor (Z.lxor a c) (Z.lxor b d).
Proof.
  rewrite !Z.lxor_assoc. f_equal.
  rewrite <- !Z.lxor_assoc. f_equal. apply Z.lxor_comm.
Qed.

(** Horner's scheme is additive: evaluating the xor of two polynomials
    gives the xor of their values.  The second polynomial is [vs]
    followed by zeros. *)
Lemma horner_xor_into r (Hr : In r roots) l :
  forall vs y1 y2,
    Forall is_byte l -> Forall is_byte vs -> is_byte y1 -> is_byte y2 ->
    (length vs <= length l)%nat ->
    horner r (Z.lxor y1 y2) (xor_into vs l) =
    Z.lxor (horner r y1 l)
           (horner r y2 (vs ++ repeat 0 (length l - length vs))).
Proof.
  induction l as [|x l IH]; intros vs y1 y2 Hl Hv H1 H2 Hlen.
  - destruct vs; [reflexivity | simpl in Hlen; lia].
  - inversion Hl as [|? ? Hx Hl']; subst.
    destruct vs as [|v vs].
    + replace ([] ++ repeat 0 (length (x :: l) - length (@nil Z)))
        with (0 :: ([] ++ repeat 0 (length l - length (@nil Z))))
        by (simpl; rewrite Nat.sub_0_r; reflexivity).
      cbn [xor_into]. rewrite !horner_cons.
      rewrite <- (IH [] (Z.lxor (gf_mul y1 r) x) (Z.lxor (gf_mul y2 r) 0));
        auto using is_byte_lxor, gf_mul_byte, is_byte_0; [|simpl; lia].
      replace (xor_into [] l) with l by (destruct l; reflexivity). f_equal.
      rewrite gf_mul_lxor_l by assumption.
      rewrite lxor_swap, Z.lxor_0_r. reflexivity.
    + inversion Hv as [|? ? Hv0 Hv']; subst.
      cbn [xor_into app length Nat.sub]. rewrite !horner_cons.
      rewrite <- (IH vs (Z.lxor (gf_mul y1 r) x) (Z.lxor (gf_mul y2 r) v));
        auto using is_byte_lxor, gf_mul_byte; [|simpl in Hlen; lia].
      f_equal. rewrite gf_mul_lxor_l by assumption.
      apply lxor_swap.
Qed.

Lemma horner_zeros r n : horner r 0 (repeat 0 n) = 0.
Proof. induction n; simpl; [reflexivity|]. unfold horner in *. simpl. exact IHn. Qed.

Lemma horner_app x y l1 l2 :
  horner x y (l1 ++ l2) = horner x (horner x y l1) l2.
Proof. unfold horner. apply fold_left_app. Qed.

Lemma xor_into_length vs l : length (xor_into vs l) = length l.
Proof.
  revert l; induction vs as [|v vs IH]; intros [|x l]; simpl; auto.
Qed.

Lemma xor_into_bytes vs l :
  Forall is_byte vs -> Forall is_byte l -> Forall is_byte (xor_into vs l).
Proof.
  intros Hv; revert l; induction Hv as [|v vs Hv0 Hv IH]; intros l Hl.
  - destruct l; exact Hl.
  - destruct l as [|x l]; [constructor|].
    inversion Hl; subst. simpl. constructor; auto using is_byte_lxor.
Qed.

Lemma lgen_tail12_eq : tl (map gf_log (rs_generator_poly 12)) = lgen_tail12.
Proof. vm_compute. reflexivity. Qed.

Lemma gen_row_bytes coef : Forall is_byte (gen_row coef).
Proof.
  unfold gen_row. apply Forall_forall. intros x Hx.
  apply in_map_iff in Hx. destruct Hx as [lg [<- _]]. apply gf_exp_byte.
Qed.

Lemma lgen_tail12_length : length lgen_tail12 = 12%nat.
Proof. vm_compute. reflexivity. Qed.

Lemma gen12_length : length (rs_generator_poly 12) = 13%nat.
Proof. vm_compute. reflexivity. Qed.

Lemma gen_row_length coef : length (gen_row coef) = 12%nat.
Proof. unfold gen_row. rewrite length_map. apply lgen_tail12_length. Qed.

(** A multiple of the generator polynomial vanishes at each root. *)
Lemma gen_row_vanishes coef r :
  is_byte coef -> coef <> 0 -> In r roots ->
  horner r coef (gen_row coef) = 0.
Proof.
  intros Hc Hnz Hr.
  assert (H : forallb (fun r => forallb (fun c =>
             (c =? 0) || (horner r c (gen_row c) =? 0))
             (map Z.of_nat (seq 0 256))) roots = true)
    by (vm_compute; reflexivity).
  rewrite forallb_forall in H. specialize (H r Hr).
  rewrite forallb_forall in H. specialize (H coef (byte_in_range coef Hc)).
  apply orb_true_iff in H. destruct H as [H|H]; [apply Z.eqb_eq in H; lia|].
  apply Z.eqb_eq. exact H.
Qed.

Lemma rs_divide_length lg c out : length (rs_divide lg c out) = length out.
Proof.
  revert out; induction c as [|c IH]; intros [|coef rest]; simpl; auto.
  rewrite IH. destruct (coef =? 0); [reflexivity|].
  rewrite xor_into_length. reflexivity.
Qed.

Lemma rs_divide_bytes c out :
  Forall is_byte out -> Forall is_byte (rs_divide lgen_tail12 c out).
Proof.
  revert out; induction c as [|c IH]; intros [|coef rest] H;
    cbn [rs_divide]; auto.
  inversion H; subst. constructor; [assumption|]. apply IH.
  destruct (coef =? 0); [assumption|].
  fold (gen_row coef).
  apply xor_into_bytes; [apply gen_row_bytes | assumption].
Qed.

(** The division keeps the value at every root: what is left after
    [c] steps evaluates like the polynomial the loop started from. *)
Lemma rs_divide_eval r (Hr : In r roots) c :
  forall out,
    Forall is_byte out -> length out = (c + 12)%nat ->
    horner r 0 (skipn c (rs_divide lgen_tail12 c out)) = horner r 0 out.
Proof.
  induction c as [|c IH]; intros out Hb Hlen.
  - reflexivity.
  - destruct out as [|coef rest]; [discriminate|].
    inversion Hb as [|? ? Hc Hrest]; subst.
    cbn [rs_divide skipn]. rewrite horner_cons, gf_mul_0_l, Z.lxor_0_l.
    destruct (Z.eqb_spec coef 0) as [->|Hnz].
    + apply IH; [assumption | simpl in Hlen; lia].
    + fold (gen_row coef).
      rewrite IH;
        [| apply xor_into_bytes; [apply gen_row_bytes | assumption]
         | rewrite xor_into_length; simpl in Hlen; lia].
      rewrite <- (Z.lxor_nilpotent coef) at 1.
      rewrite horner_xor_into; auto using gen_row_bytes;
        [| rewrite gen_row_length; simpl in Hlen; lia].
      rewrite horner_app, gen_row_vanishes, horner_zeros by assumption.
      apply Z.lxor_0_r.
Qed.

Lemma xor_into_zeros vs :
  Forall is_byte vs -> xor_into vs (repeat 0 (length vs)) = vs.
Proof.
  induction 1 as [|v vs Hv Hvs IH]; [reflexivity|].
  simpl. rewrite IH. reflexivity.
Qed.

(** The systematic codeword [msg ++ parity] has an all-zero syndrome. *)
Lemma rs_encode_msg_syndrome msg r :
  Forall is_byte msg -> In r roots ->
  gf_poly_eval (rs_encode_msg msg (rs_generator_poly 12)) r = 0.
Proof.
  intros Hb Hr. rewrite gf_poly_eval_horner. unfold rs_encode_msg.
  rewrite lgen_tail12_eq, gen12_length.
  change (13 - 1)%nat with 12%nat.
  set (out := msg ++ repeat 0 12).
  set (R := skipn (length msg) (rs_divide lgen_tail12 (length msg) out)).
  assert (Hout : Forall is_byte out)
    by (apply Forall_app; split; [assumption | apply Forall_is_byte_repeat0]).
  assert (Hlen : length out = (length msg + 12)%nat)
    by (unfold out; rewrite length_app, repeat_length; reflexivity).
  assert (HRb : Forall is_byte R).
  { unfold R. rewrite <- (firstn_skipn (length msg)
                            (rs_divide lgen_tail12 (length msg) out)) at 1.
    pose proof (rs_divide_bytes (length msg) out Hout) as Hd.
    rewrite <- (firstn_skipn (length msg)) in Hd.
    apply Forall_app in Hd. destruct Hd as [_ Hd].
    rewrite firstn_skipn. exact Hd. }
  assert (HRl : length R = 12%nat)
    by (unfold R; rewrite length_skipn, rs_divide_length, Hlen; lia).
  pose proof (rs_divide_eval r Hr (length msg) out Hout Hlen) as Hinv.
  fold R in Hinv. unfold out in Hinv. rewrite horner_app in Hinv.
  rewrite horner_app.
  set (y := horner r 0 msg) in *.
  assert (Hy : is_byte y) by (apply horner_byte; [apply is_byte_0 | assumption]).
  rewrite <- (xor_into_zeros R HRb), <- (Z.lxor_0_r y), HRl.
  rewrite horner_xor_into;
    auto using Forall_is_byte_repeat0, is_byte_0;
    [| rewrite repeat_length; lia].
  rewrite repeat_length, HRl, Nat.sub_diag, app_nil_r.
  rewrite Hinv. apply Z.lxor_nilpotent.
Qed.

Lemma rs_encode_msg_bytes msg :
  Forall is_byte msg ->
  Forall is_byte (rs_encode_msg msg (rs_generator_poly 12)).
Proof.
  intros Hb. unfold rs_encode_msg.
  rewrite lgen_tail12_eq, gen12_length.
  apply Forall_app; split; [assumption|].
  set (d := rs_divide _ _ _).
  assert (Hd : Forall is_byte d).
  { apply rs_divide_bytes, Forall_app; split;
      [assumption | apply Forall_is_byte_repeat0]. }
  rewrite <- (firstn_skipn (length msg) d) in Hd.
  apply Forall_app in Hd. tauto.
Qed.

Lemma rs_encode_msg_parity_length msg :
  length (skipn (length msg)
            (rs_divide lgen_tail12 (length msg) (msg ++ repeat 0 12))) = 12%nat.
Proof.
  rewrite length_skipn, rs_divide_length, length_app, repeat_length. lia.
Qed.

(** A message that fits one chunk is encoded in one piece. *)
Lemma RSCodec_encode_one_chunk data :
  (0 < length data <= 243)%nat ->
  RSCodec_encode 12 data = rs_encode_msg data (rs_generator_poly 12).
Proof.
  intros Hl. unfold RSCodec_encode.
  destruct data as [|b data]; [simpl in Hl; lia|].
  change (nsize - 12)%nat with 243%nat.
  cbn [length chunk].
  rewrite firstn_all2 by lia. rewrite skipn_all2 by lia.
  assert (Hc : chunk (length data) [] 243 = [])
    by (destruct (length data); reflexivity).
  rewrite Hc. cbn [flat_map]. apply app_nil_r.
Qed.

(** A zero syndrome makes [rs_correct_msg] return the message part. *)
Lemma rs_correct_msg_clean msg :
  (12 <= length msg <= 255)%nat ->
  (forall r, In r roots -> gf_poly_eval msg r = 0) ->
  rs_correct_msg msg 12 = Ok (Clean (firstn (length msg - 12) msg)).
Proof.
  intros Hl Hs. unfold rs_correct_msg.
  destruct (Nat.ltb_spec 255 (length msg)) as [Hgt|_]; [lia|].
  assert (Hz : rs_calc_syndromes msg 12 = repeat 0 13).
  { unfold rs_calc_syndromes.
    change (repeat 0 13) with (0 :: map (fun _ : nat => 0) (seq 0 12)).
    f_equal. apply map_ext_in. intros i Hi. apply Hs.
    unfold roots. apply in_map_iff. exists i. split; [reflexivity | exact Hi]. }
  rewrite Hz. reflexivity.
Qed.

End reedsolo_facts.

(** ** The coding-scheme codec *)

Lemma app_inj_length {A} (a c b d : list A) :
  length a = length c -> a ++ b = c ++ d -> a = c /\ b = d.
Proof.
  revert c; induction a as [|x a IH]; intros [|y c] Hl H;
    try discriminate; simpl in *.
  - auto.
  - inversion H; subst. destruct (IH c ltac:(lia) H2) as [-> ->]. auto.
Qed.

Lemma le_word_range b0 b1 b2 b3 :
  is_byte b0 -> is_byte b1 -> is_byte b2 -> is_byte b3 ->
  0 <= le_word b0 b1 b2 b3 < 2 ^ 32.
Proof.
  unfold is_byte, le_word; intros.
  rewrite !Z.shiftl_mul_pow2 by lia.
  change (2 ^ 8) with 256. change (2 ^ 16) with 65536.
  change (2 ^ 24) with 16777216. change (2 ^ 32) with 4294967296. lia.
Qed.

Lemma le_words_range data :
  forall ws, Forall is_byte data -> le_words data = Some ws ->
             Forall (fun w => 0 <= w < 2 ^ 32) ws.
Proof.
  remember (length data) as k eqn:Hk. revert data Hk.
  induction k as [k IH] using lt_wf_ind.
  intros data Hk ws Hb H. subst k.
  destruct data as [|b0 [|b1 [|b2 [|b3 rest]]]]; simpl in H; try discriminate.
  - inversion H; constructor.
  - destruct (le_words rest) as [ws'|] eqn:E; [|discriminate].
    inversion H; subst; clear H.
    inversion Hb as [|? ? H0 Hb1]; subst.
    inversion Hb1 as [|? ? H1 Hb2]; subst.
    inversion Hb2 as [|? ? H2 Hb3]; subst.
    inversion Hb3 as [|? ? H3 Hb4]; subst.
    constructor; [apply le_word_range; assumption|].
    apply (IH (length rest) ltac:(simpl; lia) rest eq_refl ws' Hb4 E).
Qed.

Lemma struct_unpack_I_range n data ws :
  Forall is_byte data -> struct_unpack_I n data = Ok ws ->
  Forall (fun w => 0 <= w < 2 ^ 32) ws.
Proof.
  unfold struct_unpack_I. intros Hb H.
  destruct (Nat.eqb _ _); [|discriminate].
  destruct (le_words data) as [ws'|] eqn:E; [|discriminate].
  inversion H; subst. eapply le_words_range; eauto.
Qed.

(** The data handed to the codec: the write buffer reversed and
    filled with zero bytes up to the burn unit. *)
Lemma padded_data (raw : bytes) :
  (length raw <= len_of_burn_unit)%nat -> Forall is_byte raw ->
  let data := rev raw in
  let padded :=
    if (length data <? len_of_burn_unit)%nat
    then data ++ zero_bytes (len_of_burn_unit - length data) else data in
  padded = rev raw ++ zero_bytes (len_of_burn_unit - length raw) /\
  length padded = 32%nat /\ Forall is_byte padded.
Proof.
  intros Hlen Hb data padded. subst data padded.
  rewrite length_rev.
  assert (E : (if (length raw <? len_of_burn_unit)%nat
               then rev raw ++ zero_bytes (len_of_burn_unit - length raw)
               else rev raw)
              = rev raw ++ zero_bytes (len_of_burn_unit - length raw)).
  { destruct (Nat.ltb_spec (length raw) len_of_burn_unit) as [Hlt|Hge];
      [reflexivity|].
    replace (len_of_burn_unit - length raw)%nat with 0%nat by lia.
    simpl. rewrite app_nil_r. reflexivity. }
  rewrite E. split; [reflexivity|]. split.
  - unfold zero_bytes. rewrite length_app, repeat_length, length_rev.
    change len_of_burn_unit with 32%nat in *. lia.
  - apply Forall_app; split;
      [apply Forall_rev; exact Hb | apply Forall_is_byte_repeat0].
Qed.

(** The Reed-Solomon branch on 32 bytes of data. *)
Lemma rs_branch (data : bytes) :
  length data = 32%nat -> Forall is_byte data ->
  exists ws parity,
    struct_unpack_I 11 (reedsolo.RSCodec_encode 12 data) = Ok ws /\
    length ws = 11%nat /\
    Forall (fun w => 0 <= w < 2 ^ 32) ws /\
    words_le_concat (firstn 8 ws) = data /\
    words_le_concat (skipn 8 ws) = parity /\
    length parity = 12%nat /\
    reedsolo.RSCodec_encode 12 data = data ++ parity /\
    (forall i, (i < 12)%nat ->
       reedsolo.gf_poly_eval (data ++ parity)
                             (reedsolo.gf_pow 2 (Z.of_nat i)) = 0) /\
    reedsolo.rs_correct_msg (words_le_concat ws) 12
      = Ok (reedsolo.Clean data).
Proof.
  intros HP HPb.
  rewrite reedsolo_facts.RSCodec_encode_one_chunk by lia.
  set (cw := reedsolo.rs_encode_msg data (reedsolo.rs_generator_poly 12)).
  assert (Hcwb : Forall is_byte cw)
    by (apply reedsolo_facts.rs_encode_msg_bytes; exact HPb).
  set (parity := skipn (length data)
         (reedsolo.rs_divide reedsolo_view.lgen_tail12 (length data)
            (data ++ repeat 0 12))).
  assert (Hcw : cw = data ++ parity).
  { unfold cw, reedsolo.rs_encode_msg.
    rewrite reedsolo_facts.lgen_tail12_eq, reedsolo_facts.gen12_length.
    reflexivity. }
  assert (Hpl : length parity = 12%nat)
    by apply reedsolo_facts.rs_encode_msg_parity_length.
  assert (Hcwl : length cw = (4 * 11)%nat)
    by (rewrite Hcw, length_app, HP, Hpl; reflexivity).
  destruct (struct_unpack_I_bytes 11 cw Hcwb Hcwl) as [ws [Hu [Hwl Hwc]]].
  assert (Hsyn : forall r, In r reedsolo_view.roots ->
                           reedsolo.gf_poly_eval cw r = 0)
    by (intros r Hr; apply reedsolo_facts.rs_encode_msg_syndrome; assumption).
  assert (Hsplit : words_le_concat (firstn 8 ws) = data /\
                   words_le_concat (skipn 8 ws) = parity).
  { apply app_inj_length.
    - rewrite words_le_concat_length, length_firstn, Hwl, HP. reflexivity.
    - rewrite <- words_le_concat_app, firstn_skipn, Hwc. exact Hcw. }
  exists ws, parity. rewrite Hu.
  repeat split; try tauto.
  - eapply struct_unpack_I_range; eauto.
  - rewrite <- Hcw. intros i Hi. apply Hsyn.
    unfold reedsolo_view.roots. apply in_map_iff.
    exists i. split; [reflexivity | apply in_seq; lia].
  - rewrite Hwc, reedsolo_facts.rs_correct_msg_clean; [| lia | exact Hsyn].
    rewrite Hcwl, Hcw. change (4 * 11 - 12)%nat with 32%nat.
    rewrite <- HP, firstn_app, Nat.sub_diag, firstn_all, firstn_O, app_nil_r.
    reflexivity.
Qed.

(** C1.  Under the Reed-Solomon scheme a 32-byte payload (the write
    buffer in register order, [get_raw()[::-1]]) is burnt as exactly 11
    little-endian 32-bit words: the first 8 spell the payload, the last
    3 spell the 12 parity bytes that [RSCodec(12)] appends, the 44
    bytes form a codeword (they vanish at the 12 roots of the
    generator), and decoding them unaltered returns the payload. *)
Theorem apply_coding_scheme_rs_roundtrip
    (CODING_SCHEME_RS : Z) (raw : bytes) :
  length raw = 32%nat -> Forall is_byte raw ->
  exists ws parity,
    apply_coding_scheme_of CODING_SCHEME_RS raw CODING_SCHEME_RS = Ok ws /\
    length ws = 11%nat /\
    Forall (fun w => 0 <= w < 2 ^ 32) ws /\
    words_le_concat (firstn 8 ws) = rev raw /\
    words_le_concat (skipn 8 ws) = parity /\
    length parity = 12%nat /\
    reedsolo.RSCodec_encode 12 (rev raw) = rev raw ++ parity /\
    (forall i, (i < 12)%nat ->
       reedsolo.gf_poly_eval (rev raw ++ parity)
                             (reedsolo.gf_pow 2 (Z.of_nat i)) = 0) /\
    reedsolo.rs_correct_msg (words_le_concat ws) 12
      = Ok (reedsolo.Clean (rev raw)).
Proof.
  intros Hlen Hb.
  unfold apply_coding_scheme_of.
  rewrite length_rev, Hlen. change (32 <? len_of_burn_unit)%nat with false.
  cbv iota. rewrite Z.eqb_refl.
  apply rs_branch; [rewrite length_rev; exact Hlen | apply Forall_rev; exact Hb].
Qed.

(** C8.  Under any scheme other than Reed-Solomon (the NONE scheme) a
    payload of at most [len_of_burn_unit] bytes is burnt as exactly
    [len_of_burn_unit / 4 = 8] little-endian 32-bit words, whose
    concatenation is the payload followed by zero bytes up to the burn
    unit: nothing of the payload is cut off. *)
Theorem apply_coding_scheme_none_pads
    (CODING_SCHEME_RS : Z) (raw : bytes) (coding_scheme : Z) :
  coding_scheme <> CODING_SCHEME_RS ->
  (length raw <= len_of_burn_unit)%nat -> Forall is_byte raw ->
  exists ws,
    apply_coding_scheme_of CODING_SCHEME_RS raw coding_scheme = Ok ws /\
    length ws = (len_of_burn_unit / 4)%nat /\
    length ws = 8%nat /\
    Forall (fun w => 0 <= w < 2 ^ 32) ws /\
    words_le_concat ws
      = rev raw ++ zero_bytes (len_of_burn_unit - length raw) /\
    firstn (length raw) (words_le_concat ws) = rev raw.
Proof.
  intros Hcs Hlen Hb.
  destruct (padded_data raw Hlen Hb) as [Hpad [Hpl Hpb]].
  unfold apply_coding_scheme_of.
  destruct (Z.eqb_spec coding_scheme CODING_SCHEME_RS) as [Heq|_];
    [contradiction|].
  rewrite Hpl. change (32 / 4)%nat with 8%nat.
  destruct (struct_unpack_I_bytes 8 _ Hpb Hpl) as [ws [Hu [Hwl Hwc]]].
  exists ws. rewrite Hu, Hwc, Hpad.
  repeat split; auto.
  - eapply struct_unpack_I_range; eauto.
  - rewrite <- (length_rev raw), firstn_app, Nat.sub_diag, firstn_all.
    simpl. apply app_nil_r.
Qed.

Lemma apply_coding_scheme_rs_roundtrip_witness :
  exists ws parity,
    apply_coding_scheme_of 4 payload_0_to_31 4 = Ok ws /\
    length ws = 11%nat /\
    Forall (fun w => 0 <= w < 2 ^ 32) ws /\
    words_le_concat (firstn 8 ws) = rev payload_0_to_31 /\
    words_le_concat (skipn 8 ws) = parity /\
    length parity = 12%nat /\
    reedsolo.RSCodec_encode 12 (rev payload_0_to_31)
      = rev payload_0_to_31 ++ parity /\
    (forall i, (i < 12)%nat ->
       reedsolo.gf_poly_eval (rev payload_0_to_31 ++ parity)
                             (reedsolo.gf_pow 2 (Z.of_nat i)) = 0) /\
    reedsolo.rs_correct_msg (words_le_concat ws) 12
      = Ok (reedsolo.Clean (rev payload_0_to_31)).
Proof.
  apply (apply_coding_scheme_rs_roundtrip 4 payload_0_to_31).
  - reflexivity.
  - unfold payload_0_to_31, is_byte. apply Forall_forall. intros x Hx.
    apply in_map_iff in Hx. destruct Hx as [n [<- Hn]].
    apply in_seq in Hn. lia.
Defined.

Lemma apply_coding_scheme_none_pads_witness :
  exists ws,
    apply_coding_scheme_of 4 [1; 2; 3] 0 = Ok ws /\
    length ws = (len_of_burn_unit / 4)%nat /\
    length ws = 8%nat /\
    Forall (fun w => 0 <= w < 2 ^ 32) ws /\
    words_le_concat ws = rev [1; 2; 3] ++ zero_bytes (len_of_burn_unit - 3) /\
    firstn 3 (words_le_concat ws) = rev [1; 2; 3].
Proof.
  apply (apply_coding_scheme_none_pads 4 [1; 2; 3] 0).
  - lia.
  - unfold len_of_burn_unit. simpl. lia.
  - unfold is_byte. repeat constructor; lia.
Defined.

(** ** Typed fields *)

Lemma py_index_0_cons {A} (x : A) (l : list A) : py_index (x :: l) 0 = Ok x.
Proof.
  unfold py_index. cbn [length Z.ltb Z.compare].
  rewrite Nat2Z.inj_succ.
  destruct (Z.ltb_spec 0 (Z.succ (Z.of_nat (length l)))) as [_|H]; [|lia].
  reflexivity.
Qed.

Lemma py_index_0_nil {A} : py_index (@nil A) 0 = Raise IndexError.
Proof. reflexivity. Qed.

Lemma bits_value_bound (l : BitArray) :
  forall acc, exists v,
    bits_value l acc = acc * 2 ^ Z.of_nat (length l) + v /\
    0 <= v < 2 ^ Z.of_nat (length l).
Proof.
  induction l as [|b l IH]; intros acc.
  - exists 0. cbn [bits_value fold_left length]. change (2 ^ Z.of_nat 0) with 1.
    unfold bits_value. cbn [fold_left]. lia.
  - destruct (IH (2 * acc + (if b then 1 else 0))) as [v [Hv Hr]].
    exists ((if b then 1 else 0) * 2 ^ Z.of_nat (length l) + v).
    unfold bits_value in *. cbn [fold_left length].
    rewrite Hv, Nat2Z.inj_succ, Z.pow_succ_r by lia.
    destruct b; split; lia.
Qed.

Lemma bits_value_inj (l : BitArray) :
  forall l' acc acc',
    length l = length l' ->
    bits_value l acc = bits_value l' acc' -> acc = acc' /\ l = l'.
Proof.
  induction l as [|b l IH]; intros [|b' l'] acc acc' Hl H;
    try discriminate Hl.
  - unfold bits_value in H. cbn [fold_left] in H. auto.
  - unfold bits_value in H. cbn [fold_left] in H.
    destruct (IH l' _ _ ltac:(cbn [length] in Hl; lia) H) as [Ha ->].
    assert (acc = acc' /\ b = b') as [-> ->];
      [destruct b, b'; split; (lia || reflexivity) | auto].
Qed.

Lemma uint_value (l : BitArray) :
  l <> [] -> uint l = Ok (bits_value l 0).
Proof. destruct l; [congruence | reflexivity]. Qed.








(** ** The programming controller *)

Section ControllerProperties.

Variable REGS : EfuseDefineRegisters.
Variable dev : Device.

Local Open Scope io_scope.

Abbreviation STATUS := (EFUSE_STATUS_REG REGS).

Lemma bind_inv {A B} (m : M A) (k : A -> M B) s r s' :
  bind m k s = Some (r, s') ->
  (exists a s1, m s = Some (Ok a, s1) /\ k a s1 = Some (r, s')) \/
  (exists e, m s = Some (Raise e, s') /\ r = Raise e).
Proof.
  unfold bind. destruct (m s) as [[[a|e] s1]|]; intros H.
  - left. eauto.
  - right. inversion H; subst. eauto.
  - discriminate.
Qed.

Lemma status_reads_shift c m :
  map (status_read REGS dev c) (seq 0 (S m))
  = status_read REGS dev c 0 :: map (status_read REGS dev (c + 2)) (seq 0 m).
Proof.
  cbn [seq map]. f_equal. rewrite <- seq_shift, map_map.
  apply map_ext. intros j. unfold status_read.
  replace (c + 2 + 2 * j + 1)%nat with (c + 2 * S j + 1)%nat by lia.
  reflexivity.
Qed.

(** One turn of the polling loop. *)
Lemma wait_loop_step b deadline c lg :
  wait_loop REGS dev (S b) deadline {| calls := c; log := lg |}
  = if clock dev c <? deadline then
      if Z.land (reg dev (S c) STATUS) 7 =? 1
      then Some (Ok tt,
                 {| calls := S (S c);
                    log := lg ++ [EvRead STATUS (reg dev (S c) STATUS)] |})
      else wait_loop REGS dev b deadline
             {| calls := S (S c);
                log := lg ++ [EvRead STATUS (reg dev (S c) STATUS)] |}
    else Some (Raise (FatalError timeout_message),
               {| calls := S c; log := lg |}).
Proof.
  cbn [wait_loop]. unfold bind, time_time, read_reg, answered, ret, raise.
  cbn [calls log].
  destruct (clock dev c <? deadline); [|reflexivity].
  cbn [calls log].
  destruct (Z.land (reg dev (S c) STATUS) 7 =? 1); reflexivity.
Qed.

(** The polling loop stops at the first poll [m] that either reads
    the idle pattern before the deadline or finds the deadline passed. *)
Lemma wait_loop_outcomes budget :
  forall n c lg deadline,
    (n < budget)%nat ->
    deadline <= clock dev (c + 2 * n) ->
    exists m,
      (m <= n)%nat /\
      (forall j, (j < m)%nat ->
         clock dev (c + 2 * j) < deadline /\
         ~ is_idle (reg dev (c + 2 * j + 1) STATUS)) /\
      ((clock dev (c + 2 * m) < deadline /\
        is_idle (reg dev (c + 2 * m + 1) STATUS) /\
        wait_loop REGS dev budget deadline {| calls := c; log := lg |}
        = Some (Ok tt, {| calls := c + 2 * m + 2;
                          log := lg ++ map (status_read REGS dev c) (seq 0 (S m)) |}))
       \/
       (deadline <= clock dev (c + 2 * m) /\
        wait_loop REGS dev budget deadline {| calls := c; log := lg |}
        = Some (Raise (FatalError timeout_message),
                {| calls := c + 2 * m + 1;
                   log := lg ++ map (status_read REGS dev c) (seq 0 m) |}))).
Proof.
  induction budget as [|b IH]; intros n c lg deadline Hn Hd; [lia|].
  assert (H0 : status_read REGS dev c 0 = EvRead STATUS (reg dev (S c) STATUS)).
  { unfold status_read. replace (c + 2 * 0 + 1)%nat with (S c) by lia.
    reflexivity. }
  rewrite wait_loop_step.
  destruct (Z.ltb_spec (clock dev c) deadline) as [Hearly|Hlate].
  - destruct (Z.eqb_spec (Z.land (reg dev (S c) STATUS) 7) 1) as [Hidle|Hbusy].
    + exists 0%nat. split; [lia|]. split; [intros j Hj; lia|]. left.
      replace (c + 2 * 0)%nat with c by lia.
      replace (c + 1)%nat with (S c) by lia.
      split; [exact Hearly|]. split; [exact Hidle|].
      cbn [seq map]. rewrite H0.
      replace (c + 2)%nat with (S (S c)) by lia. reflexivity.
    + destruct n as [|n].
      { replace (c + 2 * 0)%nat with c in Hd by lia. lia. }
      destruct (IH n (S (S c)) (lg ++ [EvRead STATUS (reg dev (S c) STATUS)])
                   deadline ltac:(lia)
                   ltac:(replace (S (S c) + 2 * n)%nat
                           with (c + 2 * S n)%nat by lia; exact Hd))
        as [m [Hm [Hbefore Hstop]]].
      exists (S m). split; [lia|]. split.
      * intros j Hj. destruct j as [|j].
        -- replace (c + 2 * 0)%nat with c by lia.
           replace (c + 1)%nat with (S c) by lia. auto.
        -- replace (c + 2 * S j)%nat with (S (S c) + 2 * j)%nat by lia.
           apply Hbefore. lia.
      * replace (c + 2 * S m)%nat with (S (S c) + 2 * m)%nat by lia.
        destruct Hstop as [[H1 [H2 H3]]|[H1 H3]].
        -- left. split; [exact H1|]. split; [exact H2|].
           rewrite H3. rewrite (status_reads_shift c (S m)), H0.
           replace (c + 2)%nat with (S (S c)) by lia.
           rewrite <- app_assoc. reflexivity.
        -- right. split; [exact H1|].
           rewrite H3. rewrite (status_reads_shift c m), H0.
           replace (c + 2)%nat with (S (S c)) by lia.
           rewrite <- app_assoc. reflexivity.
  - exists 0%nat. split; [lia|]. split; [intros j Hj; lia|]. right.
    replace (c + 2 * 0)%nat with c by lia. split; [exact Hlate|].
    cbn [seq map]. rewrite app_nil_r.
    replace (c + 1)%nat with (S c) by lia. reflexivity.
Qed.

(** C3.  [wait_efuse_idle] fixes the deadline at its first clock
    reading plus the timeout and then polls.  If the clock reaches the
    deadline within the polls followed, the call ends at the first
    poll [m] that either reads the idle pattern (low three bits 001)
    before the deadline, and then it returns, or finds the deadline
    passed, and then it raises the timeout error; every status read
    before that was not idle.  There is no third outcome. *)
Theorem wait_efuse_idle_outcomes (budget : nat) (s : IO) (n : nat) :
  let c := S (calls s) in
  let deadline := clock dev (calls s) + EFUSE_BURN_TIMEOUT REGS in
  (n < budget)%nat ->
  deadline <= clock dev (c + 2 * n) ->
  exists m,
    (m <= n)%nat /\
    (forall j, (j < m)%nat ->
       clock dev (c + 2 * j) < deadline /\
       ~ is_idle (reg dev (c + 2 * j + 1) STATUS)) /\
    ((clock dev (c + 2 * m) < deadline /\
      is_idle (reg dev (c + 2 * m + 1) STATUS) /\
      wait_efuse_idle REGS dev budget s
      = Some (Ok tt, {| calls := c + 2 * m + 2;
                        log := log s ++ map (status_read REGS dev c) (seq 0 (S m)) |}))
     \/
     (deadline <= clock dev (c + 2 * m) /\
      wait_efuse_idle REGS dev budget s
      = Some (Raise (FatalError timeout_message),
              {| calls := c + 2 * m + 1;
                 log := log s ++ map (status_read REGS dev c) (seq 0 m) |}))).
Proof.
  intros c deadline Hn Hd.
  assert (Hw : wait_efuse_idle REGS dev budget s
               = wait_loop REGS dev budget deadline
                   {| calls := c; log := log s |}) by reflexivity.
  rewrite Hw. apply wait_loop_outcomes with (n := n); assumption.
Qed.

Lemma status_read_map c k :
  map (status_read REGS dev c) (seq 0 k)
  = map (EvRead STATUS)
        (map (fun j => reg dev (c + 2 * j + 1) STATUS) (seq 0 k)).
Proof. rewrite map_map. reflexivity. Qed.

(** With a live clock an idle wait either returns after a well-formed
    run of status reads or raises the timeout. *)
Lemma runs_wait budget s (Q : result unit -> IO -> Prop) :
  clock_live dev (EFUSE_BURN_TIMEOUT REGS) budget ->
  (forall w s', idle_wait STATUS w -> log s' = log s ++ w -> Q (Ok tt) s') ->
  (forall s', Q (Raise (FatalError timeout_message)) s') ->
  runs (wait_efuse_idle REGS dev budget) s Q.
Proof.
  intros Hlive Hok Hto.
  destruct (Hlive (calls s)) as [n [Hn Hd]].
  destruct (wait_loop_outcomes budget n (S (calls s)) (log s)
              (clock dev (calls s) + EFUSE_BURN_TIMEOUT REGS) Hn Hd)
    as [m [Hm [Hbefore [[H1 [H2 H3]]|[H1 H3]]]]];
    change (wait_loop REGS dev budget
              (clock dev (calls s) + EFUSE_BURN_TIMEOUT REGS)
              {| calls := S (calls s); log := log s |})
      with (wait_efuse_idle REGS dev budget s) in H3.
  - eexists _, _. split; [exact H3|].
    apply Hok with
      (w := map (status_read REGS dev (S (calls s))) (seq 0 (S m))); [|reflexivity].
    exists (map (fun j => reg dev (S (calls s) + 2 * j + 1) STATUS) (seq 0 m)),
           (reg dev (S (calls s) + 2 * m + 1) STATUS).
    split; [|split].
    + rewrite status_read_map. f_equal.
      rewrite seq_S, map_app. reflexivity.
    + apply Forall_forall. intros v Hv. apply in_map_iff in Hv.
      destruct Hv as [j [<- Hj]]. apply in_seq in Hj.
      apply Hbefore. lia.
    + exact H2.
  - eexists _, _. split; [exact H3|]. apply Hto.
Qed.

Lemma runs_bind {A B} (m : M A) (k : A -> M B) s (Q : result B -> IO -> Prop) :
  runs m s (fun r s1 => match r with
                        | Ok a => runs (k a) s1 Q
                        | Raise e => Q (Raise e) s1
                        end) ->
  runs (bind m k) s Q.
Proof.
  intros [r [s1 [Hm H]]]. unfold runs, bind. rewrite Hm.
  destruct r as [a|e].
  - exact H.
  - eexists _, _. split; [reflexivity | exact H].
Qed.

Lemma runs_write addr value delay s (Q : result unit -> IO -> Prop) :
  Q (Ok tt) (emit (EvWrite addr value delay) s) ->
  runs (write_reg addr value delay) s Q.
Proof. intros H. eexists _, _. split; [reflexivity | exact H]. Qed.

Lemma runs_write_zeros addrs :
  forall s (Q : result unit -> IO -> Prop),
    (forall s', log s' = log s ++ map (fun a => EvWrite a 0 0) addrs ->
                Q (Ok tt) s') ->
    runs (write_zeros addrs) s Q.
Proof.
  induction addrs as [|a addrs IH]; intros s Q H.
  - eexists _, _. split; [reflexivity|]. apply H. simpl.
    rewrite app_nil_r. reflexivity.
  - cbn [write_zeros]. apply runs_bind, runs_write. apply IH.
    intros s' Hs'. apply H. rewrite Hs'. cbn [emit log map].
    rewrite <- app_assoc. reflexivity.
Qed.

Lemma runs_wait_log budget s (Q : result unit -> IO -> Prop) :
  clock_live dev (EFUSE_BURN_TIMEOUT REGS) budget ->
  (forall w s', idle_wait STATUS w -> log s' = log s ++ w ->
                Q (Ok tt) s') ->
  (forall w s', busy_reads STATUS w -> log s' = log s ++ w ->
                Q (Raise (FatalError timeout_message)) s') ->
  runs (wait_efuse_idle REGS dev budget) s Q.
Proof.
  intros Hlive Hok Hto.
  destruct (Hlive (calls s)) as [n [Hn Hd]].
  destruct (wait_loop_outcomes budget n (S (calls s)) (log s)
              (clock dev (calls s) + EFUSE_BURN_TIMEOUT REGS) Hn Hd)
    as [m [Hm [Hbefore [[H1 [H2 H3]]|[H1 H3]]]]];
    change (wait_loop REGS dev budget
              (clock dev (calls s) + EFUSE_BURN_TIMEOUT REGS)
              {| calls := S (calls s); log := log s |})
      with (wait_efuse_idle REGS dev budget s) in H3.
  - eexists _, _. split; [exact H3|].
    apply Hok with
      (w := map (status_read REGS dev (S (calls s))) (seq 0 (S m)));
      [|reflexivity].
    exists (map (fun j => reg dev (S (calls s) + 2 * j + 1) STATUS)
                (seq 0 m)),
           (reg dev (S (calls s) + 2 * m + 1) STATUS).
    split; [|split].
    + rewrite status_read_map. f_equal.
      rewrite seq_S, map_app. reflexivity.
    + apply Forall_forall. intros v Hv. apply in_map_iff in Hv.
      destruct Hv as [j [<- Hj]]. apply in_seq in Hj.
      apply Hbefore. lia.
    + exact H2.
  - eexists _, _. split; [exact H3|].
    apply Hto with
      (w := map (status_read REGS dev (S (calls s))) (seq 0 m));
      [|reflexivity].
    exists (map (fun j => reg dev (S (calls s) + 2 * j + 1) STATUS)
                (seq 0 m)).
    split; [apply status_read_map|].
    apply Forall_forall. intros v Hv. apply in_map_iff in Hv.
    destruct Hv as [j [<- Hj]]. apply in_seq in Hj. apply Hbefore. lia.
Qed.

(** A controller that answers in time is found idle. *)
Lemma wait_loop_returns budget :
  forall n c lg deadline,
    (n < budget)%nat ->
    (forall j, (j <= n)%nat -> clock dev (c + 2 * j) < deadline) ->
    is_idle (reg dev (c + 2 * n + 1) STATUS) ->
    exists s', wait_loop REGS dev budget deadline {| calls := c; log := lg |}
               = Some (Ok tt, s').
Proof.
  induction budget as [|b IH]; intros n c lg deadline Hn Hc Hi; [lia|].
  rewrite wait_loop_step.
  pose proof (Hc 0%nat ltac:(lia)) as H0.
  replace (c + 2 * 0)%nat with c in H0 by lia.
  destruct (Z.ltb_spec (clock dev c) deadline) as [_|Hlate]; [|lia].
  destruct (Z.eqb_spec (Z.land (reg dev (S c) STATUS) 7) 1) as [_|Hbusy];
    [eexists; reflexivity|].
  destruct n as [|n].
  { exfalso. apply Hbusy.
    replace (c + 2 * 0 + 1)%nat with (S c) in Hi by lia. exact Hi. }
  apply (IH n); [lia | |].
  - intros j Hj.
    replace (S (S c) + 2 * j)%nat with (c + 2 * S j)%nat by lia.
    apply Hc. lia.
  - replace (S (S c) + 2 * n + 1)%nat with (c + 2 * S n + 1)%nat by lia.
    exact Hi.
Qed.

Lemma runs_wait_ok budget s (Q : result unit -> IO -> Prop) :
  answers_in_time dev STATUS (EFUSE_BURN_TIMEOUT REGS) budget ->
  (forall s', Q (Ok tt) s') ->
  runs (wait_efuse_idle REGS dev budget) s Q.
Proof.
  intros Hans HQ. destruct (Hans (calls s)) as [n [Hn [Hc Hi]]].
  destruct (wait_loop_returns budget n (S (calls s)) (log s)
              (clock dev (calls s) + EFUSE_BURN_TIMEOUT REGS) Hn Hc Hi)
    as [s' H].
  change (wait_loop REGS dev budget
            (clock dev (calls s) + EFUSE_BURN_TIMEOUT REGS)
            {| calls := S (calls s); log := log s |})
    with (wait_efuse_idle REGS dev budget s) in H.
  exists (Ok tt), s'. split; [exact H | apply HQ].
Qed.

(** With a controller that answers in time the burn goes through. *)
Lemma efuse_program_returns budget block s :
  answers_in_time dev STATUS (EFUSE_BURN_TIMEOUT REGS) budget ->
  runs (efuse_program REGS dev budget block) s (fun r _ => r = Ok tt).
Proof.
  intros Hans. unfold efuse_program, clear_pgm_registers, efuse_read.
  apply runs_bind, runs_wait_ok; [exact Hans | intros s1].
  apply runs_bind, runs_write. apply runs_bind, runs_write.
  apply runs_bind, runs_wait_ok; [exact Hans | intros s2].
  apply runs_bind, runs_bind, runs_wait_ok; [exact Hans | intros s3].
  apply runs_write_zeros. intros s4 _.
  apply runs_bind, runs_wait_ok; [exact Hans | intros s5].
  apply runs_bind, runs_write. apply runs_bind, runs_write.
  apply runs_wait_ok; [exact Hans | intros s6]. reflexivity.
Qed.

(** C2.  With a live clock [efuse_program] ends.  When it returns it
    has done exactly this, in this order: an idle wait; the write
    opcode to the configuration register; the program command, with
    the block number shifted into bits 2 and up, to the command
    register; an idle wait; [clear_pgm_registers] (its own idle wait,
    then a zero to each of the eight programming-data registers); and
    [efuse_read] (an idle wait, the read opcode, the read command with
    its 1000 us delay, an idle wait).  The only exception it raises is
    the timeout of one of the five waits, and then it has done the
    steps before that wait and seen the controller busy since.  With
    a controller that answers every wait in time it returns. *)
Theorem efuse_program_steps (budget : nat) (block : Z) (s : IO) :
  clock_live dev (EFUSE_BURN_TIMEOUT REGS) budget ->
  exists r s',
    efuse_program REGS dev budget block s = Some (r, s') /\
    match r with
    | Ok _ =>
        exists w1 w2 w3 w4 w5,
          idle_wait STATUS w1 /\ idle_wait STATUS w2 /\ idle_wait STATUS w3 /\
          idle_wait STATUS w4 /\ idle_wait STATUS w5 /\
          log s' = log s ++ burn_trace REGS block w1 w2 w3 w4 w5
    | Raise e =>
        e = FatalError timeout_message /\
        exists done w,
          burn_interrupted REGS block done /\
          busy_reads STATUS w /\
          log s' = log s ++ done ++ w
    end /\
    (answers_in_time dev STATUS (EFUSE_BURN_TIMEOUT REGS) budget ->
     r = Ok tt).
Proof.
  intros Hlive.
  assert (R : runs (efuse_program REGS dev budget block) s
    (fun r s' => match r with
       | Ok _ => exists w1 w2 w3 w4 w5,
           idle_wait STATUS w1 /\ idle_wait STATUS w2 /\ idle_wait STATUS w3 /\
           idle_wait STATUS w4 /\ idle_wait STATUS w5 /\
           log s' = log s ++ burn_trace REGS block w1 w2 w3 w4 w5
       | Raise e =>
           e = FatalError timeout_message /\
           exists done w,
             burn_interrupted REGS block done /\
             busy_reads STATUS w /\
             log s' = log s ++ done ++ w
       end)).
  { unfold efuse_program, clear_pgm_registers, efuse_read.
    apply runs_bind, runs_wait_log; [exact Hlive | |].
    2:{ intros w s' Hw L. split; [reflexivity|]. exists [], w.
        split; [left; reflexivity|]. split; [exact Hw | exact L]. }
    intros w1 s1 Hw1 L1.
    apply runs_bind, runs_write. apply runs_bind, runs_write.
    apply runs_bind, runs_wait_log; [exact Hlive | |].
    2:{ intros w s' Hw L. split; [reflexivity|]. eexists _, w.
        split; [right; left; exists w1; split; [exact Hw1 | reflexivity]|].
        split; [exact Hw|].
        rewrite L. cbn [emit log]. rewrite L1, <- !app_assoc. reflexivity. }
    intros w2 s2 Hw2 L2.
    apply runs_bind, runs_bind, runs_wait_log; [exact Hlive | |].
    2:{ intros w s' Hw L. split; [reflexivity|]. eexists _, w.
        split; [right; right; left; exists w1, w2;
                split; [exact Hw1 | split; [exact Hw2 | reflexivity]]|].
        split; [exact Hw|].
        rewrite L, L2. cbn [emit log]. rewrite L1, <- !app_assoc.
        reflexivity. }
    intros w3 s3 Hw3 L3.
    apply runs_write_zeros. intros s4 L4.
    apply runs_bind, runs_wait_log; [exact Hlive | |].
    2:{ intros w s' Hw L. split; [reflexivity|]. eexists _, w.
        split; [right; right; right; left; exists w1, w2, w3;
                split; [exact Hw1 | split; [exact Hw2 |
                split; [exact Hw3 | reflexivity]]]|].
        split; [exact Hw|].
        rewrite L, L4, L3, L2. cbn [emit log]. rewrite L1, <- !app_assoc.
        reflexivity. }
    intros w4 s5 Hw4 L5.
    apply runs_bind, runs_write. apply runs_bind, runs_write.
    apply runs_wait_log; [exact Hlive | |].
    2:{ intros w s' Hw L. split; [reflexivity|]. eexists _, w.
        split; [right; right; right; right; exists w1, w2, w3, w4;
                split; [exact Hw1 | split; [exact Hw2 |
                split; [exact Hw3 | split; [exact Hw4 | reflexivity]]]]|].
        split; [exact Hw|].
        rewrite L. cbn [emit log]. rewrite L5, L4, L3, L2. cbn [emit log].
        rewrite L1, <- !app_assoc. reflexivity. }
    intros w5 s6 Hw5 L6.
    exists w1, w2, w3, w4, w5. repeat (split; [assumption|]).
    rewrite L6. cbn [emit log]. rewrite L5, L4, L3, L2. cbn [emit log].
    rewrite L1. unfold burn_trace. rewrite <- !app_assoc. reflexivity. }
  destruct R as [r [s' [H Hr]]].
  exists r, s'. split; [exact H|]. split; [exact Hr|].
  intros Hans.
  destruct (efuse_program_returns budget block s Hans) as [r2 [s2 [H2 E]]].
  rewrite H in H2. injection H2 as <- _. exact E.
Qed.

(** C4.  [set_efuse_timing] asks for the crystal frequency and touches
    no register before it has checked it: any frequency other than 40
    raises the fatal error with the log holding the query alone; with
    40 the constant 0x190 goes to the power-off-count field of the
    timing register and the call returns. *)
Theorem set_efuse_timing_checks_frequency (s : IO) :
  let apb_freq := xtal dev (calls s) in
  set_efuse_timing REGS dev s
  = (if apb_freq =? 40
     then Some (Ok tt,
                {| calls := S (calls s);
                   log := log s ++ [EvGetCrystalFreq apb_freq;
                                     EvUpdate (EFUSE_WR_TIM_CONF2_REG REGS)
                                              (EFUSE_PWR_OFF_NUM_M REGS) 0x190] |})
     else Some (Raise (FatalError (xtal_message apb_freq)),
                {| calls := S (calls s);
                   log := log s ++ [EvGetCrystalFreq apb_freq] |}))
  /\ register_writes (log s ++ [EvGetCrystalFreq apb_freq])
     = register_writes (log s).
Proof.
  intros apb_freq.
  assert (E : set_efuse_timing REGS dev s
    = (if apb_freq =? 40
     then Some (Ok tt,
                {| calls := S (calls s);
                   log := log s ++ [EvGetCrystalFreq apb_freq;
                                     EvUpdate (EFUSE_WR_TIM_CONF2_REG REGS)
                                              (EFUSE_PWR_OFF_NUM_M REGS) 0x190] |})
     else Some (Raise (FatalError (xtal_message apb_freq)),
                {| calls := S (calls s);
                   log := log s ++ [EvGetCrystalFreq apb_freq] |}))).
  { unfold set_efuse_timing, bind, get_crystal_freq, answered. cbn [calls log].
    fold apb_freq. destruct (apb_freq =? 40); cbn [negb].
    - unfold update_reg, emit. cbn [calls log].
      rewrite <- app_assoc. reflexivity.
    - reflexivity. }
  split; [exact E|].
  unfold register_writes. rewrite filter_app. simpl. apply app_nil_r.
Qed.

End ControllerProperties.

(** ** The error accounting pass *)

Section AccountingProperties.

Variable REGS : EfuseDefineRegisters.
Variable dev : Device.

Local Open Scope io_scope.

Abbreviation REPEAT_ERR := (EFUSE_RD_REPEAT_ERR_REG REGS).

Lemma report_eq silent st b s :
  report silent st b s
  = Some (Ok ({| old_addr_reg := old_addr_reg st;
                 reg_value := reg_value st;
                 ret_fail := ret_fail st || fail b |}, b),
          if negb silent && (fail b || negb (num_errors b =? 0))
          then emit (EvPrint (PBlockErrors (id b) (num_errors b) (fail b))) s
          else s).
Proof.
  unfold report, bind.
  destruct (negb silent && (fail b || negb (num_errors b =? 0))); reflexivity.
Qed.

(** A block whose entry declares no error fields is skipped. *)
Lemma account_block_untracked silent st b s e :
  id b <> 0 -> py_index (BLOCK_ERRORS REGS) (id b) = Ok e ->
  is_tracked e = false ->
  account_block REGS dev silent st b s = Some (Ok (st, b), s).
Proof.
  intros Hid He Ht. unfold account_block.
  destruct (Z.eqb_spec (id b) 0) as [|_]; [contradiction|].
  unfold account_blockN, bind, lift. rewrite He.
  destruct e as [[[addr [m|]] [o|]] [f|]]; try discriminate; reflexivity.
Qed.

(** A block with a declared entry: the register is read when its
    address differs from the last one read, and the fields are taken
    from the value held. *)
Lemma account_block_tracked silent st b s addr mask offs fb :
  id b <> 0 ->
  py_index (BLOCK_ERRORS REGS) (id b) = Ok (addr, Some mask, Some offs, Some fb) ->
  0 <= offs -> 0 <= fb ->
  account_block REGS dev silent st b s
  = if addr =? old_addr_reg st
    then report silent st
           (accounted (reg_value st) (addr, Some mask, Some offs, Some fb) b) s
    else report silent
           {| old_addr_reg := addr; reg_value := reg dev (calls s) addr;
              ret_fail := ret_fail st |}
           (accounted (reg dev (calls s) addr)
                      (addr, Some mask, Some offs, Some fb) b)
           (answered (Some (EvRead addr (reg dev (calls s) addr))) s).
Proof.
  intros Hid He Ho Hf. unfold account_block.
  destruct (Z.eqb_spec (id b) 0) as [|_]; [contradiction|].
  unfold account_blockN. unfold bind at 1, lift at 1. rewrite He.
  cbv iota beta.
  unfold py_lshift, py_rshift.
  destruct (Z.ltb_spec fb 0) as [|_]; [lia|].
  destruct (Z.ltb_spec offs 0) as [|_]; [lia|].
  destruct (addr =? old_addr_reg st); cbn [negb].
  - unfold bind, ret, lift. reflexivity.
  - unfold bind, ret, lift, read_reg. cbn [reg_value]. reflexivity.
Qed.

Lemma account_blocks_cons silent st b rest s :
  account_blocks REGS dev silent st (b :: rest) s
  = match account_block REGS dev silent st b s with
    | Some (Ok (st1, b1), s1) =>
        match account_blocks REGS dev silent st1 rest s1 with
        | Some (Ok (st2, rest1), s2) => Some (Ok (st2, b1 :: rest1), s2)
        | Some (Raise e, s2) => Some (Raise e, s2)
        | None => None
        end
    | Some (Raise e, s1) => Some (Raise e, s1)
    | None => None
    end.
Proof.
  cbn [account_blocks]. unfold bind.
  destruct (account_block REGS dev silent st b s) as [[[[st1 b1]|e] s1]|];
    try reflexivity.
  destruct (account_blocks REGS dev silent st1 rest s1)
    as [[[[st2 rest1]|e] s2]|]; reflexivity.
Qed.

(** The loop over [l1 ++ l2] is the loop over [l1] followed by the
    loop over [l2] from the state the first one leaves. *)
Lemma account_blocks_app silent l1 :
  forall st s l2,
    account_blocks REGS dev silent st (l1 ++ l2) s
    = match account_blocks REGS dev silent st l1 s with
      | Some (Ok (st1, l1'), s1) =>
          match account_blocks REGS dev silent st1 l2 s1 with
          | Some (Ok (st2, l2'), s2) => Some (Ok (st2, l1' ++ l2'), s2)
          | Some (Raise e, s2) => Some (Raise e, s2)
          | None => None
          end
      | Some (Raise e, s1) => Some (Raise e, s1)
      | None => None
      end.
Proof.
  induction l1 as [|b l1 IH]; intros st s l2.
  - cbn [app]. cbn [account_blocks]. unfold ret.
    destruct (account_blocks REGS dev silent st l2 s)
      as [[[[st2 l2']|e] s2]|]; reflexivity.
  - cbn [app]. rewrite !account_blocks_cons.
    destruct (account_block REGS dev silent st b s) as [[[[st1 b1]|e] s1]|];
      try reflexivity.
    rewrite IH.
    destruct (account_blocks REGS dev silent st1 l1 s1)
      as [[[[st2 l1']|e] s2]|]; try reflexivity.
    destruct (account_blocks REGS dev silent st2 l2 s2)
      as [[[[st3 l2']|e] s3]|]; reflexivity.
Qed.

Lemma register_reads_app l1 l2 :
  register_reads (l1 ++ l2) = register_reads l1 ++ register_reads l2.
Proof. apply filter_app. Qed.

Lemma block_tracked_eq b e :
  py_index (BLOCK_ERRORS REGS) (id b) = Ok e ->
  block_tracked REGS b = is_tracked e.
Proof. unfold block_tracked. intros ->. reflexivity. Qed.

(** Once the register [A] has been read, the blocks of a run use the
    value held and read nothing. *)
Lemma run_after_read silent A value run :
  forall st s,
    old_addr_reg st = A -> reg_value st = value ->
    Forall (in_run REGS A) run ->
    exists st' run' new,
      account_blocks REGS dev silent st run s
      = Some (Ok (st', run'), {| calls := calls s; log := log s ++ new |}) /\
      register_reads new = [] /\
      Forall2 (fun b b' =>
                 exists e, py_index (BLOCK_ERRORS REGS) (id b) = Ok e /\
                           b' = accounted value e b) run run'.
Proof.
  induction run as [|b run IH]; intros st s Hold Hval Hrun.
  - exists st, [], []. cbn [account_blocks]. unfold ret.
    rewrite app_nil_r. destruct s. repeat split; constructor.
  - inversion Hrun as [|? ? [Hid [e [He [Hok Haddr]]]] Hrest]; subst.
    rewrite account_blocks_cons.
    destruct (is_tracked e) eqn:Ht.
    + destruct e as [[[addr [m|]] [o|]] [f|]]; try discriminate.
      destruct Hok as [Ho Hf]. cbn [layout_addr] in Haddr.
      specialize (Haddr eq_refl). subst addr.
      rewrite (account_block_tracked silent st b s _ m o f Hid He Ho Hf).
      rewrite Z.eqb_refl, report_eq.
      match goal with
      | |- context [accounted ?v ?e b] => set (b1 := accounted v e b)
      end.
      match goal with
      | |- context [account_blocks REGS dev silent ?x run ?z] =>
          set (st1 := x); set (s1 := z)
      end.
      destruct (IH st1 s1 eq_refl eq_refl Hrest)
        as [st' [run' [new [Hrun' [Hreads HF]]]]].
      rewrite Hrun'.
      assert (Hs1 : exists p, calls s1 = calls s /\ log s1 = log s ++ p /\
                              register_reads p = []).
      { unfold s1. destruct (negb silent && _).
        - eexists. repeat split; reflexivity.
        - exists []. rewrite app_nil_r. auto. }
      destruct Hs1 as [p [Hc [Hl Hp]]].
      exists st', (b1 :: run'), (p ++ new). rewrite Hc, Hl, <- app_assoc.
      split; [reflexivity|]. split.
      * rewrite register_reads_app, Hp, Hreads. reflexivity.
      * constructor; [|exact HF]. eexists. split; [exact He | reflexivity].
    + rewrite (account_block_untracked silent st b s e Hid He Ht).
      destruct (IH st s eq_refl eq_refl Hrest)
        as [st' [run' [new [Hrun' [Hreads HF]]]]].
      rewrite Hrun'. exists st', (b :: run'), new.
      split; [reflexivity|]. split; [exact Hreads|].
      constructor; [|exact HF]. exists e. split; [exact He|].
      destruct e as [[[addr [m|]] [o|]] [f|]]; try discriminate; reflexivity.
Qed.

(** A run met while another register (or none) is held: the first
    block with a declared entry reads [A], once, and all of them use
    that value. *)
Lemma run_before_read silent A run :
  forall st s,
    old_addr_reg st <> A ->
    Forall (in_run REGS A) run ->
    exists st' run' s' new,
      account_blocks REGS dev silent st run s = Some (Ok (st', run'), s') /\
      log s' = log s ++ new /\
      register_reads new
      = (if existsb (block_tracked REGS) run
         then [EvRead A (reg dev (calls s) A)] else []) /\
      Forall2 (fun b b' =>
                 exists e, py_index (BLOCK_ERRORS REGS) (id b) = Ok e /\
                           b' = accounted (reg dev (calls s) A) e b) run run'.
Proof.
  induction run as [|b run IH]; intros st s Hold Hrun.
  - exists st, [], s, []. cbn [account_blocks]. unfold ret.
    rewrite app_nil_r. repeat split; constructor.
  - inversion Hrun as [|? ? [Hid [e [He [Hok Haddr]]]] Hrest]; subst.
    rewrite account_blocks_cons. cbn [existsb].
    rewrite (block_tracked_eq b e He).
    destruct (is_tracked e) eqn:Ht.
    + destruct e as [[[addr [m|]] [o|]] [f|]]; try discriminate.
      destruct Hok as [Ho Hf]. cbn [layout_addr] in Haddr.
      specialize (Haddr eq_refl). subst addr.
      rewrite (account_block_tracked silent st b s _ m o f Hid He Ho Hf).
      destruct (Z.eqb_spec A (old_addr_reg st)) as [Heq|_];
        [symmetry in Heq; contradiction|].
      rewrite report_eq.
      set (value := reg dev (calls s) A).
      match goal with
      | |- context [accounted ?v ?e b] => set (b1 := accounted v e b)
      end.
      match goal with
      | |- context [account_blocks REGS dev silent ?x run ?z] =>
          set (st1 := x); set (s1 := z)
      end.
      destruct (run_after_read silent A value run st1 s1 eq_refl eq_refl Hrest)
        as [st' [run' [new [Hrun' [Hreads HF]]]]].
      rewrite Hrun'.
      assert (Hs1 : exists p, log s1 = (log s ++ [EvRead A value]) ++ p /\
                              register_reads p = []).
      { unfold s1. destruct (negb silent && _).
        - eexists. split; reflexivity.
        - exists []. rewrite app_nil_r. auto. }
      destruct Hs1 as [p [Hl Hp]].
      eexists st', (b1 :: run'), _, ([EvRead A value] ++ p ++ new).
      split; [reflexivity|]. cbn [log orb]. split; [|split].
      * rewrite Hl, <- !app_assoc. reflexivity.
      * rewrite !register_reads_app, Hp, Hreads. reflexivity.
      * constructor; [|exact HF]. eexists. split; [exact He | reflexivity].
    + rewrite (account_block_untracked silent st b s e Hid He Ht).
      destruct (IH st s Hold Hrest)
        as [st' [run' [s' [new [Hrun' [Hl [Hreads HF]]]]]]].
      rewrite Hrun'. exists st', (b :: run'), s', new.
      split; [reflexivity|]. split; [exact Hl|]. split; [exact Hreads|].
      constructor; [|exact HF]. exists e. split; [exact He|].
      destruct e as [[[addr [m|]] [o|]] [f|]]; try discriminate; reflexivity.
Qed.

(** C6.  Take a run of consecutive blocks other than block 0 whose
    entries, where they declare error fields, all name the status
    register [A], met by the loop while [A] is not the register last
    read.  The loop gets through the run; a block without declared
    fields comes out as it went in; every other block gets its [fail]
    from the fail bit and its [num_errors] from the shifted and masked
    bits of one and the same value, which is read from [A] exactly
    once for the whole run; and the pass over the whole list goes on
    from there. *)
Theorem shared_status_register
    (silent : bool) (pre run post : list EfuseBlock) (A : Z)
    (st0 st1 : Pass) (s0 s1 : IO) (pre' : list EfuseBlock) :
  account_blocks REGS dev silent st0 pre s0 = Some (Ok (st1, pre'), s1) ->
  old_addr_reg st1 <> A ->
  Forall (in_run REGS A) run ->
  let value := reg dev (calls s1) A in
  exists st2 run' s2 new,
    account_blocks REGS dev silent st1 run s1 = Some (Ok (st2, run'), s2) /\
    log s2 = log s1 ++ new /\
    register_reads new
    = (if existsb (block_tracked REGS) run then [EvRead A value] else []) /\
    Forall2 (fun b b' =>
               exists e, py_index (BLOCK_ERRORS REGS) (id b) = Ok e /\
                         b' = accounted value e b) run run' /\
    account_blocks REGS dev silent st0 (pre ++ run ++ post) s0
    = match account_blocks REGS dev silent st2 post s2 with
      | Some (Ok (st3, post'), s3) =>
          Some (Ok (st3, pre' ++ run' ++ post'), s3)
      | Some (Raise e, s3) => Some (Raise e, s3)
      | None => None
      end.
Proof.
  intros Hpre Hold Hrun value.
  destruct (run_before_read silent A run st1 s1 Hold Hrun)
    as [st2 [run' [s2 [new [Hr [Hl [Hreads HF]]]]]]].
  exists st2, run', s2, new.
  repeat (split; [assumption|]).
  rewrite account_blocks_app, Hpre, account_blocks_app, Hr.
  destruct (account_blocks REGS dev silent st2 post s2)
    as [[[[st3 post']|e] s3]|]; reflexivity.
Qed.

(** *** Block 0 *)

Lemma extends_refl s : extends s s.
Proof. exists []. rewrite app_nil_r. reflexivity. Qed.

Lemma extends_trans s1 s2 s3 : extends s1 s2 -> extends s2 s3 -> extends s1 s3.
Proof.
  intros [n1 H1] [n2 H2]. exists (n1 ++ n2).
  rewrite H2, H1, app_assoc. reflexivity.
Qed.

Lemma adds_ret {A} (a : A) : adds_to_log (ret a).
Proof. intros s r s' H. inversion H; subst. apply extends_refl. Qed.

Lemma adds_lift {A} (x : result A) : adds_to_log (lift x).
Proof. intros s r s' H. inversion H; subst. apply extends_refl. Qed.

Lemma adds_read addr : adds_to_log (read_reg dev addr).
Proof. intros s r s' H. inversion H; subst. eexists. reflexivity. Qed.

Lemma adds_print p : adds_to_log (print p).
Proof. intros s r s' H. inversion H; subst. eexists. reflexivity. Qed.

Lemma adds_bind {A B} (m : M A) (k : A -> M B) :
  adds_to_log m -> (forall a, adds_to_log (k a)) -> adds_to_log (bind m k).
Proof.
  intros Hm Hk s r s' H. apply bind_inv in H.
  destruct H as [[a [s1 [H1 H2]]]|[e [H1 _]]].
  - eapply extends_trans; [eapply Hm; eauto | eapply Hk; eauto].
  - eapply Hm; eauto.
Qed.

Lemma adds_report silent st b : adds_to_log (report silent st b).
Proof.
  unfold report. apply adds_bind.
  - destruct (negb silent && _); [apply adds_print | apply adds_ret].
  - intros _. apply adds_ret.
Qed.

Lemma adds_account_block silent st b :
  adds_to_log (account_block REGS dev silent st b).
Proof.
  unfold account_block. destruct (id b =? 0).
  - unfold account_block0.
    apply adds_bind; [apply adds_read | intros word].
    apply adds_bind; [apply adds_lift | intros data].
    apply adds_bind; [apply adds_lift | intros err].
    apply adds_report.
  - unfold account_blockN.
    apply adds_bind; [apply adds_lift | intros [[[addr m] o] f]].
    destruct m as [m|]; [|apply adds_ret].
    destruct o as [o|]; [|apply adds_ret].
    destruct f as [f|]; [|apply adds_ret].
    apply adds_bind.
    + destruct (negb (addr =? old_addr_reg st)); [|apply adds_ret].
      apply adds_bind; [apply adds_read | intros v; apply adds_ret].
    + intros st1.
      apply adds_bind; [apply adds_lift | intros bit].
      apply adds_bind; [apply adds_lift | intros shifted].
      apply adds_report.
Qed.

Lemma word_bits_length word : length (word_bits word) = 32%nat.
Proof. unfold word_bits. rewrite length_map, length_rev, length_seq. reflexivity. Qed.

Lemma uint_bits_32 word :
  uint_bits 32 word
  = if (0 <=? word) && (word <? 2 ^ 32) then Ok (word_bits word)
    else Raise CreationError.
Proof. reflexivity. Qed.

Lemma overwrite_word self word :
  overwrite self (word_bits word) 32
  = if (length self <? 64)%nat
    then Raise (ValueError "Overwrite exceeds boundary of bitstring.")
    else Ok (firstn 32 self ++ word_bits word ++ skipn 64 self).
Proof.
  unfold overwrite. rewrite word_bits_length.
  destruct (word_bits word) eqn:E; [|reflexivity].
  pose proof (word_bits_length word) as H. rewrite E in H. discriminate.
Qed.

Lemma firstn_overwritten (self bits : BitArray) :
  (64 <= length self)%nat ->
  firstn 32 (firstn 32 self ++ bits ++ skipn 64 self) = firstn 32 self.
Proof.
  intros Hlen. rewrite firstn_app, firstn_firstn, length_firstn.
  replace (Nat.min 32 32) with 32%nat by reflexivity.
  replace (32 - Nat.min 32 (length self))%nat with 0%nat by lia.
  rewrite firstn_O, app_nil_r. reflexivity.
Qed.

Lemma count_true_set_bits (l : BitArray) : count_true l = set_bits l.
Proof.
  unfold count_true. induction l as [|x l IH]; [reflexivity|].
  cbn [filter set_bits]. destruct x; cbn [length Z.b2z].
  - rewrite Nat2Z.inj_succ, IH. lia.
  - rewrite IH. lia.
Qed.

Lemma set_bits_app (l1 l2 : BitArray) :
  set_bits (l1 ++ l2) = set_bits l1 + set_bits l2.
Proof.
  induction l1 as [|x l1 IH]; [reflexivity|].
  cbn [app set_bits]. rewrite IH. lia.
Qed.

Lemma set_bits_map_rev (f : nat -> bool) (l : list nat) :
  set_bits (map f (rev l))
  = fold_right (fun i acc => Z.b2z (f i) + acc) 0 l.
Proof.
  induction l as [|i l IH]; [reflexivity|].
  cbn [rev fold_right]. rewrite map_app, set_bits_app, IH.
  cbn [map set_bits]. lia.
Qed.

Lemma set_bits_word_bits (word : Z) :
  set_bits (word_bits word) = popcount32 word.
Proof.
  unfold word_bits, popcount32.
  exact (set_bits_map_rev (fun i => Z.testbit word (Z.of_nat i)) (seq 0 32)).
Qed.

Lemma set_bits_nonneg (l : BitArray) : 0 <= set_bits l.
Proof.
  induction l as [|x l IH]; cbn [set_bits]; [lia|].
  destruct x; cbn [Z.b2z]; lia.
Qed.

Lemma set_bits_zero (l : BitArray) :
  set_bits l = 0 <-> Forall (fun bit => bit = false) l.
Proof.
  induction l as [|x l IH]; cbn [set_bits].
  - split; [constructor | reflexivity].
  - pose proof (set_bits_nonneg l) as Hn. split.
    + intros H. destruct x; cbn [Z.b2z] in H; [lia|].
      constructor; [reflexivity | apply IH; lia].
    + intros H. inversion H; subst. cbn [Z.b2z].
      apply IH in H3. lia.
Qed.

Lemma set_bits_overwritten (self : BitArray) (word : Z) :
  count_true (firstn 32 self ++ word_bits word ++ skipn 64 self)
  = set_bits (firstn 32 self) + popcount32 word + set_bits (skipn 64 self).
Proof.
  rewrite count_true_set_bits, !set_bits_app, set_bits_word_bits. lia.
Qed.

(** What one turn of the loop does to block 0. *)
Lemma account_block0_inv silent st b s st1 b1 s1 :
  id b = 0 ->
  account_block REGS dev silent st b s = Some (Ok (st1, b1), s1) ->
  exists new,
    log s1 = log s ++ new /\
    In (EvRead REPEAT_ERR (reg dev (calls s) REPEAT_ERR)) new /\
    block0_accounted (reg dev (calls s) REPEAT_ERR) b b1.
Proof.
  intros Hid H. unfold account_block in H. rewrite Hid in H.
  cbn [Z.eqb] in H. unfold account_block0 in H.
  replace (REPEAT_ERR + 0 * 4) with REPEAT_ERR in H by lia.
  unfold bind at 1, read_reg at 1 in H.
  set (word := reg dev (calls s) REPEAT_ERR) in *.
  unfold bind at 1, lift at 1 in H. rewrite uint_bits_32 in H.
  destruct ((0 <=? word) && (word <? 2 ^ 32)) eqn:Hrange; [|discriminate].
  unfold bind at 1, lift at 1 in H. rewrite overwrite_word in H.
  destruct (Nat.ltb_spec (length (err_bitarray b)) 64) as [|Hlen];
    [discriminate|].
  rewrite report_eq in H. inversion H; subst; clear H.
  match goal with
  | |- context [if ?c then emit ?e ?x else ?x] =>
      set (cond := c); set (ev := e)
  end.
  exists (EvRead REPEAT_ERR word :: (if cond then [ev] else [])).
  split; [|split].
  - destruct cond; cbn [emit answered log]; [|reflexivity].
    rewrite <- app_assoc. reflexivity.
  - left. reflexivity.
  - unfold block0_accounted.
    apply andb_true_iff in Hrange. destruct Hrange as [H0 H1].
    split; [lia|]. split; [exact Hlen|].
    cbn [set_fail set_errors set_num_errors set_err_bitarray
         err_bitarray num_errors fail id].
    split; [reflexivity|]. split.
    + exact (firstn_overwritten (err_bitarray b) (word_bits word) Hlen).
    + split;
        [exact (count_true_set_bits
                  (firstn 32 (err_bitarray b) ++ word_bits word
                   ++ skipn 64 (err_bitarray b)))|].
      split; [exact (set_bits_overwritten (err_bitarray b) word)|].
      split; reflexivity.
Qed.

(** The loop leaves every block 0 accounted. *)
Lemma account_blocks_block0 silent blocks :
  forall st s st' blocks' s',
    account_blocks REGS dev silent st blocks s = Some (Ok (st', blocks'), s') ->
    exists new,
      log s' = log s ++ new /\
      Forall2 (fun b b' =>
                 id b = 0 ->
                 exists word, In (EvRead REPEAT_ERR word) new /\
                              block0_accounted word b b') blocks blocks'.
Proof.
  induction blocks as [|b blocks IH]; intros st s st' blocks' s' H.
  - cbn [account_blocks] in H. inversion H; subst.
    exists []. rewrite app_nil_r. split; [reflexivity | constructor].
  - rewrite account_blocks_cons in H.
    destruct (account_block REGS dev silent st b s)
      as [[[[st1 b1]|e] s1]|] eqn:Hb; try discriminate.
    destruct (account_blocks REGS dev silent st1 blocks s1)
      as [[[[st2 rest1]|e] s2]|] eqn:Hrest; try discriminate.
    inversion H; subst; clear H.
    destruct (IH _ _ _ _ _ Hrest) as [new2 [Hl2 HF]].
    destruct (adds_account_block silent st b s _ _ Hb) as [new1 Hl1].
    exists (new1 ++ new2). split.
    + rewrite Hl2, Hl1, app_assoc. reflexivity.
    + constructor.
      * intros Hid.
        destruct (account_block0_inv silent st b s st1 b1 s1 Hid Hb)
          as [new1' [Hl1' [Hin Hacc]]].
        assert (new1' = new1) by (rewrite Hl1 in Hl1';
                                  apply app_inv_head in Hl1'; auto).
        subst new1'. eexists. split; [|exact Hacc].
        apply in_or_app. left. exact Hin.
      * eapply Forall2_impl; [|exact HF].
        intros x y Hxy Hid. destruct (Hxy Hid) as [word [Hin Hacc]].
        exists word. split; [|exact Hacc]. apply in_or_app. right. exact Hin.
Qed.

Lemma adds_print_status_regs blocks : adds_to_log (print_status_regs REGS dev blocks).
Proof.
  unfold print_status_regs.
  apply adds_bind; [apply adds_print | intros _].
  apply adds_bind; [apply adds_lift | intros b0].
  apply adds_bind; [apply adds_print | intros _].
  apply adds_bind; [apply adds_read | intros v]. apply adds_print.
Qed.

(** C5.  After [get_coding_scheme_warnings] has returned, every block
    0 holds this: a word was read from the repeat-error register
    during the pass; its 32 bits, most significant first, now stand at
    bit offset 32 of the block's error bit buffer, whose first 32 bits
    (the place of the write-disable word) are as before;
    [num_errors] is the number of set bits of that buffer, that is the
    set bits it had outside bits 32..63 plus the ones of the word, and
    is 0 exactly when no bit of the buffer is set; and [fail] says
    whether [num_errors] is nonzero. *)
Theorem block0_error_accounting
    (self : EspEfuses) (blocks : list EfuseBlock) (silent : bool)
    (s : IO) (failed : bool) (blocks' : list EfuseBlock) (s' : IO) :
  get_coding_scheme_warnings REGS dev self blocks silent s
  = Some (Ok (failed, blocks'), s') ->
  exists new,
    log s' = log s ++ new /\
    Forall2 (fun b b' =>
               id b = 0 ->
               exists word,
                 In (EvRead REPEAT_ERR word) new /\
                 block0_accounted word b b' /\
                 (num_errors b' = 0 <->
                  Forall (fun bit => bit = false) (err_bitarray b')) /\
                 (fail b' = true <-> num_errors b' <> 0))
            blocks blocks'.
Proof.
  intros H. unfold get_coding_scheme_warnings in H.
  apply bind_inv in H. destruct H as [[[st bl] [s1 [Hloop H]]]|[e [_ He]]];
    [|discriminate].
  apply bind_inv in H. destruct H as [[[] [s2 [Hprint H]]]|[e [_ He]]];
    [|discriminate].
  inversion H; subst; clear H.
  destruct (account_blocks_block0 silent blocks _ _ _ _ _ Hloop)
    as [new1 [Hl1 HF]].
  assert (Hext : extends s1 s').
  { destruct ((debug self || ret_fail st) && negb silent).
    - eapply adds_print_status_regs; eauto.
    - inversion Hprint; subst. apply extends_refl. }
  destruct Hext as [new2 Hl2].
  exists (new1 ++ new2). split.
  - rewrite Hl2, Hl1, app_assoc. reflexivity.
  - eapply Forall2_impl; [|exact HF].
    intros b b' Hb Hid. destruct (Hb Hid) as [word [Hin Hacc]].
    exists word. split; [apply in_or_app; left; exact Hin|].
    split; [exact Hacc|].
    destruct Hacc as [_ [_ [_ [_ [Hnum [_ [Hfail _]]]]]]]. split.
    + rewrite Hnum. apply set_bits_zero.
    + rewrite Hfail.
      destruct (Z.eqb_spec (num_errors b') 0); cbn [negb]; split;
        intros; congruence.
Qed.

End AccountingProperties.

(** ** MAC fields *)



Lemma str_count_skip c a s :
  Ascii.eqb a c = false -> str_count c (String a s) = str_count c s.
Proof. intros H. cbn [str_count]. rewrite H. reflexivity. Qed.

Lemma str_count_hit c s : str_count c (String c s) = S (str_count c s).
Proof. cbn [str_count]. rewrite Ascii.eqb_refl. reflexivity. Qed.

Lemma str_remove_keep c a s :
  Ascii.eqb a c = false ->
  str_remove c (String a s) = String a (str_remove c s).
Proof. intros H. cbn [str_remove]. rewrite H. reflexivity. Qed.

Lemma str_remove_drop c s : str_remove c (String c s) = str_remove c s.
Proof. cbn [str_remove]. rewrite Ascii.eqb_refl. reflexivity. Qed.

Lemma hex_value_not_colon a :
  hex_value a <> None -> Ascii.eqb a ":"%char = false.
Proof.
  intros H. destruct (Ascii.eqb_spec a ":"%char) as [->|]; [|reflexivity].
  exfalso. apply H. reflexivity.
Qed.

Lemma hex_value_ascii a :
  hex_value a <> None -> (nat_of_ascii a <? 128)%nat = true.
Proof.
  unfold hex_value. intros H. apply Nat.ltb_lt.
  destruct ((48 <=? Z.of_nat (nat_of_ascii a))
            && (Z.of_nat (nat_of_ascii a) <=? 57)) eqn:E1;
    [apply andb_true_iff in E1; lia|].
  destruct ((65 <=? Z.of_nat (nat_of_ascii a))
            && (Z.of_nat (nat_of_ascii a) <=? 70)) eqn:E2;
    [apply andb_true_iff in E2; lia|].
  destruct ((97 <=? Z.of_nat (nat_of_ascii a))
            && (Z.of_nat (nat_of_ascii a) <=? 102)) eqn:E3;
    [apply andb_true_iff in E3; lia|].
  contradiction.
Qed.





(** ** Sample runs *)

Lemma wait_efuse_idle_outcomes_witness :
  exists m,
    (m <= 12)%nat /\
    (forall j, (j < m)%nat ->
       clock sample_dev (1 + 2 * j) < 250 /\
       ~ is_idle (reg sample_dev (1 + 2 * j + 1)
                      (EFUSE_STATUS_REG sample_regs))) /\
    ((clock sample_dev (1 + 2 * m) < 250 /\
      is_idle (reg sample_dev (1 + 2 * m + 1) (EFUSE_STATUS_REG sample_regs)) /\
      wait_efuse_idle sample_regs sample_dev 13 start
      = Some (Ok tt, {| calls := 1 + 2 * m + 2;
                        log := [] ++ map (status_read sample_regs sample_dev 1)
                                         (seq 0 (S m)) |}))
     \/
     (250 <= clock sample_dev (1 + 2 * m) /\
      wait_efuse_idle sample_regs sample_dev 13 start
      = Some (Raise (FatalError timeout_message),
              {| calls := 1 + 2 * m + 1;
                 log := [] ++ map (status_read sample_regs sample_dev 1)
                                  (seq 0 m) |}))).
Proof.
  apply (wait_efuse_idle_outcomes sample_regs sample_dev 13 start 12).
  - lia.
  - vm_compute. intros H. discriminate H.
Defined.

Lemma efuse_program_steps_witness :
  exists s' w1 w2 w3 w4 w5,
    efuse_program sample_regs sample_dev 13 3 start = Some (Ok tt, s') /\
    idle_wait (EFUSE_STATUS_REG sample_regs) w1 /\
    idle_wait (EFUSE_STATUS_REG sample_regs) w2 /\
    idle_wait (EFUSE_STATUS_REG sample_regs) w3 /\
    idle_wait (EFUSE_STATUS_REG sample_regs) w4 /\
    idle_wait (EFUSE_STATUS_REG sample_regs) w5 /\
    log s' = log start ++ burn_trace sample_regs 3 w1 w2 w3 w4 w5.
Proof.
  assert (Hlive : clock_live sample_dev (EFUSE_BURN_TIMEOUT sample_regs) 13).
  { intros c. exists 12%nat. split; [lia|].
    change (EFUSE_BURN_TIMEOUT sample_regs) with 250.
    unfold sample_dev. cbn [clock]. lia. }
  assert (Hans : answers_in_time sample_dev (EFUSE_STATUS_REG sample_regs)
                   (EFUSE_BURN_TIMEOUT sample_regs) 13).
  { intros c. exists 1%nat. split; [lia|].
    change (EFUSE_BURN_TIMEOUT sample_regs) with 250.
    unfold sample_dev. cbn [clock reg]. rewrite Z.eqb_refl. split.
    - intros j Hj. lia.
    - destruct (Nat.ltb_spec (S c + 2 * 1 + 1) 4) as [Hlt|_]; [lia|].
      reflexivity. }
  destruct (efuse_program_steps sample_regs sample_dev 13 3 start Hlive)
    as [r [s' [H [Hr Hok]]]].
  specialize (Hok Hans). subst r.
  destruct Hr as [w1 [w2 [w3 [w4 [w5 Hr]]]]].
  exists s', w1, w2, w3, w4, w5. split; [exact H | exact Hr].
Defined.

Lemma block0_error_accounting_witness :
  (exists new,
     log sample_pass_end = log start ++ new /\
     Forall2 (fun b b' =>
                id b = 0 ->
                exists word,
                  In (EvRead (EFUSE_RD_REPEAT_ERR_REG sample_regs) word) new /\
                  block0_accounted word b b' /\
                  (num_errors b' = 0 <->
                   Forall (fun bit => bit = false) (err_bitarray b')) /\
                  (fail b' = true <-> num_errors b' <> 0))
             sample_blocks sample_pass_blocks) /\
  reg sample_dev 0 (EFUSE_RD_REPEAT_ERR_REG sample_regs) = 5 /\
  popcount32 5 = 2 /\
  map (fun b' => (id b', num_errors b', fail b')) (firstn 1 sample_pass_blocks)
  = [(0, 2, true)].
Proof.
  split.
  - apply (block0_error_accounting sample_regs sample_dev sample_session
             sample_blocks false start true sample_pass_blocks
             sample_pass_end).
    vm_compute. reflexivity.
  - split; [reflexivity|]. split; [reflexivity|]. vm_compute. reflexivity.
Defined.

Lemma shared_status_register_witness :
  let A := EFUSE_RD_RS_ERR_REG sample_regs in
  let value := reg sample_dev (calls sample_io_at_run) A in
  exists st2 run' s2 new,
    account_blocks sample_regs sample_dev false sample_pass_at_run
                   sample_run sample_io_at_run
    = Some (Ok (st2, run'), s2) /\
    log s2 = log sample_io_at_run ++ new /\
    register_reads new
    = (if existsb (block_tracked sample_regs) sample_run
       then [EvRead A value] else []) /\
    Forall2 (fun b b' =>
               exists e, py_index (BLOCK_ERRORS sample_regs) (id b) = Ok e /\
                         b' = accounted value e b) sample_run run' /\
    account_blocks sample_regs sample_dev false pass_start
                   (sample_pre ++ sample_run ++ []) start
    = match account_blocks sample_regs sample_dev false st2 [] s2 with
      | Some (Ok (st3, post'), s3) =>
          Some (Ok (st3, sample_pre_done ++ run' ++ post'), s3)
      | Some (Raise e, s3) => Some (Raise e, s3)
      | None => None
      end.
Proof.
  apply (shared_status_register sample_regs sample_dev false
           sample_pre sample_run [] (EFUSE_RD_RS_ERR_REG sample_regs)
           pass_start sample_pass_at_run start sample_io_at_run
           sample_pre_done).
  - vm_compute. reflexivity.
  - vm_compute. intros H. discriminate H.
  - unfold sample_run, in_run.
    repeat (constructor;
            [ split;
              [ vm_compute; intros H; discriminate H
              | eexists; split;
                [ vm_compute; reflexivity
                | split; [ simpl; lia | intros _; reflexivity ] ] ]
            | ]).
    constructor.
Defined.

(* ===================================================================== *)
(** * Further properties *)
(* ===================================================================== *)

(** ** More on the error accounting pass *)

Section MoreSessionProperties.

Variable REGS : EfuseDefineRegisters.
Variable dev : Device.

Local Open Scope io_scope.

Lemma emits_ret {A} P (a : A) : emits_only P (ret a).
Proof.
  intros s r s' H. inversion H; subst. exists [].
  rewrite app_nil_r. split; [reflexivity | constructor].
Qed.

Lemma emits_lift {A} P (x : result A) : emits_only P (lift x).
Proof.
  intros s r s' H. inversion H; subst. exists [].
  rewrite app_nil_r. split; [reflexivity | constructor].
Qed.

Lemma emits_read (P : Event -> Prop) addr :
  (forall v, P (EvRead addr v)) -> emits_only P (read_reg dev addr).
Proof.
  intros HP s r s' H. inversion H; subst. eexists. split; [reflexivity|].
  constructor; [apply HP | constructor].
Qed.

Lemma emits_print (P : Event -> Prop) p :
  P (EvPrint p) -> emits_only P (print p).
Proof.
  intros HP s r s' H. inversion H; subst. eexists. split; [reflexivity|].
  constructor; [exact HP | constructor].
Qed.

Lemma emits_write (P : Event -> Prop) addr value delay :
  P (EvWrite addr value delay) -> emits_only P (write_reg addr value delay).
Proof.
  intros HP s r s' H. inversion H; subst. eexists. split; [reflexivity|].
  constructor; [exact HP | constructor].
Qed.

Lemma emits_bind {A B} P (m : M A) (k : A -> M B) :
  emits_only P m -> (forall a, emits_only P (k a)) -> emits_only P (bind m k).
Proof.
  intros Hm Hk s r s' H. apply bind_inv in H.
  destruct H as [[a [s1 [H1 H2]]]|[e [H1 _]]].
  - destruct (Hm _ _ _ H1) as [n1 [L1 F1]].
    destruct (Hk a _ _ _ H2) as [n2 [L2 F2]].
    exists (n1 ++ n2). split.
    + rewrite L2, L1, app_assoc. reflexivity.
    + apply Forall_app. split; assumption.
  - eapply Hm; eauto.
Qed.

Lemma py_index_In {A} (l : list A) i x : py_index l i = Ok x -> In x l.
Proof.
  unfold py_index.
  destruct ((0 <=? _) && _); [|discriminate].
  destruct (nth_error l _) eqn:E; [|discriminate].
  intros H. inversion H; subst. eapply nth_error_In; eauto.
Qed.

Lemma emits_report silent st b :
  emits_only (pass_event REGS silent) (report silent st b).
Proof.
  unfold report. apply emits_bind; [|intros; apply emits_ret].
  destruct silent; cbn [negb andb]; [apply emits_ret|].
  destruct (fail b || negb (num_errors b =? 0));
    [apply emits_print; reflexivity | apply emits_ret].
Qed.

Lemma emits_account_block silent st b :
  emits_only (pass_event REGS silent) (account_block REGS dev silent st b).
Proof.
  unfold account_block. destruct (id b =? 0).
  - unfold account_block0.
    replace (EFUSE_RD_REPEAT_ERR_REG REGS + 0 * 4)
      with (EFUSE_RD_REPEAT_ERR_REG REGS) by lia.
    apply emits_bind; [apply emits_read; intros v; left; reflexivity|].
    intros word. apply emits_bind; [apply emits_lift | intros data].
    apply emits_bind; [apply emits_lift | intros err].
    apply emits_report.
  - intros s r s' H. unfold account_blockN in H.
    unfold bind at 1, lift at 1 in H.
    destruct (py_index (BLOCK_ERRORS REGS) (id b)) as [e|e] eqn:He.
    2:{ inversion H; subst. exists []. rewrite app_nil_r.
        split; [reflexivity | constructor]. }
    assert (Hin : In (layout_addr e) (map layout_addr (BLOCK_ERRORS REGS)))
      by (apply in_map; eapply py_index_In; eauto).
    destruct e as [[[addr [m|]] [o|]] [f|]];
      try (inversion H; subst; exists []; rewrite app_nil_r;
           split; [reflexivity | constructor]).
    cbn [layout_addr] in Hin. revert s r s' H.
    refine (emits_bind _ _ _ _ _).
    + destruct (negb (addr =? old_addr_reg st)); [|apply emits_ret].
      apply emits_bind; [|intros; apply emits_ret].
      apply emits_read. intros v. right. right. exact Hin.
    + intros st1.
      apply emits_bind; [apply emits_lift | intros bit].
      apply emits_bind; [apply emits_lift | intros shifted].
      apply emits_report.
Qed.

Lemma emits_account_blocks silent blocks :
  forall st,
    emits_only (pass_event REGS silent)
               (account_blocks REGS dev silent st blocks).
Proof.
  induction blocks as [|b blocks IH]; intros st.
  - apply emits_ret.
  - cbn [account_blocks].
    apply emits_bind; [apply emits_account_block | intros [st1 b1]].
    apply emits_bind; [apply IH | intros [st2 rest1]]. apply emits_ret.
Qed.

Lemma emits_print_status_regs blocks :
  emits_only (pass_event REGS false) (print_status_regs REGS dev blocks).
Proof.
  unfold print_status_regs.
  apply emits_bind; [apply emits_print; reflexivity | intros _].
  apply emits_bind; [apply emits_lift | intros b0].
  apply emits_bind; [apply emits_print; reflexivity | intros _].
  apply emits_bind; [|intros v; apply emits_print; reflexivity].
  apply emits_read. intros v. right. left. reflexivity.
Qed.

Lemma emits_pass
    (self : EspEfuses) (blocks : list EfuseBlock) (silent : bool)
    (s s' : IO) (r : result (bool * list EfuseBlock)) :
  get_coding_scheme_warnings REGS dev self blocks silent s = Some (r, s') ->
  exists new, log s' = log s ++ new /\ Forall (pass_event REGS silent) new.
Proof.
  revert s r s'.
  change (emits_only (pass_event REGS silent)
            (get_coding_scheme_warnings REGS dev self blocks silent)).
  unfold get_coding_scheme_warnings.
  apply emits_bind; [apply emits_account_blocks | intros [st bl]].
  apply emits_bind; [|intros; apply emits_ret].
  destruct silent.
  - rewrite andb_false_r. apply emits_ret.
  - destruct ((debug self || ret_fail st) && negb false);
      [apply emits_print_status_regs | apply emits_ret].
Qed.

(** X1.  Whether it returns or raises, the pass changes no register:
    all it adds to the log are reads of the repeat-error register, of
    the RS-error register or of a register named in [BLOCK_ERRORS],
    and prints; a silent pass adds no print. *)
Theorem pass_reads_error_registers_only
    (self : EspEfuses) (blocks : list EfuseBlock) (silent : bool)
    (s s' : IO) (r : result (bool * list EfuseBlock)) :
  get_coding_scheme_warnings REGS dev self blocks silent s = Some (r, s') ->
  exists new,
    log s' = log s ++ new /\
    Forall (pass_event REGS silent) new /\
    register_writes new = [].
Proof.
  intros H.
  assert (E : emits_only (pass_event REGS silent)
                (get_coding_scheme_warnings REGS dev self blocks silent)).
  { unfold get_coding_scheme_warnings.
    apply emits_bind; [apply emits_account_blocks | intros [st bl]].
    apply emits_bind; [|intros; apply emits_ret].
    destruct silent.
    - rewrite andb_false_r. apply emits_ret.
    - destruct ((debug self || ret_fail st) && negb false);
        [apply emits_print_status_regs | apply emits_ret]. }
  destruct (E _ _ _ H) as [new [L F]].
  exists new. split; [exact L|]. split; [exact F|].
  clear L. induction F as [|e new He F IH]; [reflexivity|].
  unfold register_writes in *. cbn [filter].
  destruct e; cbn [pass_event] in He; try contradiction; exact IH.
Qed.

Lemma length_overwritten (self : BitArray) word :
  (64 <= length self)%nat ->
  length (firstn 32 self ++ word_bits word ++ skipn 64 self) = length self.
Proof.
  intros H.
  rewrite !length_app, length_firstn, length_skipn, word_bits_length. lia.
Qed.

(** One turn of the loop on block 0, written out. *)
Lemma account_block0_eq silent st b s :
  id b = 0 ->
  account_block REGS dev silent st b s
  = let word := reg dev (calls s) (EFUSE_RD_REPEAT_ERR_REG REGS) in
    let s1 := answered (Some (EvRead (EFUSE_RD_REPEAT_ERR_REG REGS) word)) s in
    if (0 <=? word) && (word <? 2 ^ 32) then
      if (length (err_bitarray b) <? 64)%nat
      then Some (Raise (ValueError msg_overwrite), s1)
      else
        let err := firstn 32 (err_bitarray b) ++ word_bits word
                   ++ skipn 64 (err_bitarray b) in
        report silent st
          (set_errors (set_err_bitarray b err) (count_true err)
                      (negb (count_true err =? 0))) s1
    else Some (Raise CreationError, s1).
Proof.
  intros Hid. unfold account_block. rewrite Hid. cbn [Z.eqb].
  unfold account_block0.
  replace (EFUSE_RD_REPEAT_ERR_REG REGS + 0 * 4)
    with (EFUSE_RD_REPEAT_ERR_REG REGS) by lia.
  unfold bind at 1, read_reg at 1. cbv zeta.
  unfold bind at 1, lift at 1. rewrite uint_bits_32.
  destruct ((0 <=? _) && _); [|reflexivity].
  unfold bind at 1, lift at 1. rewrite overwrite_word.
  destruct (length (err_bitarray b) <? 64)%nat; reflexivity.
Qed.

(** One turn of the loop on another block, written out. *)
Lemma account_blockN_eq silent st b s :
  id b <> 0 ->
  account_block REGS dev silent st b s
  = match py_index (BLOCK_ERRORS REGS) (id b) with
    | Raise e => Some (Raise e, s)
    | Ok (addr, Some m, Some o, Some f) =>
        let st1 := if addr =? old_addr_reg st then st
                   else {| old_addr_reg := addr;
                           reg_value := reg dev (calls s) addr;
                           ret_fail := ret_fail st |} in
        let s1 := if addr =? old_addr_reg st then s
                  else answered (Some (EvRead addr (reg dev (calls s) addr))) s in
        if f <? 0 then Some (Raise (ValueError msg_shift), s1)
        else if o <? 0 then Some (Raise (ValueError msg_shift), s1)
        else report silent st1
               (accounted (reg_value st1) (addr, Some m, Some o, Some f) b) s1
    | Ok _ => Some (Ok (st, b), s)
    end.
Proof.
  intros Hid. unfold account_block.
  destruct (Z.eqb_spec (id b) 0) as [|_]; [contradiction|].
  unfold account_blockN. unfold bind at 1, lift at 1.
  destruct (py_index (BLOCK_ERRORS REGS) (id b)) as [e|e]; [|reflexivity].
  destruct e as [[[addr [m|]] [o|]] [f|]]; try reflexivity.
  cbv zeta. unfold py_lshift, py_rshift.
  destruct (addr =? old_addr_reg st); cbn [negb];
    unfold bind, ret, lift, read_reg;
    destruct (f <? 0); try reflexivity;
    destruct (o <? 0); reflexivity.
Qed.

Lemma accounts_block0 b : id b = 0 -> accounts REGS b = true.
Proof. intros H. unfold accounts. rewrite H. reflexivity. Qed.

Lemma accounts_blockN b :
  id b <> 0 -> accounts REGS b = block_tracked REGS b.
Proof.
  intros H. unfold accounts.
  destruct (Z.eqb_spec (id b) 0); [contradiction | reflexivity].
Qed.

Lemma accounts_same_id b b' : id b' = id b -> accounts REGS b' = accounts REGS b.
Proof. intros H. unfold accounts, block_tracked. rewrite H. reflexivity. Qed.

(** What a turn that goes through has done. *)
Lemma account_block_ok silent st b s st1 b1 s1 :
  account_block REGS dev silent st b s = Some (Ok (st1, b1), s1) ->
  ret_fail st1 = ret_fail st || (accounts REGS b && fail b1) /\
  same_block_data b b1 /\
  (accounts REGS b = false -> b1 = b).
Proof.
  intros H. destruct (Z.eq_dec (id b) 0) as [Hid|Hid].
  - rewrite (account_block0_eq silent st b s Hid) in H. cbv zeta in H.
    destruct ((0 <=? _) && _); [|discriminate].
    destruct (Nat.ltb_spec (length (err_bitarray b)) 64) as [|Hlen];
      [discriminate|].
    rewrite report_eq in H. inversion H; subst; clear H.
    rewrite (accounts_block0 b Hid).
    cbn [ret_fail fail set_errors set_err_bitarray andb].
    split; [reflexivity|]. split.
    + unfold same_block_data.
      cbn [id codingScheme wr_raw err_bitarray set_errors set_err_bitarray].
      repeat split; try reflexivity.
      * exact (length_overwritten (err_bitarray b) _ Hlen).
      * intros Hn. contradiction.
    + discriminate.
  - rewrite (account_blockN_eq silent st b s Hid) in H.
    rewrite (accounts_blockN b Hid). unfold block_tracked.
    destruct (py_index (BLOCK_ERRORS REGS) (id b)) as [e|e]; [|discriminate].
    assert (Hskip : Some (Ok (st, b), s) = Some (Ok (st1, b1), s1) ->
                    is_tracked e = false ->
                    ret_fail st1 = ret_fail st || (is_tracked e && fail b1) /\
                    same_block_data b b1 /\ (is_tracked e = false -> b1 = b)).
    { intros E Ht. inversion E; subst. rewrite Ht. cbn [andb].
      rewrite orb_false_r. split; [reflexivity|].
      split; [|reflexivity]. unfold same_block_data. auto. }
    destruct e as [[[addr [m|]] [o|]] [f|]];
      try (apply Hskip; [exact H | reflexivity]).
    clear Hskip. cbv zeta in H.
    destruct (f <? 0); [discriminate|]. destruct (o <? 0); [discriminate|].
    rewrite report_eq in H. inversion H; subst; clear H.
    cbn [is_tracked andb ret_fail].
    split; [destruct (addr =? old_addr_reg st); reflexivity|].
    split; [|discriminate].
    unfold same_block_data, accounted.
    cbn [id codingScheme wr_raw err_bitarray set_errors]. auto.
Qed.

Lemma account_blocks_ok silent blocks :
  forall st s st' blocks' s',
    account_blocks REGS dev silent st blocks s = Some (Ok (st', blocks'), s') ->
    ret_fail st'
    = ret_fail st || existsb (fun b' => accounts REGS b' && fail b') blocks' /\
    Forall2 (fun b b' => same_block_data b b' /\
                         (accounts REGS b = false -> b' = b)) blocks blocks'.
Proof.
  induction blocks as [|b blocks IH]; intros st s st' blocks' s' H.
  - cbn [account_blocks] in H. inversion H; subst. cbn [existsb].
    rewrite orb_false_r. split; [reflexivity | constructor].
  - rewrite account_blocks_cons in H.
    destruct (account_block REGS dev silent st b s)
      as [[[[st1 b1]|e] s1]|] eqn:Hb; try discriminate.
    destruct (account_blocks REGS dev silent st1 blocks s1)
      as [[[[st2 rest1]|e] s2]|] eqn:Hrest; try discriminate.
    inversion H; subst; clear H.
    destruct (account_block_ok _ _ _ _ _ _ _ Hb) as [Hf [Hd Hu]].
    destruct (IH _ _ _ _ _ Hrest) as [Hf' HF].
    split.
    + rewrite Hf', Hf. cbn [existsb].
      assert (Hid : id b1 = id b) by apply Hd.
      rewrite (accounts_same_id b b1 Hid), orb_assoc. reflexivity.
    + constructor; [split; assumption | exact HF].
Qed.

Lemma pass_inv self blocks silent s failed blocks' s' :
  get_coding_scheme_warnings REGS dev self blocks silent s
  = Some (Ok (failed, blocks'), s') ->
  exists st s1,
    account_blocks REGS dev silent pass_start blocks s
    = Some (Ok (st, blocks'), s1) /\
    failed = ret_fail st.
Proof.
  intros H. unfold get_coding_scheme_warnings in H.
  apply bind_inv in H. destruct H as [[[st bl] [s1 [Hloop H]]]|[e [_ He]]];
    [|discriminate].
  apply bind_inv in H. destruct H as [[[] [s2 [Hprint H]]]|[e [_ He]]];
    [|discriminate].
  inversion H; subst; clear H. eauto.
Qed.

(** X2.  The flag the pass returns is the disjunction of the [fail]
    flags, as they stand afterwards, of the blocks it accounted: block
    0 and the blocks whose [BLOCK_ERRORS] entry declares error fields.
    A block the loop skips does not count, whatever its [fail]. *)
Theorem pass_flag_is_any_accounted_fail
    (self : EspEfuses) (blocks : list EfuseBlock) (silent : bool)
    (s : IO) (failed : bool) (blocks' : list EfuseBlock) (s' : IO) :
  get_coding_scheme_warnings REGS dev self blocks silent s
  = Some (Ok (failed, blocks'), s') ->
  failed = existsb (fun b' => accounts REGS b' && fail b') blocks'.
Proof.
  intros H. destruct (pass_inv _ _ _ _ _ _ _ H) as [st [s1 [Hloop ->]]].
  destruct (account_blocks_ok _ _ _ _ _ _ _ Hloop) as [Hf _].
  exact Hf.
Qed.

(** X3.  The pass returns as many blocks as it was given, in the same
    order, each with the [id], coding scheme and write buffer it had
    and an error bit buffer of the same length; only block 0 has the
    contents of that buffer changed, and a block the loop skips is
    returned exactly as it was. *)
Theorem pass_keeps_block_data
    (self : EspEfuses) (blocks : list EfuseBlock) (silent : bool)
    (s : IO) (failed : bool) (blocks' : list EfuseBlock) (s' : IO) :
  get_coding_scheme_warnings REGS dev self blocks silent s
  = Some (Ok (failed, blocks'), s') ->
  length blocks' = length blocks /\
  Forall2 (fun b b' => same_block_data b b' /\
                       (accounts REGS b = false -> b' = b)) blocks blocks'.
Proof.
  intros H. destruct (pass_inv _ _ _ _ _ _ _ H) as [st [s1 [Hloop _]]].
  destruct (account_blocks_ok _ _ _ _ _ _ _ Hloop) as [_ HF].
  split; [|exact HF]. symmetry. eapply Forall2_length; eauto.
Qed.

(** Reporting does not steer the loop. *)
Lemma account_block_silence st b s t :
  calls s = calls t ->
  same_outcome (account_block REGS dev true st b s)
               (account_block REGS dev false st b t).
Proof.
  intros Hc. destruct (Z.eq_dec (id b) 0) as [Hid|Hid].
  - rewrite !(account_block0_eq _ st b _ Hid). cbv zeta. rewrite <- Hc.
    destruct ((0 <=? _) && _);
      [|split; [reflexivity | cbn [answered calls]; congruence]].
    destruct (length (err_bitarray b) <? 64)%nat;
      [split; [reflexivity | cbn [answered calls]; congruence]|].
    rewrite !report_eq. cbn [negb andb]. split; [reflexivity|].
    match goal with |- context [if ?c then _ else _] => destruct c end;
      cbn [emit answered calls]; congruence.
  - rewrite !(account_blockN_eq _ st b _ Hid). rewrite <- Hc.
    destruct (py_index (BLOCK_ERRORS REGS) (id b)) as [e|e];
      [|split; [reflexivity | exact Hc]].
    destruct e as [[[addr [m|]] [o|]] [f|]];
      try (split; [reflexivity | exact Hc]).
    cbv zeta.
    assert (Hs1 : calls (if addr =? old_addr_reg st then s
                         else answered (Some (EvRead addr
                                (reg dev (calls s) addr))) s)
                  = calls (if addr =? old_addr_reg st then t
                           else answered (Some (EvRead addr
                                  (reg dev (calls s) addr))) t)).
    { destruct (addr =? old_addr_reg st); [exact Hc|].
      cbn [answered calls]. rewrite Hc. reflexivity. }
    destruct (f <? 0); [split; [reflexivity | exact Hs1]|].
    destruct (o <? 0); [split; [reflexivity | exact Hs1]|].
    rewrite !report_eq. cbn [negb andb]. split; [reflexivity|].
    match goal with |- context [if ?c then emit _ _ else _] => destruct c end;
      cbn [emit calls]; exact Hs1.
Qed.

Lemma account_blocks_silence blocks :
  forall st s t,
    calls s = calls t ->
    same_outcome (account_blocks REGS dev true st blocks s)
                 (account_blocks REGS dev false st blocks t).
Proof.
  induction blocks as [|b blocks IH]; intros st s t Hc.
  - cbn [account_blocks]. split; [reflexivity | exact Hc].
  - rewrite !account_blocks_cons.
    pose proof (account_block_silence st b s t Hc) as Hb.
    destruct (account_block REGS dev true st b s) as [[[[st1 b1]|e] s1]|];
      destruct (account_block REGS dev false st b t) as [[[[st2 b2]|e'] s2]|];
      cbn [same_outcome] in Hb; try contradiction;
      [ destruct Hb as [Hr Hc1]; inversion Hr; subst
      | destruct Hb as [Hr _]; discriminate Hr
      | destruct Hb as [Hr _]; discriminate Hr
      | destruct Hb as [Hr Hc1]; inversion Hr; subst;
        split; [reflexivity | exact Hc1]
      | exact I ].
    pose proof (IH st2 s1 s2 Hc1) as Hrest.
    destruct (account_blocks REGS dev true st2 blocks s1)
      as [[[[st3 r3]|e] s3]|];
      destruct (account_blocks REGS dev false st2 blocks s2)
        as [[[[st4 r4]|e'] s4]|];
      cbn [same_outcome] in Hrest; try contradiction;
      [ destruct Hrest as [Hr' Hc']; inversion Hr'; subst;
        split; [reflexivity | exact Hc']
      | destruct Hrest as [Hr' _]; discriminate Hr'
      | destruct Hrest as [Hr' _]; discriminate Hr'
      | destruct Hrest as [Hr' Hc']; inversion Hr'; subst;
        split; [reflexivity | exact Hc']
      | exact I ].
Qed.

Lemma print_status_regs_ok b blocks s :
  exists s', print_status_regs REGS dev (b :: blocks) s = Some (Ok tt, s').
Proof.
  unfold print_status_regs, bind, print, lift, read_reg.
  rewrite py_index_0_cons. eexists. reflexivity.
Qed.

(** X4.  On a non-empty block list a silent pass and a reporting pass
    end alike: the same flag and the same blocks, or the same
    exception.  The reports are the only difference. *)
Theorem silence_changes_reports_only
    (self : EspEfuses) (blocks : list EfuseBlock) (s : IO)
    (r : result (bool * list EfuseBlock)) :
  blocks <> [] ->
  (exists s1, get_coding_scheme_warnings REGS dev self blocks true s
              = Some (r, s1)) <->
  (exists s2, get_coding_scheme_warnings REGS dev self blocks false s
              = Some (r, s2)).
Proof.
  intros Hne. unfold get_coding_scheme_warnings.
  pose proof (account_blocks_silence blocks pass_start s s eq_refl) as Hs.
  unfold bind at 1 3.
  destruct (account_blocks REGS dev true pass_start blocks s)
    as [[[[st1 bl1]|e1] s1]|] eqn:E1;
    destruct (account_blocks REGS dev false pass_start blocks s)
      as [[[[st2 bl2]|e2] s2]|] eqn:E2;
    cbn [same_outcome] in Hs; try contradiction;
    try (exfalso; apply proj1 in Hs; discriminate Hs).
  - destruct Hs as [Hr _]. inversion Hr; subst.
    rewrite andb_false_r. cbn [negb]. rewrite andb_true_r.
    assert (Hbl : exists b rest, bl2 = b :: rest).
    { destruct (account_blocks_ok _ _ _ _ _ _ _ E2) as [_ HF].
      apply Forall2_length in HF.
      destruct blocks; [contradiction|].
      destruct bl2; [discriminate|]. eauto. }
    destruct Hbl as [b0 [rest ->]].
    unfold bind, ret.
    destruct (debug self || ret_fail st2).
    + destruct (print_status_regs_ok b0 rest s2) as [s3 ->].
      split; intros [x Hx]; inversion Hx; subst; eauto.
    + split; intros [x Hx]; inversion Hx; subst; eauto.
  - destruct Hs as [Hr _]. inversion Hr; subst.
    split; intros [x Hx]; inversion Hx; subst; eauto.
  - split; intros [x Hx]; discriminate.
Qed.

(** X5.  With no blocks the pass has nothing to read and returns
    [False] with an empty list, but a reporting pass of a session in
    debug mode goes on to [print_status_regs], which prints its blank
    line and then fails on [self.blocks[0]] with [IndexError]. *)
Theorem pass_over_no_blocks (self : EspEfuses) (silent : bool) (s : IO) :
  get_coding_scheme_warnings REGS dev self [] silent s
  = if debug self && negb silent
    then Some (Raise IndexError, emit (EvPrint PBlank) s)
    else Some (Ok (false, []), s).
Proof.
  unfold get_coding_scheme_warnings.
  unfold bind at 1. cbn [account_blocks]. unfold ret at 1.
  cbn [ret_fail pass_start orb]. rewrite orb_false_r.
  destruct (debug self && negb silent); reflexivity.
Qed.

Lemma pass_raises_with_loop self blocks silent s e s' :
  account_blocks REGS dev silent pass_start blocks s = Some (Raise e, s') ->
  get_coding_scheme_warnings REGS dev self blocks silent s
  = Some (Raise e, s').
Proof.
  intros H. unfold get_coding_scheme_warnings, bind. rewrite H. reflexivity.
Qed.

Lemma py_index_out_of_range {A} (l : list A) i :
  i < - Z.of_nat (length l) \/ Z.of_nat (length l) <= i ->
  py_index l i = Raise IndexError.
Proof.
  intros H. unfold py_index.
  destruct (Z.ltb_spec i 0).
  - destruct (Z.leb_spec 0 (i + Z.of_nat (length l))); [lia|]. reflexivity.
  - destruct (Z.leb_spec 0 i); [|lia].
    destruct (Z.ltb_spec i (Z.of_nat (length l))); [lia|]. reflexivity.
Qed.

(** X6.  A block the loop cannot account aborts the whole pass where
    it stands; the blocks after it are not looked at.  Block 0 with
    an error bit buffer shorter than 64 bits raises [ValueError] from
    [overwrite] once its register has been read; another block whose
    [id] is not an index of [BLOCK_ERRORS] raises [IndexError] before
    any register is read for it. *)
Theorem pass_aborts_at_bad_block
    (self : EspEfuses) (silent : bool) (pre post : list EfuseBlock)
    (b : EfuseBlock) (s0 s1 : IO) (st1 : Pass) (pre' : list EfuseBlock) :
  account_blocks REGS dev silent pass_start pre s0
  = Some (Ok (st1, pre'), s1) ->
  let word := reg dev (calls s1) (EFUSE_RD_REPEAT_ERR_REG REGS) in
  let n := Z.of_nat (length (BLOCK_ERRORS REGS)) in
  (id b = 0 -> 0 <= word < 2 ^ 32 -> (length (err_bitarray b) < 64)%nat ->
   get_coding_scheme_warnings REGS dev self (pre ++ b :: post) silent s0
   = Some (Raise (ValueError msg_overwrite),
           answered (Some (EvRead (EFUSE_RD_REPEAT_ERR_REG REGS) word)) s1))
  /\
  (id b <> 0 -> id b < - n \/ n <= id b ->
   get_coding_scheme_warnings REGS dev self (pre ++ b :: post) silent s0
   = Some (Raise IndexError, s1)).
Proof.
  intros Hpre word n. split.
  - intros Hid Hw Hlen. apply pass_raises_with_loop.
    rewrite account_blocks_app, Hpre, account_blocks_cons.
    rewrite (account_block0_eq silent st1 b s1 Hid). cbv zeta. fold word.
    destruct (Z.leb_spec 0 word); [|lia].
    destruct (Z.ltb_spec word (2 ^ 32)); [|lia]. cbn [andb].
    destruct (Nat.ltb_spec (length (err_bitarray b)) 64); [|lia].
    reflexivity.
  - intros Hid Hrange. apply pass_raises_with_loop.
    rewrite account_blocks_app, Hpre, account_blocks_cons.
    rewrite (account_blockN_eq silent st1 b s1 Hid).
    rewrite (py_index_out_of_range _ _ Hrange). reflexivity.
Qed.

(** ** More on the programming controller *)

Abbreviation STATUS_REG := (EFUSE_STATUS_REG REGS).

Lemma emits_time P : emits_only P (time_time dev).
Proof.
  intros s r s' H. inversion H; subst. exists [].
  cbn [answered log]. rewrite app_nil_r. split; [reflexivity | constructor].
Qed.

Lemma emits_raise {A} P e : emits_only P (@raise A e).
Proof.
  intros s r s' H. inversion H; subst. exists [].
  rewrite app_nil_r. split; [reflexivity | constructor].
Qed.

Lemma emits_update (P : Event -> Prop) addr mask value :
  P (EvUpdate addr mask value) -> emits_only P (update_reg addr mask value).
Proof.
  intros HP s r s' H. inversion H; subst. eexists. split; [reflexivity|].
  constructor; [exact HP | constructor].
Qed.

Lemma emits_wait_loop (P : Event -> Prop) budget deadline :
  (forall v, P (EvRead STATUS_REG v)) ->
  emits_only P (wait_loop REGS dev budget deadline).
Proof.
  intros HP. induction budget as [|b IH].
  - intros s r s' H. discriminate H.
  - cbn [wait_loop]. apply emits_bind; [apply emits_time | intros now].
    destruct (now <? deadline); [|apply emits_raise].
    apply emits_bind; [apply emits_read; exact HP | intros status].
    destruct (Z.land status 7 =? 1); [apply emits_ret | exact IH].
Qed.

(** X7.  [wait_efuse_idle] only looks: however it ends, everything it
    adds to the log is a read of the status register. *)
Theorem wait_efuse_idle_only_reads_status
    (budget : nat) (s s' : IO) (r : result unit) :
  wait_efuse_idle REGS dev budget s = Some (r, s') ->
  exists values, log s' = log s ++ map (EvRead STATUS_REG) values.
Proof.
  intros H.
  assert (E : emits_only (fun e => exists v, e = EvRead STATUS_REG v)
                         (wait_efuse_idle REGS dev budget)).
  { unfold wait_efuse_idle. apply emits_bind; [apply emits_time|].
    intros start. apply emits_wait_loop. intros v. eauto. }
  destruct (E _ _ _ H) as [new [L F]]. rewrite L. clear L H.
  induction F as [|e new [v ->] F [values IH]].
  - exists []. reflexivity.
  - exists (v :: values). cbn [map].
    apply app_inv_head in IH. rewrite IH. reflexivity.
Qed.

(** X8.  A deadline that has passed by the first poll is a timeout
    even for an idle controller: when the second clock reading is
    already the first one plus the timeout or later (a timeout of
    zero, for one), [wait_efuse_idle] raises without reading the
    status register at all. *)
Theorem wait_efuse_idle_late_first_poll (budget : nat) (s : IO) :
  clock dev (calls s) + EFUSE_BURN_TIMEOUT REGS <= clock dev (S (calls s)) ->
  wait_efuse_idle REGS dev (S budget) s
  = Some (Raise (FatalError timeout_message),
          {| calls := S (S (calls s)); log := log s |}).
Proof.
  intros H.
  change (wait_efuse_idle REGS dev (S budget) s)
    with (wait_loop REGS dev (S budget)
            (clock dev (calls s) + EFUSE_BURN_TIMEOUT REGS)
            {| calls := S (calls s); log := log s |}).
  rewrite wait_loop_step.
  destruct (Z.ltb_spec (clock dev (S (calls s)))
              (clock dev (calls s) + EFUSE_BURN_TIMEOUT REGS)); [lia|].
  reflexivity.
Qed.

(** With a live clock an idle wait returns after a well-formed run of
    status reads or raises the timeout after busy reads alone. *)
Lemma pgm_data_regs_written_out :
  pgm_data_regs REGS = pgm_data_addresses REGS.
Proof. reflexivity. Qed.

Lemma busy_reads_no_write w :
  busy_reads STATUS_REG w -> register_writes w = [].
Proof.
  intros [busy [-> _]]. induction busy as [|v busy IH]; [reflexivity|].
  exact IH.
Qed.

(** X9.  With a live clock [clear_pgm_registers] ends.  When it
    returns it has waited for the controller and then written a zero,
    with no delay, to each of the eight programming-data registers,
    lowest address first, and nothing else.  When the wait times out
    it raises the timeout error and has written to no register. *)
Theorem clear_pgm_registers_zeroes_all_or_none (budget : nat) (s : IO) :
  clock_live dev (EFUSE_BURN_TIMEOUT REGS) budget ->
  exists r s' w,
    clear_pgm_registers REGS dev budget s = Some (r, s') /\
    match r with
    | Ok _ =>
        idle_wait STATUS_REG w /\
        log s' = log s ++ w
                 ++ map (fun a => EvWrite a 0 0) (pgm_data_addresses REGS)
    | Raise e =>
        e = FatalError timeout_message /\
        busy_reads STATUS_REG w /\
        log s' = log s ++ w /\
        register_writes w = []
    end.
Proof.
  intros Hlive.
  assert (R : runs (clear_pgm_registers REGS dev budget) s
    (fun r s' => exists w,
       match r with
       | Ok _ =>
           idle_wait STATUS_REG w /\
           log s' = log s ++ w
                    ++ map (fun a => EvWrite a 0 0) (pgm_data_addresses REGS)
       | Raise e =>
           e = FatalError timeout_message /\
           busy_reads STATUS_REG w /\
           log s' = log s ++ w /\
           register_writes w = []
       end)).
  { unfold clear_pgm_registers.
    apply runs_bind, runs_wait_log; [exact Hlive | |].
    - intros w s1 Hw L1. apply runs_write_zeros. intros s2 L2.
      exists w. split; [exact Hw|].
      rewrite L2, L1, <- app_assoc, pgm_data_regs_written_out. reflexivity.
    - intros w s1 Hw L1. exists w.
      repeat split; auto using busy_reads_no_write. }
  destruct R as [r [s' [H [w Hw]]]]. exists r, s', w. auto.
Qed.

(** X10.  [efuse_controller_setup] checks the crystal before it does
    anything to the chip.  With a frequency other than 40 it raises
    the frequency error having neither polled the status register nor
    written a register.  With 40 and a live clock it ends, and when it
    returns it has set the timing field, waited, zeroed the eight
    programming-data registers and waited again, in this order. *)
Theorem efuse_controller_setup_order (budget : nat) (s : IO) :
  clock_live dev (EFUSE_BURN_TIMEOUT REGS) budget ->
  let apb_freq := xtal dev (calls s) in
  exists r s',
    efuse_controller_setup REGS dev budget s = Some (r, s') /\
    if apb_freq =? 40 then
      match r with
      | Ok _ =>
          exists w1 w2,
            idle_wait STATUS_REG w1 /\ idle_wait STATUS_REG w2 /\
            log s' = log s
                     ++ [EvGetCrystalFreq 40;
                         EvUpdate (EFUSE_WR_TIM_CONF2_REG REGS)
                                  (EFUSE_PWR_OFF_NUM_M REGS) 0x190]
                     ++ w1
                     ++ map (fun a => EvWrite a 0 0) (pgm_data_addresses REGS)
                     ++ w2
      | Raise e => e = FatalError timeout_message
      end
    else
      r = Raise (FatalError (xtal_message apb_freq)) /\
      log s' = log s ++ [EvGetCrystalFreq apb_freq].
Proof.
  intros Hlive apb_freq.
  unfold efuse_controller_setup.
  unfold bind at 1, set_efuse_timing, bind at 1, get_crystal_freq at 1.
  fold apb_freq.
  destruct (Z.eqb_spec apb_freq 40) as [Heq|Hne]; cbn [negb].
  - unfold update_reg at 1.
    match goal with
    | |- context [bind ?m ?k ?st] =>
        change (runs (bind m k) st
          (fun r s' => match r with
             | Ok _ =>
                 exists w1 w2,
                   idle_wait STATUS_REG w1 /\ idle_wait STATUS_REG w2 /\
                   log s' = log s
                     ++ [EvGetCrystalFreq 40;
                         EvUpdate (EFUSE_WR_TIM_CONF2_REG REGS)
                                  (EFUSE_PWR_OFF_NUM_M REGS) 0x190]
                     ++ w1
                     ++ map (fun a => EvWrite a 0 0) (pgm_data_addresses REGS)
                     ++ w2
             | Raise e => e = FatalError timeout_message
             end))
    end.
    unfold clear_pgm_registers.
    apply runs_bind, runs_bind, runs_wait_log; [exact Hlive | |reflexivity].
    intros w1 s1 Hw1 L1. apply runs_write_zeros. intros s2 L2.
    apply runs_wait_log; [exact Hlive | |reflexivity].
    intros w2 s3 Hw2 L3. exists w1, w2. split; [exact Hw1|].
    split; [exact Hw2|].
    rewrite L3, L2, L1. cbn [emit answered log]. rewrite Heq.
    rewrite pgm_data_regs_written_out, <- !app_assoc. reflexivity.
  - eexists _, _. split; [reflexivity|]. split; reflexivity.
Qed.

(** The burn, in the form that feeds what follows it. *)
Lemma runs_efuse_program budget block s (Q : result unit -> IO -> Prop) :
  clock_live dev (EFUSE_BURN_TIMEOUT REGS) budget ->
  (forall w1 w2 w3 w4 w5 s',
      idle_wait STATUS_REG w1 -> idle_wait STATUS_REG w2 ->
      idle_wait STATUS_REG w3 -> idle_wait STATUS_REG w4 ->
      idle_wait STATUS_REG w5 ->
      log s' = log s ++ burn_trace REGS block w1 w2 w3 w4 w5 ->
      Q (Ok tt) s') ->
  (forall s', Q (Raise (FatalError timeout_message)) s') ->
  runs (efuse_program REGS dev budget block) s Q.
Proof.
  intros Hlive Hok Hto.
  unfold efuse_program, clear_pgm_registers, efuse_read.
  apply runs_bind, runs_wait; [exact Hlive | | apply Hto].
  intros w1 s1 Hw1 L1.
  apply runs_bind, runs_write. apply runs_bind, runs_write.
  apply runs_bind, runs_wait; [exact Hlive | | apply Hto].
  intros w2 s2 Hw2 L2.
  apply runs_bind, runs_bind, runs_wait; [exact Hlive | | apply Hto].
  intros w3 s3 Hw3 L3.
  apply runs_write_zeros. intros s4 L4.
  apply runs_bind, runs_wait; [exact Hlive | | apply Hto].
  intros w4 s5 Hw4 L5.
  apply runs_bind, runs_write. apply runs_bind, runs_write.
  apply runs_wait; [exact Hlive | | apply Hto].
  intros w5 s6 Hw5 L6.
  apply (Hok w1 w2 w3 w4 w5); try assumption.
  rewrite L6. cbn [emit log]. rewrite L5, L4, L3, L2. cbn [emit log].
  rewrite L1. unfold burn_trace. rewrite <- !app_assoc. reflexivity.
Qed.

Lemma emits_write_zeros (P : Event -> Prop) addrs :
  (forall a, P (EvWrite a 0 0)) -> emits_only P (write_zeros addrs).
Proof.
  intros HP. induction addrs as [|a addrs IH]; [apply emits_ret|].
  cbn [write_zeros]. apply emits_bind; [apply emits_write, HP | intros _].
  exact IH.
Qed.

Lemma emits_wait (P : Event -> Prop) budget :
  (forall v, P (EvRead STATUS_REG v)) ->
  emits_only P (wait_efuse_idle REGS dev budget).
Proof.
  intros HP. unfold wait_efuse_idle.
  apply emits_bind; [apply emits_time | intros start].
  apply emits_wait_loop, HP.
Qed.

Lemma emits_efuse_program (P : Event -> Prop) budget block :
  (forall a v, P (EvRead a v)) -> (forall a v d, P (EvWrite a v d)) ->
  emits_only P (efuse_program REGS dev budget block).
Proof.
  intros Hr Hw. unfold efuse_program, clear_pgm_registers, efuse_read.
  repeat first
    [ apply emits_wait; intros; apply Hr
    | apply emits_write, Hw
    | apply emits_write_zeros; intros; apply Hw
    | apply emits_bind; [|intros _] ].
Qed.

Lemma finishes_pass self blocks silent :
  finishes (get_coding_scheme_warnings REGS dev self blocks silent).
Proof.
  intros s.
  assert (Hb : forall st b s0, account_block REGS dev silent st b s0 <> None).
  { intros st b s0. destruct (Z.eq_dec (id b) 0) as [Hid|Hid].
    - rewrite (account_block0_eq silent st b s0 Hid). cbv zeta.
      destruct ((0 <=? _) && _); [|discriminate].
      destruct (length (err_bitarray b) <? 64)%nat; [discriminate|].
      rewrite report_eq. discriminate.
    - rewrite (account_blockN_eq silent st b s0 Hid).
      destruct (py_index (BLOCK_ERRORS REGS) (id b)) as [e|e]; [|discriminate].
      destruct e as [[[addr [m|]] [o|]] [f|]]; try discriminate.
      cbv zeta. destruct (f <? 0); [discriminate|].
      destruct (o <? 0); [discriminate|]. rewrite report_eq. discriminate. }
  assert (Hl : forall bl st s0,
             account_blocks REGS dev silent st bl s0 <> None).
  { induction bl as [|b bl IH]; intros st s0; [discriminate|].
    rewrite account_blocks_cons.
    specialize (Hb st b s0).
    destruct (account_block REGS dev silent st b s0)
      as [[[[st1 b1]|e] s1]|]; [|discriminate|contradiction].
    specialize (IH st1 s1).
    destruct (account_blocks REGS dev silent st1 bl s1)
      as [[[[st2 r2]|e] s2]|]; [discriminate|discriminate|contradiction]. }
  unfold get_coding_scheme_warnings, bind at 1.
  specialize (Hl blocks pass_start s).
  destruct (account_blocks REGS dev silent pass_start blocks s)
    as [[[[st bl]|e] s1]|]; [|discriminate|contradiction].
  unfold bind.
  destruct ((debug self || ret_fail st) && negb silent); [|discriminate].
  unfold print_status_regs, bind, print, lift, read_reg.
  destruct (py_index bl 0); discriminate.
Qed.

(** X11.  [write_efuses] burns first and checks afterwards, without a
    word on the console.  With a live clock it ends and nothing it
    adds to the log is a print; when it returns, the log holds the
    register traffic of the burn followed by reads of error status
    registers alone, and the flag returned is the one of that silent
    pass: some accounted block has [fail] set. *)
Theorem write_efuses_burns_then_checks_silently
    (budget : nat) (self : EspEfuses) (blocks : list EfuseBlock)
    (block : Z) (s : IO) :
  clock_live dev (EFUSE_BURN_TIMEOUT REGS) budget ->
  exists r s' new,
    write_efuses REGS dev budget self blocks block s = Some (r, s') /\
    log s' = log s ++ new /\
    Forall (fun e => is_print e = false) new /\
    match r with
    | Ok (failed, blocks') =>
        exists w1 w2 w3 w4 w5 checks,
          idle_wait STATUS_REG w1 /\ idle_wait STATUS_REG w2 /\
          idle_wait STATUS_REG w3 /\ idle_wait STATUS_REG w4 /\
          idle_wait STATUS_REG w5 /\
          new = burn_trace REGS block w1 w2 w3 w4 w5 ++ checks /\
          Forall (pass_event REGS true) checks /\
          failed = existsb (fun b' => accounts REGS b' && fail b') blocks'
    | Raise _ => True
    end.
Proof.
  intros Hlive.
  assert (R : runs (write_efuses REGS dev budget self blocks block) s
    (fun r s' => match r with
       | Ok (failed, blocks') =>
           exists w1 w2 w3 w4 w5 checks,
             idle_wait STATUS_REG w1 /\ idle_wait STATUS_REG w2 /\
             idle_wait STATUS_REG w3 /\ idle_wait STATUS_REG w4 /\
             idle_wait STATUS_REG w5 /\
             log s' = log s ++ burn_trace REGS block w1 w2 w3 w4 w5 ++ checks /\
             Forall (pass_event REGS true) checks /\
             failed = existsb (fun b' => accounts REGS b' && fail b') blocks'
       | Raise _ => True
       end)).
  { unfold write_efuses.
    apply runs_bind, runs_efuse_program; [exact Hlive | | intros; exact I].
    intros w1 w2 w3 w4 w5 s1 H1 H2 H3 H4 H5 L1.
    pose proof (finishes_pass self blocks true s1) as Hfin.
    destruct (get_coding_scheme_warnings REGS dev self blocks true s1)
      as [[r s2]|] eqn:Hp; [|contradiction].
    exists r, s2. split; [exact Hp|].
    destruct r as [[failed blocks']|e]; [|exact I].
    destruct (emits_pass self blocks true s1 s2 _ Hp)
      as [checks [L2 F]].
    exists w1, w2, w3, w4, w5, checks. repeat (split; [assumption|]).
    split; [rewrite L2, L1, <- app_assoc; reflexivity|].
    split; [exact F|].
    destruct (pass_inv _ _ _ _ _ _ _ Hp) as [st [s3 [Hloop ->]]].
    destruct (account_blocks_ok _ _ _ _ _ _ _ Hloop) as [Hf _]. exact Hf. }
  destruct R as [r [s' [H Hr]]].
  assert (E : emits_only (fun e => is_print e = false)
                (write_efuses REGS dev budget self blocks block)).
  { unfold write_efuses. apply emits_bind.
    - apply emits_efuse_program; reflexivity.
    - intros _ s1 r1 s2 Hp.
      destruct (emits_pass self blocks true s1 s2 _ Hp)
        as [checks [L2 F]].
      exists checks. split; [exact L2|].
      eapply Forall_impl; [|exact F].
      intros e He. destruct e; cbn [pass_event] in He;
        try reflexivity; try contradiction; discriminate. }
  destruct (E _ _ _ H) as [new [L F]].
  exists r, s', new. split; [exact H|]. split; [exact L|]. split; [exact F|].
  destruct r as [[failed blocks']|e]; [|exact I].
  destruct Hr as [w1 [w2 [w3 [w4 [w5 [checks [H1 [H2 [H3 [H4 [H5 [L' [Fc Hf]]]]]]]]]]]]].
  exists w1, w2, w3, w4, w5, checks. repeat (split; [assumption|]).
  split; [|split; assumption].
  rewrite L in L'. apply app_inv_head in L'. exact L'.
Qed.

Lemma no_write_events (l : list Event) :
  Forall (fun e => is_write e = false) l -> register_writes l = [].
Proof.
  unfold register_writes. induction 1 as [|e l He _ IH]; [reflexivity|].
  cbn [filter]. rewrite He. exact IH.
Qed.

(** X12.  The command word of a burn keeps the block number apart from
    the command.  In every run of [efuse_program] that returns, the
    first two register writes are the write opcode and then, to the
    command register with no delay, a word that gives the block
    number back when shifted right by two and the program command
    when masked with 3, provided [EFUSE_PGM_CMD] fits the two low bits
    and the block number is not negative; so burns of two blocks
    never write the same command word. *)
Theorem program_command_keeps_block
    (budget : nat) (block : Z) (s s' : IO) :
  0 <= EFUSE_PGM_CMD REGS < 4 -> 0 <= block ->
  efuse_program REGS dev budget block s = Some (Ok tt, s') ->
  exists reads command rest,
    log s' = log s ++ reads
             ++ EvWrite (EFUSE_CONF_REG REGS) (EFUSE_WRITE_OP_CODE REGS) 0
             :: EvWrite (EFUSE_CMD_REG REGS) command 0 :: rest /\
    register_writes reads = [] /\
    Z.shiftr command 2 = block /\
    Z.land command 3 = EFUSE_PGM_CMD REGS.
Proof.
  intros Hcmd Hb H. unfold efuse_program in H.
  apply bind_inv in H. destruct H as [[[] [s1 [Hw H]]]|[e [_ He]]];
    [|discriminate].
  apply bind_inv in H. destruct H as [[[] [s2 [H2 H]]]|[e [_ He]]];
    [|discriminate].
  apply bind_inv in H. destruct H as [[[] [s3 [H3 H]]]|[e [_ He]]];
    [|discriminate].
  assert (E2 : s2 = emit (EvWrite (EFUSE_CONF_REG REGS)
                                  (EFUSE_WRITE_OP_CODE REGS) 0) s1)
    by (unfold write_reg in H2; congruence).
  assert (E3 : s3 = emit (EvWrite (EFUSE_CMD_REG REGS)
                            (Z.lor (EFUSE_PGM_CMD REGS) (Z.shiftl block 2)) 0)
                         s2)
    by (unfold write_reg in H3; congruence).
  destruct (emits_wait (fun e => is_write e = false) budget
              ltac:(reflexivity) _ _ _ Hw) as [reads [L1 F1]].
  assert (Erest : emits_only (fun _ => True)
            (bind (wait_efuse_idle REGS dev budget)
               (fun _ => bind (clear_pgm_registers REGS dev budget)
                  (fun _ => efuse_read REGS dev budget)))).
  { unfold clear_pgm_registers, efuse_read.
    repeat first
      [ apply emits_wait; intros; exact I
      | apply emits_write; exact I
      | apply emits_write_zeros; intros; exact I
      | apply emits_bind; [|intros _] ]. }
  destruct (Erest _ _ _ H) as [rest [L3 _]].
  exists reads, (Z.lor (EFUSE_PGM_CMD REGS) (Z.shiftl block 2)), rest.
  split.
  { rewrite L3, E3, E2. cbn [emit log]. rewrite L1, <- !app_assoc.
    reflexivity. }
  split; [apply no_write_events, F1|].
  assert (Hhi : Z.shiftr (EFUSE_PGM_CMD REGS) 2 = 0).
  { rewrite Z.shiftr_div_pow2 by lia. change (2 ^ 2) with 4.
    apply Z.div_small. lia. }
  split.
  - rewrite Z.shiftr_lor, Hhi, Z.shiftr_shiftl_l by lia.
    rewrite Z.sub_diag, Z.shiftl_0_r. apply Z.lor_0_l.
  - change 3 with (Z.ones 2). rewrite Z.land_lor_distr_l.
    rewrite !Z.land_ones by lia. rewrite Z.shiftl_mul_pow2 by lia.
    change (2 ^ 2) with 4.
    rewrite Z.mod_mul by lia. rewrite Z.lor_0_r.
    apply Z.mod_small. lia.
Qed.

End MoreSessionProperties.

(** ** More on the coding-scheme codec *)

Lemma le_words_app (a b : bytes) :
  forall wa, le_words a = Some wa ->
             le_words (a ++ b)
             = match le_words b with
               | Some wb => Some (wa ++ wb)
               | None => None
               end.
Proof.
  remember (length a) as k eqn:Hk. revert a Hk.
  induction k as [k IH] using lt_wf_ind.
  intros a Hk wa H. subst k.
  destruct a as [|b0 [|b1 [|b2 [|b3 rest]]]]; cbn [le_words] in H;
    try discriminate.
  - inversion H; subst. cbn [app]. destruct (le_words b); reflexivity.
  - destruct (le_words rest) as [ws'|] eqn:E; [|discriminate].
    inversion H; subst; clear H.
    cbn [app le_words].
    rewrite (IH (length rest) ltac:(simpl; lia) rest eq_refl ws' E).
    destruct (le_words b); reflexivity.
Qed.

Lemma struct_unpack_I_le_words n data ws :
  struct_unpack_I n data = Ok ws -> le_words data = Some ws.
Proof.
  unfold struct_unpack_I. destruct (Nat.eqb _ _); [|discriminate].
  destruct (le_words data); [|discriminate].
  intros H; inversion H; reflexivity.
Qed.

Lemma rs_encode_msg_length (c : bytes) :
  length (reedsolo.rs_encode_msg c (reedsolo.rs_generator_poly 12))
  = (length c + 12)%nat.
Proof.
  unfold reedsolo.rs_encode_msg.
  rewrite reedsolo_facts.lgen_tail12_eq, reedsolo_facts.gen12_length.
  rewrite length_app.
  change (13 - 1)%nat with 12%nat.
  rewrite reedsolo_facts.rs_encode_msg_parity_length. reflexivity.
Qed.

Lemma chunks_encoded_length (fuel : nat) :
  forall data : bytes,
    (length data <= fuel)%nat -> data <> [] ->
    (length data + 12
     <= length (flat_map
                  (fun c => reedsolo.rs_encode_msg c
                              (reedsolo.rs_generator_poly 12))
                  (reedsolo.chunk fuel data 243)))%nat.
Proof.
  induction fuel as [|f IH]; intros data Hl Hne.
  - destruct data; [contradiction | simpl in Hl; lia].
  - destruct data as [|x d]; [contradiction|].
    cbn [reedsolo.chunk flat_map].
    rewrite length_app, rs_encode_msg_length, length_firstn.
    set (data := x :: d) in *.
    destruct (skipn 243 data) as [|y rest] eqn:Hs.
    + assert (Hlen : (length (skipn 243 data) = 0)%nat)
        by (rewrite Hs; reflexivity).
      rewrite length_skipn in Hlen. lia.
    + assert (Hlen : (length (skipn 243 data) = S (length rest))%nat)
        by (rewrite Hs; reflexivity).
      rewrite length_skipn in Hlen.
      assert (Hr : (length (y :: rest) <= f)%nat)
        by (cbn [length] in *; lia).
      specialize (IH (y :: rest) Hr ltac:(discriminate)).
      cbn [length] in IH. lia.
Qed.

(** X13.  A write buffer longer than the burn unit is never cut down
    to it.  Under the Reed-Solomon scheme the codec's output is then
    longer than 44 bytes and unpacking it as 11 words fails, whatever
    the bytes are.  Under any other scheme the buffer is unpacked
    whole: as [len / 4] words that spell all of it when its length is
    a multiple of 4, and with [struct.error] when it is not. *)
Theorem apply_coding_scheme_long_payload
    (CODING_SCHEME_RS : Z) (raw : bytes) (coding_scheme : Z) :
  (len_of_burn_unit < length raw)%nat -> Forall is_byte raw ->
  if coding_scheme =? CODING_SCHEME_RS then
    apply_coding_scheme_of CODING_SCHEME_RS raw coding_scheme
    = Raise StructError
  else if (length raw mod 4 =? 0)%nat then
    exists ws,
      apply_coding_scheme_of CODING_SCHEME_RS raw coding_scheme = Ok ws /\
      length ws = (length raw / 4)%nat /\
      words_le_concat ws = rev raw
  else
    apply_coding_scheme_of CODING_SCHEME_RS raw coding_scheme
    = Raise StructError.
Proof.
  intros Hlen Hb. unfold apply_coding_scheme_of.
  rewrite length_rev.
  destruct (Nat.ltb_spec (length raw) len_of_burn_unit) as [Hlt|_]; [lia|].
  destruct (coding_scheme =? CODING_SCHEME_RS).
  - unfold struct_unpack_I, reedsolo.RSCodec_encode.
    change (reedsolo.nsize - 12)%nat with 243%nat.
    assert (Hne : rev raw <> []).
    { intros E. apply (f_equal (@length Z)) in E.
      rewrite length_rev in E. simpl in E. lia. }
    pose proof (chunks_encoded_length (length (rev raw)) (rev raw)
                  (le_n _) Hne) as Hc.
    rewrite length_rev in Hc. rewrite length_rev.
    change len_of_burn_unit with 32%nat in Hlen.
    destruct (Nat.eqb_spec
                (length (flat_map
                   (fun c => reedsolo.rs_encode_msg c
                               (reedsolo.rs_generator_poly 12))
                   (reedsolo.chunk (length raw) (rev raw) 243)))
                (4 * 11)) as [E|_]; [lia | reflexivity].
  - destruct (Nat.eqb_spec (length raw mod 4) 0) as [Hm|Hm].
    + assert (E : length (rev raw) = (4 * (length raw / 4))%nat).
      { rewrite length_rev.
        pose proof (Nat.div_mod_eq (length raw) 4). lia. }
      destruct (struct_unpack_I_bytes _ _ (Forall_rev Hb) E)
        as [ws [Hu [Hwl Hwc]]].
      exists ws. rewrite length_rev. auto.
    + unfold struct_unpack_I. rewrite !length_rev.
      destruct (Nat.eqb_spec (length raw) (4 * (length raw / 4)))
        as [E|_]; [|reflexivity].
      exfalso. apply Hm. rewrite E.
      rewrite Nat.mul_comm. apply Nat.Div0.mod_mul.
Qed.

(** X14.  The Reed-Solomon scheme only adds to what the plain scheme
    burns: for a write buffer of at most 32 bytes the 11 words of the
    Reed-Solomon branch are the 8 words of the other branch followed
    by 3 words of parity. *)
Theorem rs_words_extend_plain_words
    (CODING_SCHEME_RS : Z) (raw : bytes) (coding_scheme : Z) :
  coding_scheme <> CODING_SCHEME_RS ->
  (length raw <= len_of_burn_unit)%nat -> Forall is_byte raw ->
  exists plain parity_words,
    apply_coding_scheme_of CODING_SCHEME_RS raw coding_scheme = Ok plain /\
    apply_coding_scheme_of CODING_SCHEME_RS raw CODING_SCHEME_RS
    = Ok (plain ++ parity_words) /\
    length plain = 8%nat /\ length parity_words = 3%nat.
Proof.
  intros Hcs Hlen Hb.
  destruct (padded_data raw Hlen Hb) as [_ [Hpl Hpb]].
  unfold apply_coding_scheme_of.
  rewrite Z.eqb_refl.
  destruct (Z.eqb_spec coding_scheme CODING_SCHEME_RS) as [E|_];
    [contradiction|].
  set (padded := if (length (rev raw) <? len_of_burn_unit)%nat
                 then rev raw ++ zero_bytes (len_of_burn_unit - length (rev raw))
                 else rev raw) in *.
  rewrite Hpl. change (32 / 4)%nat with 8%nat.
  destruct (struct_unpack_I_bytes 8 padded Hpb Hpl) as [plain [Hu [Hwl _]]].
  destruct (rs_branch padded Hpl Hpb)
    as [ws [parity [Hr [_ [_ [_ [_ [Hparl [Henc _]]]]]]]]].
  destruct (le_words_total parity 3 Hparl) as [pw Hpw].
  assert (Hpwl : length pw = 3%nat).
  { assert (Hbp : Forall is_byte parity).
    { pose proof (reedsolo_facts.rs_encode_msg_bytes padded Hpb) as Hall.
      rewrite <- reedsolo_facts.RSCodec_encode_one_chunk in Hall
        by (rewrite Hpl; lia).
      rewrite Henc in Hall. apply Forall_app in Hall. tauto. }
    destruct (le_words_concat parity pw Hbp Hpw) as [_ Hl]. lia. }
  exists plain, pw. split; [exact Hu|]. split; [|auto].
  rewrite Hr. f_equal.
  apply struct_unpack_I_le_words in Hr, Hu.
  rewrite Henc, (le_words_app padded parity plain Hu), Hpw in Hr.
  inversion Hr. reflexivity.
Qed.

Lemma gf_mul_1_r (y : Z) : is_byte y -> reedsolo.gf_mul y 1 = y.
Proof.
  intros Hy.
  assert (H : forallb (fun a => reedsolo.gf_mul a 1 =? a)
                      (map Z.of_nat (seq 0 256)) = true)
    by (vm_compute; reflexivity).
  rewrite forallb_forall in H. apply Z.eqb_eq, H, byte_in_range, Hy.
Qed.

Lemma horner_at_1 (l : bytes) :
  forall y, is_byte y -> Forall is_byte l ->
            reedsolo_view.horner 1 y l = fold_left Z.lxor l y.
Proof.
  induction l as [|c l IH]; intros y Hy Hl; [reflexivity|].
  inversion Hl as [|? ? Hc Hl']; subst.
  rewrite reedsolo_facts.horner_cons. cbn [fold_left].
  rewrite gf_mul_1_r by exact Hy.
  apply IH; [apply is_byte_lxor; assumption | exact Hl'].
Qed.

Lemma fold_lxor_from (l : list Z) :
  forall y, fold_left Z.lxor l y = Z.lxor y (fold_left Z.lxor l 0).
Proof.
  induction l as [|c l IH]; intros y; cbn [fold_left].
  - rewrite Z.lxor_0_r. reflexivity.
  - rewrite (IH (Z.lxor y c)), (IH (Z.lxor 0 c)), Z.lxor_0_l.
    apply Z.lxor_assoc.
Qed.

(** The syndrome at the root 1 is the xor of all the bytes. *)
Lemma syndrome_at_1 (u v : bytes) (x : Z) :
  Forall is_byte (u ++ x :: v) ->
  reedsolo.gf_poly_eval (u ++ x :: v) 1
  = Z.lxor (Z.lxor (fold_left Z.lxor u 0) x) (fold_left Z.lxor v 0).
Proof.
  intros Hb.
  rewrite reedsolo_facts.gf_poly_eval_horner.
  rewrite horner_at_1 by (exact Hb || apply is_byte_0).
  rewrite fold_left_app. cbn [fold_left].
  apply fold_lxor_from.
Qed.

(** X15.  The parity never hides a changed byte: two write buffers of
    32 bytes that differ in exactly one byte are burnt with different
    parity words under the Reed-Solomon scheme. *)
Theorem parity_tells_one_byte_apart
    (CODING_SCHEME_RS : Z) (a b : bytes) (x x' : Z) :
  length (a ++ x :: b) = 32%nat ->
  Forall is_byte (a ++ x :: b) -> is_byte x' -> x <> x' ->
  exists ws ws',
    apply_coding_scheme_of CODING_SCHEME_RS (a ++ x :: b) CODING_SCHEME_RS
    = Ok ws /\
    apply_coding_scheme_of CODING_SCHEME_RS (a ++ x' :: b) CODING_SCHEME_RS
    = Ok ws' /\
    skipn 8 ws <> skipn 8 ws'.
Proof.
  intros Hlen Hb Hx' Hne.
  assert (Hlen' : length (a ++ x' :: b) = 32%nat)
    by (rewrite length_app in *; cbn [length] in *; lia).
  assert (Hb' : Forall is_byte (a ++ x' :: b)).
  { apply Forall_app in Hb. destruct Hb as [Ha Hxb].
    inversion Hxb; subst. apply Forall_app; split; [assumption|].
    constructor; assumption. }
  unfold apply_coding_scheme_of.
  rewrite !length_rev, Hlen, Hlen'.
  change (32 <? len_of_burn_unit)%nat with false. cbv iota.
  rewrite Z.eqb_refl.
  destruct (rs_branch (rev (a ++ x :: b))
              ltac:(rewrite length_rev; exact Hlen) (Forall_rev Hb))
    as [ws [p [Hu [_ [_ [_ [Hp [Hpl [Henc [Hs _]]]]]]]]]].
  destruct (rs_branch (rev (a ++ x' :: b))
              ltac:(rewrite length_rev; exact Hlen') (Forall_rev Hb'))
    as [ws' [p' [Hu' [_ [_ [_ [Hp' [Hpl' [Henc' [Hs' _]]]]]]]]]].
  exists ws, ws'. split; [exact Hu|]. split; [exact Hu'|].
  intros E. rewrite E, Hp' in Hp. subst p'.
  assert (Hpb : Forall is_byte p).
  { pose proof (reedsolo_facts.rs_encode_msg_bytes _ (Forall_rev Hb)) as Hall.
    rewrite <- reedsolo_facts.RSCodec_encode_one_chunk in Hall
      by (rewrite length_rev, Hlen; lia).
    rewrite Henc in Hall. apply Forall_app in Hall. tauto. }
  specialize (Hs 0%nat ltac:(lia)). specialize (Hs' 0%nat ltac:(lia)).
  change (reedsolo.gf_pow 2 (Z.of_nat 0)) with 1 in Hs, Hs'.
  rewrite rev_app_distr in Hs, Hs'. cbn [rev] in Hs, Hs'.
  rewrite <- !app_assoc in Hs, Hs'. cbn [app] in Hs, Hs'.
  assert (Hall : Forall is_byte (rev b ++ x :: rev a ++ p)).
  { apply Forall_app in Hb. destruct Hb as [Ha Hxb].
    inversion Hxb; subst.
    apply Forall_app; split; [apply Forall_rev; assumption|].
    constructor; [assumption|].
    apply Forall_app; split; [apply Forall_rev; assumption | exact Hpb]. }
  assert (Hall' : Forall is_byte (rev b ++ x' :: rev a ++ p)).
  { apply Forall_app in Hall. destruct Hall as [H1 H2].
    inversion H2; subst. apply Forall_app; split; [assumption|].
    constructor; assumption. }
  rewrite syndrome_at_1 in Hs by exact Hall.
  rewrite syndrome_at_1 in Hs' by exact Hall'.
  apply Z.lxor_eq in Hs, Hs'. rewrite <- Hs' in Hs.
  apply Hne.
  apply (f_equal (Z.lxor (fold_left Z.lxor (rev b) 0))) in Hs.
  rewrite <- !Z.lxor_assoc, Z.lxor_nilpotent, !Z.lxor_0_l in Hs.
  exact Hs.
Qed.

(** ** More on MAC addresses *)

Lemma hex_value_range a v : hex_value a = Some v -> 0 <= v < 16.
Proof.
  unfold hex_value.
  destruct ((48 <=? Z.of_nat (nat_of_ascii a))
            && (Z.of_nat (nat_of_ascii a) <=? 57)) eqn:E1.
  { apply andb_true_iff in E1. intros H; inversion H. lia. }
  destruct ((65 <=? Z.of_nat (nat_of_ascii a))
            && (Z.of_nat (nat_of_ascii a) <=? 70)) eqn:E2.
  { apply andb_true_iff in E2. intros H; inversion H. lia. }
  destruct ((97 <=? Z.of_nat (nat_of_ascii a))
            && (Z.of_nat (nat_of_ascii a) <=? 102)) eqn:E3.
  { apply andb_true_iff in E3. intros H; inversion H. lia. }
  discriminate.
Qed.

Lemma unhex_pairs_shape (s : string) :
  forall bd, unhex_pairs s = Ok bd ->
             String.length s = (2 * length bd)%nat /\ Forall is_byte bd.
Proof.
  remember (String.length s) as k eqn:Hk. revert s Hk.
  induction k as [k IH] using lt_wf_ind.
  intros s Hk bd H. subst k.
  destruct s as [|a [|b rest]]; cbn [unhex_pairs] in H; try discriminate.
  - inversion H; subst. split; [reflexivity | constructor].
  - destruct (hex_value a) as [hi|] eqn:Ea; [|discriminate].
    destruct (hex_value b) as [lo|] eqn:Eb; [|discriminate].
    destruct (unhex_pairs rest) as [t|e] eqn:Er; [|discriminate].
    injection H as <-.
    destruct (IH (String.length rest) ltac:(cbn [String.length]; lia)
                 rest eq_refl t Er) as [Hl Hb].
    apply hex_value_range in Ea, Eb.
    split; [cbn [String.length length]; lia|].
    constructor; [change (0 <= 16 * hi + lo < 256); lia | exact Hb].
Qed.

Lemma str_count_remove_length c s :
  String.length s = (str_count c s + String.length (str_remove c s))%nat.
Proof.
  induction s as [|a rest IH]; [reflexivity|].
  cbn [str_count str_remove String.length].
  destruct (Ascii.eqb a c); cbn [String.length]; lia.
Qed.

Lemma land_1_even n : Z.land n 1 = 0 <-> Z.even n = true.
Proof.
  change 1 with (Z.ones 1) at 1. rewrite Z.land_ones by lia.
  change (2 ^ 1) with 2. rewrite Zmod_even.
  destruct (Z.even n); split; intros; (reflexivity || discriminate).
Qed.

(** X16.  What [check_format] returns is an address: the string it
    accepted has 17 characters and the value is six bytes, each in
    0..255, the first of them even. *)
Theorem check_format_returns_six_bytes (s : string) (mac : bytes) :
  check_format (Some s) = Ok mac ->
  String.length s = 17%nat /\
  length mac = 6%nat /\ Forall is_byte mac /\
  Z.even (hd 0 mac) = true.
Proof.
  unfold check_format.
  destruct (Nat.eqb_spec (str_count ":"%char s) 5) as [Hc|_];
    [|discriminate].
  destruct (Nat.eqb_spec (String.length (str_remove ":"%char s)) 12)
    as [Hl|_]; [|discriminate].
  cbn [negb].
  destruct (unhexlify (str_remove ":"%char s)) as [bd|e] eqn:Hu;
    [|discriminate].
  cbn [rbind].
  assert (Hshape : String.length (str_remove ":"%char s)
                   = (2 * length bd)%nat /\ Forall is_byte bd).
  { unfold unhexlify in Hu.
    destruct (negb (is_ascii_str _)); [discriminate|].
    destruct (Nat.odd _); [discriminate|].
    apply unhex_pairs_shape, Hu. }
  destruct Hshape as [Hl2 Hb].
  destruct bd as [|first rest]; [rewrite py_index_0_nil; discriminate|].
  rewrite py_index_0_cons. cbn [rbind].
  destruct (Z.eqb_spec (Z.land first 1) 0) as [Hz|_]; [|discriminate].
  cbn [negb]. intros H. inversion H; subst; clear H.
  split; [rewrite (str_count_remove_length ":"%char s), Hc, Hl; reflexivity|].
  split; [lia|]. split; [exact Hb|].
  apply land_1_even, Hz.
Qed.

Lemma hex_digit_value n : 0 <= n < 16 -> hex_value (hex_digit n) = Some n.
Proof.
  intros Hn.
  assert (H : forallb (fun k => match hex_value (hex_digit k) with
                                | Some v => v =? k
                                | None => false
                                end) (map Z.of_nat (seq 0 16)) = true)
    by (vm_compute; reflexivity).
  rewrite forallb_forall in H.
  assert (Hin : In n (map Z.of_nat (seq 0 16))).
  { rewrite <- (Z2Nat.id n) by lia. apply in_map, in_seq. lia. }
  specialize (H n Hin).
  destruct (hex_value (hex_digit n)) as [v|]; [|discriminate].
  apply Z.eqb_eq in H. subst. reflexivity.
Qed.

(** Twelve digits in six colon-separated pairs pass the counts and
    are decoded pair by pair. *)
Lemma six_pairs_decode (c0 c1 c2 c3 c4 c5 c6 c7 c8 c9 c10 c11 : ascii)
    (v0 v1 v2 v3 v4 v5 v6 v7 v8 v9 v10 v11 : Z) :
  hex_value c0 = Some v0 -> hex_value c1 = Some v1 ->
  hex_value c2 = Some v2 -> hex_value c3 = Some v3 ->
  hex_value c4 = Some v4 -> hex_value c5 = Some v5 ->
  hex_value c6 = Some v6 -> hex_value c7 = Some v7 ->
  hex_value c8 = Some v8 -> hex_value c9 = Some v9 ->
  hex_value c10 = Some v10 -> hex_value c11 = Some v11 ->
  let colon := ":"%char in
  let s :=
    String c0 (String c1 (String colon
    (String c2 (String c3 (String colon
    (String c4 (String c5 (String colon
    (String c6 (String c7 (String colon
    (String c8 (String c9 (String colon
    (String c10 (String c11 EmptyString)))))))))))))))) in
  str_count ":"%char s = 5%nat /\
  String.length (str_remove ":"%char s) = 12%nat /\
  unhexlify (str_remove ":"%char s)
  = Ok [16 * v0 + v1; 16 * v2 + v3; 16 * v4 + v5;
        16 * v6 + v7; 16 * v8 + v9; 16 * v10 + v11].
Proof.
  intros H0 H1 H2 H3 H4 H5 H6 H7 H8 H9 H10 H11 colon s. subst colon s.
  repeat match goal with
         | H : hex_value ?c = Some _ |- _ =>
             let Hc := fresh "Hc" in
             let Hd := fresh "Hd" in
             assert (Hc : Ascii.eqb c ":"%char = false)
               by (apply hex_value_not_colon; rewrite H; discriminate);
             assert (Hd : (nat_of_ascii c <? 128)%nat = true)
               by (apply hex_value_ascii; rewrite H; discriminate);
             revert H
         end.
  intros.
  repeat first [ rewrite str_count_skip by assumption
               | rewrite str_count_hit ].
  repeat first [ rewrite str_remove_keep by assumption
               | rewrite str_remove_drop ].
  cbn [str_count str_remove].
  split; [reflexivity|]. split; [reflexivity|].
  unfold unhexlify. cbn [is_ascii_str].
  repeat match goal with
         | H : (nat_of_ascii _ <? 128)%nat = true |- _ => rewrite !H; clear H
         end.
  cbn [andb negb String.length Nat.odd Nat.even unhex_pairs].
  repeat match goal with
         | H : hex_value _ = Some _ |- _ => rewrite !H; clear H
         end.
  reflexivity.
Qed.

(** X17.  Every address can be written so that [check_format] reads
    it back: six bytes spelled as upper-case digit pairs joined by
    colons are returned as they are when the first byte is even, and
    refused as multicast when it is odd. *)
Theorem check_format_reads_back_spelling (mac : bytes) :
  length mac = 6%nat -> Forall is_byte mac ->
  check_format (Some (mac_spelling mac))
  = if Z.even (hd 0 mac) then Ok mac
    else Raise (FatalError msg_mac_unicast).
Proof.
  intros Hl Hb.
  destruct mac as [|b0 [|b1 [|b2 [|b3 [|b4 [|b5 [|b6 rest]]]]]]];
    try discriminate Hl. clear Hl.
  repeat match goal with
         | H : Forall is_byte (_ :: _) |- _ =>
             let Hx := fresh "Hx" in
             inversion H as [|? ? Hx ?]; subst; clear H
         end.
  unfold is_byte in *.
  assert (D : forall b, 0 <= b < 256 ->
              hex_value (hex_digit (b / 16)) = Some (b / 16) /\
              hex_value (hex_digit (b mod 16)) = Some (b mod 16) /\
              16 * (b / 16) + b mod 16 = b).
  { intros b Hr. split; [|split].
    - apply hex_digit_value. split; [apply Z.div_pos; lia|].
      apply Z.div_lt_upper_bound; lia.
    - apply hex_digit_value. apply Z.mod_pos_bound. lia.
    - symmetry. apply Z.div_mod. lia. }
  destruct (D b0) as [A0 [B0 E0]]; [assumption|].
  destruct (D b1) as [A1 [B1 E1]]; [assumption|].
  destruct (D b2) as [A2 [B2 E2]]; [assumption|].
  destruct (D b3) as [A3 [B3 E3]]; [assumption|].
  destruct (D b4) as [A4 [B4 E4]]; [assumption|].
  destruct (D b5) as [A5 [B5 E5]]; [assumption|].
  destruct (six_pairs_decode _ _ _ _ _ _ _ _ _ _ _ _ _ _ _ _ _ _ _ _ _ _ _ _
              A0 B0 A1 B1 A2 B2 A3 B3 A4 B4 A5 B5) as [Hc [Hlen Hu]].
  rewrite E0, E1, E2, E3, E4, E5 in Hu.
  unfold check_format.
  change (mac_spelling [b0; b1; b2; b3; b4; b5])
    with (String (hex_digit (b0 / 16)) (String (hex_digit (b0 mod 16))
         (String ":"%char
         (String (hex_digit (b1 / 16)) (String (hex_digit (b1 mod 16))
         (String ":"%char
         (String (hex_digit (b2 / 16)) (String (hex_digit (b2 mod 16))
         (String ":"%char
         (String (hex_digit (b3 / 16)) (String (hex_digit (b3 mod 16))
         (String ":"%char
         (String (hex_digit (b4 / 16)) (String (hex_digit (b4 mod 16))
         (String ":"%char
         (String (hex_digit (b5 / 16)) (String (hex_digit (b5 mod 16))
          EmptyString))))))))))))))))).
  rewrite Hc, Hlen, Hu. cbn [Nat.eqb negb rbind].
  rewrite py_index_0_cons. cbn [rbind hd].
  destruct (Z.eqb_spec (Z.land b0 1) 0) as [Hz|Hz]; cbn [negb].
  - apply land_1_even in Hz. rewrite Hz. reflexivity.
  - destruct (Z.even b0) eqn:Ev; [|reflexivity].
    exfalso. apply Hz, land_1_even, Ev.
Qed.

(** ** More on the calibration fields *)

(** X18.  A calibration field needs a sign bit and at least one bit
    of magnitude: read from an empty bit string both decoders raise
    [IndexError], from a single bit [InterpretError].  From [n + 1]
    bits ADC_CALIBRATION always returns: a multiple of 4 that is not
    positive when the sign bit is set, not negative when it is clear,
    and at most [4 * (2 ^ n - 1)] in size. *)
Theorem calibration_field_outcomes (value : BitArray) :
  match value with
  | [] =>
      EfuseAdcPointCalibration_get value = Raise IndexError /\
      EfuseTempSensor_get value = Raise IndexError
  | [_] =>
      EfuseAdcPointCalibration_get value = Raise InterpretError /\
      EfuseTempSensor_get value = Raise InterpretError
  | top :: rest =>
      exists m,
        0 <= m < 2 ^ Z.of_nat (length rest) /\
        EfuseAdcPointCalibration_get value
        = Ok (if top then - (4 * m) else 4 * m)
  end.
Proof.
  destruct value as [|top [|b rest]].
  - split; reflexivity.
  - split; unfold EfuseAdcPointCalibration_get, EfuseTempSensor_get;
      rewrite py_index_0_cons; reflexivity.
  - destruct (bits_value_bound (b :: rest) 0) as [m [Hm Hr]].
    exists m. split; [exact Hr|].
    unfold EfuseAdcPointCalibration_get.
    rewrite py_index_0_cons. cbn [rbind].
    change (skipn 1 (top :: b :: rest)) with (b :: rest).
    rewrite uint_value by discriminate. cbn [rbind].
    rewrite Hm. f_equal. destruct top; lia.
Qed.

(** X19.  ADC_CALIBRATION reads distinct stored values as distinct
    numbers, but for zero, which has two encodings: two bit strings of
    the same length that decode to the same number other than 0 are
    the same bit string, and two that both decode to 0 differ at most
    in the sign bit. *)
Theorem adc_calibration_injective_but_zero (value value' : BitArray) (r : Z) :
  length value = length value' ->
  EfuseAdcPointCalibration_get value = Ok r ->
  EfuseAdcPointCalibration_get value' = Ok r ->
  (r <> 0 -> value = value') /\ tl value = tl value'.
Proof.
  intros Hl H H'.
  destruct value as [|top [|b rest]]; [discriminate H| |].
  { unfold EfuseAdcPointCalibration_get in H.
    rewrite py_index_0_cons in H. discriminate H. }
  destruct value' as [|top' [|b' rest']]; [discriminate Hl|discriminate Hl|].
  unfold EfuseAdcPointCalibration_get in H, H'.
  rewrite py_index_0_cons in H, H'. cbn [rbind] in H, H'.
  change (skipn 1 (top :: b :: rest)) with (b :: rest) in H.
  change (skipn 1 (top' :: b' :: rest')) with (b' :: rest') in H'.
  rewrite uint_value in H, H' by discriminate. cbn [rbind] in H, H'.
  destruct (bits_value_bound (b :: rest) 0) as [m [Hm Hr]].
  destruct (bits_value_bound (b' :: rest') 0) as [m' [Hm' Hr']].
  assert (Hv : bits_value (b :: rest) 0 = bits_value (b' :: rest') 0
               /\ (r <> 0 -> top = top')).
  { assert (Hinj : forall x y : Z, Ok x = Ok y -> x = y)
      by (intros ? ? Exy; injection Exy; auto).
    apply Hinj in H, H'.
    rewrite Hm in H. rewrite Hm' in H'. rewrite Hm, Hm'.
    destruct top, top'; split; try lia; intros; try reflexivity; lia. }
  destruct Hv as [Hv Ht].
  destruct (bits_value_inj (b :: rest) (b' :: rest') 0 0
              ltac:(cbn [length] in *; lia) Hv) as [_ E].
  cbn [tl]. split; [|exact E].
  intros Hnz. rewrite (Ht Hnz), E. reflexivity.
Qed.

(** ** Looking a field up by name *)

Section LookupProperties.

Variables Desc Field : Type.
Variable desc_name : Desc -> string.
Variable field_name : Field -> string.
Variable from_tuple : Desc -> Field.
Variable CALIB : list Desc.

Abbreviation calibration_fields := (map from_tuple CALIB).


Lemma first_named_none efuses efuse_name :
  first_named Field field_name efuses efuse_name = None <->
  (forall e, In e efuses -> field_name e <> efuse_name).
Proof.
  unfold first_named. split.
  - intros H e Hin Hn.
    pose proof (find_none _ _ H e Hin) as Hf. cbv beta in Hf.
    rewrite Hn, String.eqb_refl in Hf. discriminate.
  - intros H. induction efuses as [|x l IH]; [reflexivity|].
    cbn [find]. destruct (String.eqb_spec efuse_name (field_name x)) as [E|_].
    + exfalso. apply (H x); [left; reflexivity | auto].
    + apply IH. intros e Hin. apply H. right. exact Hin.
Qed.

Lemma first_named_app efuses more efuse_name :
  first_named Field field_name (efuses ++ more) efuse_name
  = match first_named Field field_name efuses efuse_name with
    | Some e => Some e
    | None => first_named Field field_name more efuse_name
    end.
Proof.
  unfold first_named. induction efuses as [|x l IH]; [reflexivity|].
  cbn [app find]. destruct (String.eqb efuse_name (field_name x));
    [reflexivity | exact IH].
Qed.

Lemma load_calibration_eq pending efuse_name :
  forall efuses new_fields,
    load_calibration Desc Field desc_name from_tuple CALIB
                     pending efuse_name efuses new_fields
    = (efuses ++ copies (named_count desc_name pending efuse_name)
                        calibration_fields,
       new_fields || negb (Nat.eqb (named_count desc_name pending efuse_name) 0)).
Proof.
  unfold named_count.
  induction pending as [|d rest IH]; intros efuses new_fields.
  - cbn [load_calibration filter length copies Nat.eqb negb].
    rewrite app_nil_r, orb_false_r. reflexivity.
  - cbn [load_calibration filter].
    destruct (String.eqb (desc_name d) efuse_name).
    + rewrite IH. cbn [length copies Nat.eqb negb].
      rewrite <- app_assoc, !orb_true_r. reflexivity.
    + apply IH.
Qed.


Lemma named_count_pos efuse_name d :
  In d CALIB -> desc_name d = efuse_name ->
  named_count desc_name CALIB efuse_name <> 0%nat.
Proof.
  intros Hin Hn. unfold named_count.
  assert (Hf : In d (filter (fun d => String.eqb (desc_name d) efuse_name) CALIB)).
  { apply filter_In. split; [exact Hin|]. apply String.eqb_eq, Hn. }
  destruct (filter _ CALIB); [contradiction | discriminate].
Qed.

Lemma first_named_calibration efuse_name d :
  (forall d, field_name (from_tuple d) = desc_name d) ->
  In d CALIB -> desc_name d = efuse_name ->
  exists d0, In d0 CALIB /\ desc_name d0 = efuse_name /\
             first_named Field field_name calibration_fields efuse_name
             = Some (from_tuple d0).
Proof.
  intros Hnames. unfold first_named.
  induction CALIB as [|x l IH]; intros Hin Hn; [contradiction|].
  cbn [map find]. rewrite Hnames.
  destruct (String.eqb_spec efuse_name (desc_name x)) as [E|E].
  - exists x. split; [left; reflexivity|]. auto.
  - destruct Hin as [->|Hin]; [congruence|].
    destruct (IH Hin Hn) as [d0 [H0 [H1 H2]]].
    exists d0. split; [right; exact H0|]. auto.
Qed.

(** X21.  The calibration fields are made on demand and once.  When
    the fields carry the names of their descriptors, the names of the
    calibration descriptors are distinct and no field made so far has
    the name of a calibration descriptor, asking for that name appends
    the calibration fields, once, and returns the field made from that
    descriptor; asking again returns the same field and appends
    nothing. *)
Theorem getitem_loads_calibration_once
    (efuses : list Field) (efuse_name : string) (d : Desc) :
  (forall d, field_name (from_tuple d) = desc_name d) ->
  NoDup (map desc_name CALIB) ->
  In d CALIB -> desc_name d = efuse_name ->
  (forall e, In e efuses -> field_name e <> efuse_name) ->
  let efuses' := efuses ++ calibration_fields in
  getitem Desc Field desc_name field_name from_tuple CALIB efuses efuse_name
  = (Found (from_tuple d), efuses') /\
  getitem Desc Field desc_name field_name from_tuple CALIB efuses' efuse_name
  = (Found (from_tuple d), efuses').
Proof.
  intros Hnames Hnd Hin Hn Hnone efuses'.
  assert (Hcount : named_count desc_name CALIB efuse_name = 1%nat).
  { unfold named_count. clear Hnone efuses'.
    induction CALIB as [|x l IH]; [contradiction|].
    cbn [map] in Hnd. inversion Hnd as [|? ? Hx Hnd']; subst.
    cbn [filter].
    destruct (String.eqb_spec (desc_name x) (desc_name d)) as [E|E].
    - cbn [length]. f_equal.
      assert (Hz : forall y, In y l -> desc_name y <> desc_name d).
      { intros y Hy Ey. apply Hx. rewrite E, <- Ey. apply in_map, Hy. }
      clear - Hz. induction l as [|y l IHl]; [reflexivity|].
      cbn [filter].
      destruct (String.eqb_spec (desc_name y) (desc_name d)) as [Ey|_].
      + exfalso. apply (Hz y); [left; reflexivity | exact Ey].
      + apply IHl. intros z Hz'. apply Hz. right. exact Hz'.
    - destruct Hin as [->|Hin]; [congruence|]. apply IH; assumption. }
  destruct (first_named_calibration efuse_name d Hnames Hin Hn)
    as [d0 [H0 [H1 H2]]].
  assert (Hd0 : d0 = d).
  { clear - Hnd H0 H1 Hin Hn. rewrite <- Hn in H1. clear Hn.
    induction CALIB as [|x l IH]; [contradiction|].
    cbn [map] in Hnd. inversion Hnd as [|? ? Hx Hnd']; subst.
    destruct H0 as [->|H0], Hin as [->|Hin]; auto.
    - exfalso. apply Hx. rewrite H1. apply in_map, Hin.
    - exfalso. apply Hx. rewrite <- H1. apply in_map, H0. }
  subst d0.
  assert (Hfound : first_named Field field_name efuses' efuse_name
                   = Some (from_tuple d)).
  { unfold efuses'. rewrite first_named_app.
    rewrite (proj2 (first_named_none efuses efuse_name) Hnone). exact H2. }
  split.
  - unfold getitem.
    rewrite (proj2 (first_named_none efuses efuse_name) Hnone).
    rewrite load_calibration_eq, Hcount. cbn [orb Nat.eqb negb copies].
    rewrite app_nil_r. fold efuses'. rewrite Hfound. reflexivity.
  - unfold getitem. rewrite Hfound. reflexivity.
Qed.

End LookupProperties.

(** ** The pass and the fields that report it *)

(** X22.  A pass that reports no failure can still leave error counts
    behind.  After a pass that returned [False], [check] of a field in
    a block the pass accounted never says FAIL:1: it says OK when the
    block's error count is 0, and names the block with its count and
    FAIL:0 otherwise.  A block number outside the list raises
    [IndexError]. *)
Theorem check_after_clean_pass
    (REGS : EfuseDefineRegisters) (dev : Device)
    (self : EspEfuses) (blocks : list EfuseBlock) (silent : bool)
    (s : IO) (blocks' : list EfuseBlock) (s' : IO) (block : Z) :
  get_coding_scheme_warnings REGS dev self blocks silent s
  = Some (Ok (false, blocks'), s') ->
  match py_index blocks' block with
  | Ok b' =>
      accounts REGS b' = true ->
      fail b' = false /\
      EfuseMacField_check blocks' block
      = Ok (if num_errors b' =? 0 then "(OK)"%string
            else ("(" ++ ("Block" ++ decimal block ++ " has ERRORS:"
                          ++ decimal (num_errors b') ++ " FAIL:0")
                  ++ ")")%string)
  | Raise e =>
      e = IndexError /\ EfuseMacField_check blocks' block = Raise IndexError
  end.
Proof.
  intros H.
  destruct (pass_inv _ _ _ _ _ _ _ _ _ H) as [st [s1 [Hloop Hflag]]].
  destruct (account_blocks_ok _ _ _ _ _ _ _ _ _ Hloop) as [Hf _].
  rewrite <- Hflag in Hf. cbn [ret_fail pass_start orb] in Hf.
  unfold EfuseMacField_check, get_block_errors.
  destruct (py_index blocks' block) as [b'|e] eqn:Hi; cbn [rbind].
  - intros Hacc.
    assert (Hfail : fail b' = false).
    { destruct (fail b') eqn:Ef; [|reflexivity].
      assert (Hex : existsb (fun b => accounts REGS b && fail b) blocks'
                    = true).
      { apply existsb_exists. exists b'.
        split; [exact (py_index_In _ _ _ Hi)|].
        rewrite Hacc, Ef. reflexivity. }
      rewrite Hex in Hf. discriminate Hf. }
    split; [exact Hfail|]. rewrite Hfail, orb_false_r.
    destruct (num_errors b' =? 0); reflexivity.
  - assert (He : e = IndexError).
    { unfold py_index in Hi.
      destruct ((0 <=? _) && _); [|inversion Hi; reflexivity].
      destruct (nth_error blocks' _); [discriminate|].
      inversion Hi; reflexivity. }
    subst e. auto.
Qed.

(** ** The properties at work on the sample data *)

Lemma sample_clock_live : clock_live sample_dev (EFUSE_BURN_TIMEOUT sample_regs) 13.
Proof.
  intros c. exists 12%nat. split; [lia|].
  change (EFUSE_BURN_TIMEOUT sample_regs) with 250.
  unfold sample_dev. cbn [clock]. lia.
Defined.

Lemma pass_reads_error_registers_only_witness :
  exists new,
    log sample_pass_end = log start ++ new /\
    Forall (pass_event sample_regs false) new /\
    register_writes new = [].
Proof.
  apply (pass_reads_error_registers_only sample_regs sample_dev sample_session
           sample_blocks false start sample_pass_end
           (Ok (true, sample_pass_blocks))).
  vm_compute. reflexivity.
Defined.

Lemma pass_flag_is_any_accounted_fail_witness :
  true = existsb (fun b' => accounts sample_regs b' && fail b')
                 sample_pass_blocks.
Proof.
  apply (pass_flag_is_any_accounted_fail sample_regs sample_dev sample_session
           sample_blocks false start true sample_pass_blocks sample_pass_end).
  vm_compute. reflexivity.
Defined.

Lemma pass_keeps_block_data_witness :
  length sample_pass_blocks = length sample_blocks /\
  Forall2 (fun b b' => same_block_data b b' /\
                       (accounts sample_regs b = false -> b' = b))
          sample_blocks sample_pass_blocks.
Proof.
  apply (pass_keeps_block_data sample_regs sample_dev sample_session
           sample_blocks false start true sample_pass_blocks sample_pass_end).
  vm_compute. reflexivity.
Defined.

Lemma silence_changes_reports_only_witness :
  (exists s1, get_coding_scheme_warnings sample_regs sample_dev sample_session
                sample_blocks true start
              = Some (Ok (true, sample_pass_blocks), s1)) <->
  (exists s2, get_coding_scheme_warnings sample_regs sample_dev sample_session
                sample_blocks false start
              = Some (Ok (true, sample_pass_blocks), s2)).
Proof.
  apply (silence_changes_reports_only sample_regs sample_dev sample_session
           sample_blocks start (Ok (true, sample_pass_blocks))).
  vm_compute. discriminate.
Defined.

Lemma pass_aborts_at_bad_block_witness :
  get_coding_scheme_warnings sample_regs sample_dev sample_session
    ([] ++ short_block0 :: sample_blocks) false start
  = Some (Raise (ValueError msg_overwrite),
          answered (Some (EvRead (EFUSE_RD_REPEAT_ERR_REG sample_regs) 5))
                   start)
  /\
  get_coding_scheme_warnings sample_regs sample_dev sample_session
    ([] ++ stray_block :: sample_blocks) false start
  = Some (Raise IndexError, start).
Proof.
  split.
  - apply (proj1 (pass_aborts_at_bad_block sample_regs sample_dev
                    sample_session false [] sample_blocks short_block0
                    start start pass_start [] eq_refl)).
    + reflexivity.
    + vm_compute. split; [discriminate | reflexivity].
    + vm_compute. lia.
  - apply (proj2 (pass_aborts_at_bad_block sample_regs sample_dev
                    sample_session false [] sample_blocks stray_block
                    start start pass_start [] eq_refl)).
    + discriminate.
    + right. vm_compute. discriminate.
Defined.

Lemma wait_efuse_idle_only_reads_status_witness :
  exists values,
    log sample_wait_end
    = log start ++ map (EvRead (EFUSE_STATUS_REG sample_regs)) values.
Proof.
  apply (wait_efuse_idle_only_reads_status sample_regs sample_dev 13
           start sample_wait_end (Ok tt)).
  vm_compute. reflexivity.
Defined.

Lemma wait_efuse_idle_late_first_poll_witness :
  wait_efuse_idle sample_regs late_dev 1 start
  = Some (Raise (FatalError timeout_message), {| calls := 2; log := [] |}).
Proof.
  apply (wait_efuse_idle_late_first_poll sample_regs late_dev 0 start).
  vm_compute. discriminate.
Defined.

Lemma clear_pgm_registers_zeroes_all_or_none_witness :
  exists r s' w,
    clear_pgm_registers sample_regs sample_dev 13 start = Some (r, s') /\
    match r with
    | Ok _ =>
        idle_wait (EFUSE_STATUS_REG sample_regs) w /\
        log s' = log start ++ w
                 ++ map (fun a => EvWrite a 0 0) (pgm_data_addresses sample_regs)
    | Raise e =>
        e = FatalError timeout_message /\
        busy_reads (EFUSE_STATUS_REG sample_regs) w /\
        log s' = log start ++ w /\
        register_writes w = []
    end.
Proof.
  apply (clear_pgm_registers_zeroes_all_or_none sample_regs sample_dev 13 start).
  exact sample_clock_live.
Defined.

Lemma efuse_controller_setup_order_witness :
  exists r s',
    efuse_controller_setup sample_regs sample_dev 13 start = Some (r, s') /\
    match r with
    | Ok _ =>
        exists w1 w2,
          idle_wait (EFUSE_STATUS_REG sample_regs) w1 /\
          idle_wait (EFUSE_STATUS_REG sample_regs) w2 /\
          log s' = log start
                   ++ [EvGetCrystalFreq 40;
                       EvUpdate (EFUSE_WR_TIM_CONF2_REG sample_regs)
                                (EFUSE_PWR_OFF_NUM_M sample_regs) 0x190]
                   ++ w1
                   ++ map (fun a => EvWrite a 0 0)
                          (pgm_data_addresses sample_regs)
                   ++ w2
    | Raise e => e = FatalError timeout_message
    end.
Proof.
  apply (efuse_controller_setup_order sample_regs sample_dev 13 start).
  exact sample_clock_live.
Defined.

Lemma write_efuses_burns_then_checks_silently_witness :
  exists r s' new,
    write_efuses sample_regs sample_dev 13 sample_session sample_blocks 3 start
    = Some (r, s') /\
    log s' = log start ++ new /\
    Forall (fun e => is_print e = false) new /\
    match r with
    | Ok (failed, blocks') =>
        exists w1 w2 w3 w4 w5 checks,
          idle_wait (EFUSE_STATUS_REG sample_regs) w1 /\
          idle_wait (EFUSE_STATUS_REG sample_regs) w2 /\
          idle_wait (EFUSE_STATUS_REG sample_regs) w3 /\
          idle_wait (EFUSE_STATUS_REG sample_regs) w4 /\
          idle_wait (EFUSE_STATUS_REG sample_regs) w5 /\
          new = burn_trace sample_regs 3 w1 w2 w3 w4 w5 ++ checks /\
          Forall (pass_event sample_regs true) checks /\
          failed = existsb (fun b' => accounts sample_regs b' && fail b') blocks'
    | Raise _ => True
    end.
Proof.
  apply (write_efuses_burns_then_checks_silently sample_regs sample_dev 13
           sample_session sample_blocks 3 start).
  exact sample_clock_live.
Defined.

Lemma program_command_keeps_block_witness :
  exists reads command rest,
    log sample_burn_end
    = log start ++ reads
      ++ EvWrite (EFUSE_CONF_REG sample_regs) (EFUSE_WRITE_OP_CODE sample_regs) 0
      :: EvWrite (EFUSE_CMD_REG sample_regs) command 0 :: rest /\
    register_writes reads = [] /\
    Z.shiftr command 2 = 3 /\
    Z.land command 3 = EFUSE_PGM_CMD sample_regs.
Proof.
  apply (program_command_keeps_block sample_regs sample_dev 13 3 start
           sample_burn_end).
  - change (EFUSE_PGM_CMD sample_regs) with 2. lia.
  - lia.
  - vm_compute. reflexivity.
Defined.

Lemma apply_coding_scheme_long_payload_witness :
  exists ws,
    apply_coding_scheme_of 4 payload_0_to_35 0 = Ok ws /\
    length ws = (length payload_0_to_35 / 4)%nat /\
    words_le_concat ws = rev payload_0_to_35.
Proof.
  apply (apply_coding_scheme_long_payload 4 payload_0_to_35 0).
  - vm_compute. lia.
  - unfold payload_0_to_35, is_byte. apply Forall_forall. intros x Hx.
    apply in_map_iff in Hx. destruct Hx as [n [<- Hn]].
    apply in_seq in Hn. lia.
Defined.

Lemma rs_words_extend_plain_words_witness :
  exists plain parity_words,
    apply_coding_scheme_of 4 [1; 2; 3] 0 = Ok plain /\
    apply_coding_scheme_of 4 [1; 2; 3] 4 = Ok (plain ++ parity_words) /\
    length plain = 8%nat /\ length parity_words = 3%nat.
Proof.
  apply (rs_words_extend_plain_words 4 [1; 2; 3] 0).
  - discriminate.
  - unfold len_of_burn_unit. simpl. lia.
  - unfold is_byte. repeat constructor; lia.
Defined.

Lemma parity_tells_one_byte_apart_witness :
  exists ws ws',
    apply_coding_scheme_of 4 ([] ++ 0 :: map Z.of_nat (seq 1 31)) 4 = Ok ws /\
    apply_coding_scheme_of 4 ([] ++ 255 :: map Z.of_nat (seq 1 31)) 4 = Ok ws' /\
    skipn 8 ws <> skipn 8 ws'.
Proof.
  apply (parity_tells_one_byte_apart 4 [] (map Z.of_nat (seq 1 31)) 0 255).
  - reflexivity.
  - cbn [app]. constructor; [unfold is_byte; lia|].
    apply Forall_forall. intros x Hx.
    apply in_map_iff in Hx. destruct Hx as [n [<- Hn]].
    apply in_seq in Hn. unfold is_byte. lia.
  - unfold is_byte. lia.
  - discriminate.
Defined.

Lemma check_format_returns_six_bytes_witness :
  String.length "AA:CD:EF:01:02:03" = 17%nat /\
  length [0xAA; 0xCD; 0xEF; 0x01; 0x02; 0x03] = 6%nat /\
  Forall is_byte [0xAA; 0xCD; 0xEF; 0x01; 0x02; 0x03] /\
  Z.even (hd 0 [0xAA; 0xCD; 0xEF; 0x01; 0x02; 0x03]) = true.
Proof.
  apply (check_format_returns_six_bytes "AA:CD:EF:01:02:03"
           [0xAA; 0xCD; 0xEF; 0x01; 0x02; 0x03]).
  vm_compute. reflexivity.
Defined.

Lemma check_format_reads_back_spelling_witness :
  check_format (Some (mac_spelling [0xAA; 0xCD; 0xEF; 0x01; 0x02; 0x03]))
  = Ok [0xAA; 0xCD; 0xEF; 0x01; 0x02; 0x03].
Proof.
  apply (check_format_reads_back_spelling [0xAA; 0xCD; 0xEF; 0x01; 0x02; 0x03]).
  - reflexivity.
  - unfold is_byte. repeat constructor; lia.
Defined.

Lemma adc_calibration_injective_but_zero_witness :
  (0 <> 0 -> [true; false; false] = [false; false; false]) /\
  tl [true; false; false] = tl [false; false; false].
Proof.
  apply (adc_calibration_injective_but_zero
           [true; false; false] [false; false; false] 0);
    reflexivity.
Defined.

Lemma getitem_loads_calibration_once_witness :
  let efuses' := sample_efuses ++ map sample_from_tuple sample_calibration in
  getitem (string * string) (FieldClass * string) sample_desc_name
          sample_field_name sample_from_tuple sample_calibration
          sample_efuses "ADC_CALIBRATION_0"
  = (Found (EfuseAdcPointCalibration, "ADC_CALIBRATION_0"%string), efuses') /\
  getitem (string * string) (FieldClass * string) sample_desc_name
          sample_field_name sample_from_tuple sample_calibration
          efuses' "ADC_CALIBRATION_0"
  = (Found (EfuseAdcPointCalibration, "ADC_CALIBRATION_0"%string), efuses').
Proof.
  apply (getitem_loads_calibration_once (string * string)
           (FieldClass * string) sample_desc_name sample_field_name
           sample_from_tuple sample_calibration sample_efuses
           "ADC_CALIBRATION_0" ("ADC_CALIBRATION_0", "adc_tp")%string).
  - intros d. reflexivity.
  - cbn. repeat constructor; cbn; intros H;
      repeat (destruct H as [H|H]; [discriminate H|]); exact H.
  - cbn. right. right. left. reflexivity.
  - reflexivity.
  - cbn. intros e H.
    repeat (destruct H as [H|H]; [subst e; discriminate|]). contradiction.
Defined.

Lemma check_after_clean_pass_witness :
  fail quiet_block1 = false /\
  EfuseMacField_check quiet_pass_blocks 1
  = Ok "(Block1 has ERRORS:3 FAIL:0)"%string.
Proof.
  pose proof (check_after_clean_pass sample_regs quiet_dev sample_session
                sample_blocks false start quiet_pass_blocks quiet_pass_end 1)
    as W.
  assert (E : py_index quiet_pass_blocks 1 = Ok quiet_block1)
    by (vm_compute; reflexivity).
  rewrite E in W.
  assert (H : get_coding_scheme_warnings sample_regs quiet_dev sample_session
                sample_blocks false start
              = Some (Ok (false, quiet_pass_blocks), quiet_pass_end))
    by (vm_compute; reflexivity).
  assert (A : accounts sample_regs quiet_block1 = true)
    by (vm_compute; reflexivity).
  destruct (W H A) as [Hf Hc].
  split; [exact Hf|]. rewrite Hc. vm_compute. reflexivity.
Defined.

